(** * Boteshassar: citation extraction and linking (scripts/citations.py)

    A shallow embedding of the script that reads Supreme Court decisions,
    extracts the legal citations of their text, looks each citation up in
    the knowledge base and writes one "cites" statement per citation that
    resolves to exactly one item.

    Texts are strings of 8-bit characters, read as the code points below
    256 of a Python [str]; the character classes [\s], [\d] and [\w] are
    Python's Unicode classes on that range. *)

From Stdlib Require Import Ascii String List Arith Lia Bool.
From stdpp Require Import gmap strings list.

Open Scope string_scope.
Open Scope list_scope.
Open Scope nat_scope.

(** ** Characters and character classes *)

Definition code (a : ascii) : nat := nat_of_ascii a.

Definition between (lo hi n : nat) : bool :=
  Nat.leb lo n && Nat.leb n hi.

(** [\s]: str.isspace on the code points below 256. *)
Definition is_space (a : ascii) : bool :=
  let n := code a in
  between 9 13 n || between 28 32 n || Nat.eqb n 133 || Nat.eqb n 160.

(** [\d]: the decimal digits below 256 are the ASCII ones. *)
Definition is_digit (a : ascii) : bool := between 48 57 (code a).

(** [\w]: str.isalnum or the underscore, on the code points below 256. *)
Definition is_word (a : ascii) : bool :=
  let n := code a in
  between 48 57 n || between 65 90 n || Nat.eqb n 95 || between 97 122 n
  || Nat.eqb n 170 || between 178 179 n || Nat.eqb n 181 || between 185 186 n
  || between 188 190 n || between 192 214 n || between 216 246 n
  || between 248 255 n.

Definition chars (s : string) : list ascii := list_ascii_of_string s.
Definition str (l : list ascii) : string := string_of_list_ascii l.

(** ** Regular expressions of the [re] module

    The constructs the five citation patterns and the whitespace pattern
    use: a character test, sequence, ordered alternative, greedy star and
    numbered capture group. *)

Inductive regex : Type :=
  | Eps
  | Chr (p : ascii -> bool)
  | Seq (r1 r2 : regex)
  | Alt (r1 r2 : regex)
  | Star (r : regex)
  | Group (n : nat) (r : regex).

Declare Scope re_scope.
Delimit Scope re_scope with re.
Bind Scope re_scope with regex.
Infix "+>" := Seq (at level 60, right associativity) : re_scope.

(** A literal string. *)
Fixpoint lit_chars (l : list ascii) : regex :=
  match l with
  | [] => Eps
  | [a] => Chr (Ascii.eqb a)
  | a :: l' => Seq (Chr (Ascii.eqb a)) (lit_chars l')
  end.
Definition Lit (s : string) : regex := lit_chars (chars s).

(** A character set [[...]]. *)
Definition OneOf (s : string) : regex :=
  Chr (fun a => existsb (Ascii.eqb a) (chars s)).

(** [r?], greedy. *)
Definition Opt (r : regex) : regex := Alt r Eps.
(** [r+], greedy. *)
Definition Plus (r : regex) : regex := Seq r (Star r).
(** [r{n}]. *)
Fixpoint Rep (n : nat) (r : regex) : regex :=
  match n with
  | 0 => Eps
  | 1 => r
  | S n' => Seq r (Rep n' r)
  end.

Definition ws : regex := Chr is_space.
Definition digit : regex := Chr is_digit.
Definition word : regex := Chr is_word.

(** Capture groups that took part in the match, latest first. *)
Definition caps : Type := list (nat * list ascii).

Fixpoint group (n : nat) (c : caps) : option (list ascii) :=
  match c with
  | [] => None
  | (m, g) :: c' => if Nat.eqb m n then Some g else group n c'
  end.

(** The part of [s] consumed when [s'] is what remains. *)
Definition consumed (s s' : list ascii) : list ascii :=
  take (length s - length s') s.

Section Backtracking.
Context {A : Type}.

Definition cont : Type := list ascii -> caps -> option A.
Definition matcher : Type := list ascii -> caps -> cont -> option A.

(** Greedy iteration: one more round of the body first, the
    continuation only when that fails. A round that consumes nothing is
    not repeated. *)
Fixpoint star (m : matcher) (fuel : nat) (s : list ascii) (c : caps)
         (k : cont) : option A :=
  match fuel with
  | 0 => k s c
  | S fuel' =>
      match m s c (fun s' c' =>
                     if Nat.ltb (length s') (length s)
                     then star m fuel' s' c' k else None) with
      | Some x => Some x
      | None => k s c
      end
  end.

(** The backtracking matcher, in continuation-passing style: the first
    way to match [r] on a prefix of [s] that the rest of the pattern
    [k] accepts. *)
Fixpoint bt (r : regex) (s : list ascii) (c : caps) (k : cont)
  : option A :=
  match r with
  | Eps => k s c
  | Chr p =>
      match s with
      | a :: s' => if p a then k s' c else None
      | [] => None
      end
  | Seq r1 r2 => bt r1 s c (fun s' c' => bt r2 s' c' k)
  | Alt r1 r2 =>
      match bt r1 s c k with
      | Some x => Some x
      | None => bt r2 s c k
      end
  | Star r1 => star (bt r1) (length s) s c k
  | Group n r1 =>
      bt r1 s c (fun s' c' => k s' ((n, consumed s s') :: c'))
  end.
End Backtracking.

(** A match object: group 0 and the numbered groups. *)
Record re_match : Type := MkMatch { group0 : list ascii; groups : caps }.

(** The match of [r] that starts at the head of [s], if any. *)
Definition match_here (r : regex) (s : list ascii) : option re_match :=
  bt r s [] (fun s' c => Some (MkMatch (consumed s s') c)).

(** [re.finditer]: the matches from left to right, each search starting
    where the previous match ended. [skip] counts the characters of the
    last match still to pass over. Every pattern of the script matches at
    least one character, which is the case covered here. *)
Fixpoint finditer_from (r : regex) (skip : nat) (s : list ascii)
  : list re_match :=
  match s with
  | [] => []
  | _ :: s' =>
      match skip with
      | S n => finditer_from r n s'
      | 0 =>
          match match_here r s with
          | Some m => m :: finditer_from r (length (group0 m) - 1) s'
          | None => finditer_from r 0 s'
          end
      end
  end.

Definition finditer (r : regex) (s : list ascii) : list re_match :=
  finditer_from r 0 s.

(** [re.sub] with a constant replacement. *)
Fixpoint sub_from (r : regex) (repl : list ascii) (skip : nat)
         (s : list ascii) : list ascii :=
  match s with
  | [] => []
  | a :: s' =>
      match skip with
      | S n => sub_from r repl n s'
      | 0 =>
          match match_here r s with
          | Some m =>
              match group0 m with
              | [] => repl ++ a :: sub_from r repl 0 s'
              | _ :: g => repl ++ sub_from r repl (length g) s'
              end
          | None => a :: sub_from r repl 0 s'
          end
      end
  end.

Definition re_sub (r : regex) (repl : string) (s : list ascii) : string :=
  str (sub_from r (chars repl) 0 s).

(** ** The citation patterns (lines 52 to 60) *)

(** [NJA\s+\d{4}\s+s\.?\s+\d+(\s+I*V)?] *)
Definition re_NJA : regex :=
  (Lit "NJA" +> Plus ws +> Rep 4 digit +> Plus ws +> Lit "s" +>
   Opt (Lit ".") +> Plus ws +> Plus digit +>
   Opt (Group 1 (Plus ws +> Star (Lit "I") +> Lit "V")))%re.

(** [(?:\s+s\.\s+(\d+))?], the page part shared by the other families. *)
Definition re_page : regex :=
  Opt (Plus ws +> Lit "s." +> Plus ws +> Group 2 (Plus digit))%re.

(** [\d{4}\/(?:\d{2}|2000):], a parliamentary year. *)
Definition re_session : regex :=
  (Rep 4 digit +> Lit "/" +> Alt (Rep 2 digit) (Lit "2000") +> Lit ":")%re.

(** [[pP]rop(?:osition|\.)?\s+(\d{4}\/(?:\d{2}|2000):\d+)(?:\s+s\.\s+(\d+))?] *)
Definition re_Prop : regex :=
  (OneOf "pP" +> Lit "rop" +> Opt (Alt (Lit "osition") (Lit ".")) +>
   Plus ws +> Group 1 (re_session +> Plus digit) +> re_page)%re.

(** [(SOU\s+\d{4}:\d+)(?:\s+s\.\s+(\d+))?] *)
Definition re_SOU : regex :=
  (Group 1 (Lit "SOU" +> Plus ws +> Rep 4 digit +> Lit ":" +> Plus digit) +>
   re_page)%re.

(** The two characters the source file spells after "bet(?:": code points
    195 and 164. *)
Definition a_umlaut_as_read : list ascii :=
  [ascii_of_nat 195; ascii_of_nat 164].

(** [[bB]et(?:..nkande|\.)?\s+(\d{4}\/(?:\d{2}|2000):\w+\d+)(?:\s+s\.\s+(\d+))?] *)
Definition re_bet : regex :=
  (OneOf "bB" +> Lit "et" +>
   Opt (Alt (lit_chars (a_umlaut_as_read ++ chars "nkande")) (Lit ".")) +>
   Plus ws +> Group 1 (re_session +> Plus word +> Plus digit) +> re_page)%re.

(** [[mM]ot(?:ion|\.)?\s+(\d{4}\/(?:\d{2}|2000):\d{2})(?:\s+s\.\s+(\d+))?] *)
Definition re_Mot : regex :=
  (OneOf "mM" +> Lit "ot" +> Opt (Alt (Lit "ion") (Lit ".")) +>
   Plus ws +> Group 1 (re_session +> Rep 2 digit) +> re_page)%re.

(** [m.group(n)] as a string, [None] when the group took no part. *)
Definition m_group (n : nat) (m : re_match) : option string :=
  str <$> group n (groups m).

(** [m.group(1)] of a pattern whose group 1 always takes part. *)
Definition m_group1 (m : re_match) : string :=
  default EmptyString (m_group 1 m).

(** A yielded pair: the citation key and the page, [None] when absent. *)
Definition citation : Type := string * option string.

Definition nja_citation (m : re_match) : citation :=
  (re_sub (Plus ws) " " (group0 m), None).
Definition prop_citation (m : re_match) : citation :=
  ("Prop. " +:+ m_group1 m, m_group 2 m).
Definition sou_citation (m : re_match) : citation :=
  (re_sub (Plus ws) " " (chars (m_group1 m)), m_group 2 m).
Definition bet_citation (m : re_match) : citation :=
  ("bet. " +:+ m_group1 m, m_group 2 m).
Definition mot_citation (m : re_match) : citation :=
  ("Mot. " +:+ m_group1 m, m_group 2 m).

Definition nja_citations (text : list ascii) : list citation :=
  nja_citation <$> finditer re_NJA text.
Definition prop_citations (text : list ascii) : list citation :=
  prop_citation <$> finditer re_Prop text.
Definition sou_citations (text : list ascii) : list citation :=
  sou_citation <$> finditer re_SOU text.
Definition bet_citations (text : list ascii) : list citation :=
  bet_citation <$> finditer re_bet text.
Definition mot_citations (text : list ascii) : list citation :=
  mot_citation <$> finditer re_Mot text.

(** The pairs [extract_citations] yields for the text of the document,
    family after family. *)
Definition citations_of_text (text : string) : list citation :=
  let t := chars text in
  nja_citations t ++ prop_citations t ++ sou_citations t
  ++ bet_citations t ++ mot_citations t.


(** ** Aggregation (lines 119 to 125) *)

(** [citations = defaultdict(set)]: the keys in insertion order, each
    with its set of pages. *)
Definition citation_map : Type := list (string * gset string).

Fixpoint dict_get (k : string) (d : citation_map) : option (gset string) :=
  match d with
  | [] => None
  | (k', s) :: d' => if decide (k' = k) then Some s else dict_get k d'
  end.

(** [citations[k]]: a missing key is entered with the empty set. *)
Fixpoint dict_touch (k : string) (d : citation_map) : citation_map :=
  match d with
  | [] => [(k, ∅)]
  | (k', s) :: d' =>
      if decide (k' = k) then (k', s) :: d' else (k', s) :: dict_touch k d'
  end.

(** [citations[k].add(p)]. *)
Fixpoint dict_add (k p : string) (d : citation_map) : citation_map :=
  match d with
  | [] => [(k, {[p]})]
  | (k', s) :: d' =>
      if decide (k' = k) then (k', {[p]} ∪ s) :: d'
      else (k', s) :: dict_add k p d'
  end.

(** The truth value of [page] in [if page:]: false for [None] and for
    the empty string. *)
Definition truthy (page : option string) : bool :=
  match page with
  | Some p => negb (bool_decide (p = EmptyString))
  | None => false
  end.

Definition aggregate_step (d : citation_map) (c : citation) : citation_map :=
  match c with
  | (k, Some p) => if truthy (Some p) then dict_add k p d else dict_touch k d
  | (k, None) => dict_touch k d
  end.

Definition aggregate (pairs : list citation) : citation_map :=
  fold_left aggregate_step pairs [].

(** ** Statements of the knowledge base (the wdi_core data types) *)

Definition PROPS_table : list (string * string) :=
  [("instance_of", "P31"); ("title", "P1476"); ("date", "P577");
   ("jurisdiction", "P1001"); ("subject", "P921"); ("nja_ref", "P1031");
   ("court", "4884"); ("judge", "P1594"); ("obj_role", "P3831");
   ("laws_applied", "P3014"); ("published_in", "P1433"); ("page", "P304");
   ("link", "P953"); ("has_part", "P527"); ("opinion_joined", "P7122");
   ("author", "P50"); ("cites", "P2860"); ("language", "P407");
   ("case_no", "P8407"); ("ref_url", "P854"); ("retrieved", "P813")].

Fixpoint assoc (k : string) (l : list (string * string)) : string :=
  match l with
  | [] => EmptyString
  | (k', v) :: l' => if decide (k' = k) then v else assoc k l'
  end.

Definition PROPS (name : string) : string := assoc name PROPS_table.

Inductive role : Type := is_reference | is_qualifier.

Inductive wd_datum : Type :=
  | WDUrl (value prop_nr : string) (r : role)
  | WDMonolingualText (value prop_nr language : string) (r : role)
  | WDTime (time prop_nr : string) (r : role)
  | WDString (value prop_nr : string) (r : role).

Record WDItemID : Type := MkItemID {
  value : string;
  prop_nr : string;
  references : list (list wd_datum);
  qualifiers : list wd_datum
}.

(** The string a page qualifier carries. *)
Definition datum_value (d : wd_datum) : string :=
  match d with
  | WDUrl v _ _ | WDMonolingualText v _ _ _ | WDTime v _ _ | WDString v _ _ => v
  end.

(** ** The collaborators and the state of a run *)

(** One row of the discovery query: [?item], [?url], [?date] and the
    optional [?title]. *)
Record binding : Type := MkBinding {
  b_item : string;
  b_url : string;
  b_date : string;
  b_title : option string
}.

(** What the script calls from outside. [None] stands for a raised
    exception. The knowledge base is taken as fixed during the run: the
    answer to a query depends on the query text only. *)
Record env : Type := MkEnv {
  discovery : list binding;
  requests_get : string -> option string;
  extract_text : string -> option string;
  execute_sparql_query : string -> option (list string);
  write : string -> list WDItemID -> bool;
  utcnow : string
}.

Inductive exn : Type :=
  | NameError (name : string)
  | QueryError (query : string)
  | WriteError (item : string).

(** The module-level variable [ref_date] ([None] while unbound), the
    cache of [query_legal_citation] with the most recently used entry
    first, and the trace of the run: queries sent, lines printed, edits
    made. *)
Record state : Type := MkState {
  ref_date : option string;
  cache : list (string * list string);
  queries : list string;
  stdout : list string;
  written : list (string * list WDItemID)
}.

Definition initial : state := MkState None [] [] [] [].

Definition set_ref_date (d : string) (st : state) : state :=
  MkState (Some d) (cache st) (queries st) (stdout st) (written st).
Definition set_cache (c : list (string * list string)) (st : state) : state :=
  MkState (ref_date st) c (queries st) (stdout st) (written st).
Definition add_query (q : string) (st : state) : state :=
  MkState (ref_date st) (cache st) (queries st ++ [q]) (stdout st) (written st).
Definition add_line (l : string) (st : state) : state :=
  MkState (ref_date st) (cache st) (queries st) (stdout st ++ [l]) (written st).
Definition add_edit (item : string) (data : list WDItemID) (st : state) : state :=
  MkState (ref_date st) (cache st) (queries st) (stdout st)
          (written st ++ [(item, data)]).

Inductive result (A : Type) : Type :=
  | Ok (a : A)
  | Raise (e : exn).
Arguments Ok {A} a.
Arguments Raise {A} e.

(** Statements that read and change the state and may raise. *)
Definition M (A : Type) : Type := state -> result A * state.

#[global] Instance M_ret : MRet M := fun A a st => (Ok a, st).
#[global] Instance M_bind : MBind M := fun A B f m st =>
  match m st with
  | (Ok a, st') => f a st'
  | (Raise e, st') => (Raise e, st')
  end.

Definition raise {A : Type} (e : exn) : M A := fun st => (Raise e, st).
Definition print (line : string) : M unit := fun st => (Ok tt, add_line line st).

(** ** The resolver (lines 64 to 72) *)

(** [s.rpartition('/')[2]]: what follows the last slash, all of [s] when
    there is none. *)
Fixpoint after_last_slash (l : list ascii) : list ascii :=
  match l with
  | [] => []
  | a :: l' =>
      if existsb (Ascii.eqb "/") l' then after_last_slash l'
      else if Ascii.eqb a "/" then l' else a :: l'
  end.

Definition item_id (uri : string) : string := str (after_last_slash (chars uri)).

(** The double quote character. *)
Definition dquote : string := String (ascii_of_nat 34) EmptyString.

Definition citation_query (citation : string) : string :=
  "SELECT * WHERE { ?item wdt:P1031 " +:+ dquote +:+ citation +:+ dquote
  +:+ " }".

(** The body of [query_legal_citation]: one query sent, the item id of
    each row returned. *)
Definition query_legal_citation_body (e : env) (citation : string)
  : M (list string) :=
  fun st =>
    let q := citation_query citation in
    let st' := add_query q st in
    match execute_sparql_query e q with
    | Some rows => (Ok (item_id <$> rows), st')
    | None => (Raise (QueryError q), st')
    end.

Fixpoint cache_get (k : string) (c : list (string * list string))
  : option (list string) :=
  match c with
  | [] => None
  | (k', v) :: c' => if decide (k' = k) then Some v else cache_get k c'
  end.

Definition cache_drop (k : string) (c : list (string * list string))
  : list (string * list string) :=
  filter (fun kv => kv.1 ≠ k) c.

(** [functools.lru_cache(maxsize)] around a function of one string: a
    hit returns the stored result and makes the entry the most recent
    one; a miss calls the function, stores its result as the most recent
    entry and, when the cache was full, drops the least recent one. A
    call that raises stores nothing. *)
Definition lru_cache (maxsize : nat) (f : string -> M (list string))
           (k : string) : M (list string) :=
  fun st =>
    match cache_get k (cache st) with
    | Some v => (Ok v, set_cache ((k, v) :: cache_drop k (cache st)) st)
    | None =>
        match f k st with
        | (Ok v, st') =>
            (Ok v, set_cache (take maxsize ((k, v) :: cache st')) st')
        | (Raise x, st') => (Raise x, st')
        end
    end.

Definition maxsize : nat := 2 ^ 15.

Definition query_legal_citation (e : env) : string -> M (list string) :=
  lru_cache maxsize (query_legal_citation_body e).

(** ** The run (lines 92 to 146) *)

Fixpoint join (sep : string) (l : list string) : string :=
  match l with
  | [] => EmptyString
  | [x] => x
  | x :: l' => x +:+ sep +:+ join sep l'
  end.

(** Lines 99 to 113. The title is read first: when the row has none, the
    handler runs before [ref_date] is assigned and reads the module-level
    variable as the previous rows left it. *)
Definition build_refs (e : env) (b : binding) : M (list (list wd_datum)) :=
  fun st =>
    let pdf := b_url b in
    let retrieved := WDTime (utcnow e) (PROPS "retrieved") is_reference in
    match b_title b with
    | Some ref_title =>
        let d := b_date b in
        (Ok [[WDUrl pdf (PROPS "ref_url") is_reference;
              WDMonolingualText ref_title (PROPS "title") "sv" is_reference;
              WDTime ("+" +:+ d) (PROPS "date") is_reference;
              retrieved]],
         set_ref_date d st)
    | None =>
        match ref_date st with
        | Some d =>
            (Ok [[WDUrl pdf (PROPS "ref_url") is_reference;
                  WDTime ("+" +:+ d) (PROPS "date") is_reference;
                  retrieved]],
             st)
        | None => (Raise (NameError "ref_date"), st)
        end
    end.

(** The statement of lines 138 and 139. *)
Definition cites_statement (target : string) (refs : list (list wd_datum))
           (pages : gset string) : WDItemID :=
  MkItemID target (PROPS "cites") refs
           ((fun page => WDString page (PROPS "page") is_qualifier)
              <$> elements pages).

Definition no_item_line (item citation : string) : string :=
  "Item " +:+ item +:+ ": Found no item with legal citation " +:+ citation
  +:+ ".".

(** Line 135: the list printed is read from [r], the rows of the
    discovery query. *)
Definition multiple_items_line (e : env) (item citation : string) : string :=
  "Item " +:+ item +:+ ": Found multiple items with legal citation "
  +:+ citation +:+ ": "
  +:+ join ", " ((fun bound => item_id (b_item bound)) <$> discovery e)
  +:+ ".".

(** Lines 129 to 139. *)
Fixpoint link_citations (e : env) (item : string)
         (refs : list (list wd_datum)) (citations : citation_map)
         (statements : list WDItemID) : M (list WDItemID) :=
  match citations with
  | [] => mret statements
  | (citation, pages) :: rest =>
      targets ← query_legal_citation e citation;
      match targets with
      | [] =>
          print (no_item_line item citation);;
          link_citations e item refs rest statements
      | [target] =>
          link_citations e item refs rest
            (statements ++ [cites_statement target refs pages])
      | _ :: _ :: _ =>
          print (multiple_items_line e item citation);;
          link_citations e item refs rest statements
      end
  end.

(** Lines 140 to 146. *)
Definition write_statements (e : env) (item : string)
           (statements : list WDItemID) : M unit :=
  match statements with
  | [] => mret tt
  | _ :: _ =>
      if write e item statements
      then fun st => (Ok tt, add_edit item statements st)
      else print ("Error when editing item " +:+ item);;
           raise (WriteError item)
  end.

(** The body of the loop over the rows (lines 95 to 146). *)
Definition process_decision (e : env) (b : binding) : M unit :=
  let item := item_id (b_item b) in
  let pdf := b_url b in
  refs ← build_refs e b;
  match requests_get e pdf with
  | None => print ("Error when fetching file for item " +:+ item)
  | Some content =>
      match extract_text e content with
      | None => print ("Error when parsing file for item " +:+ item)
      | Some text =>
          let citations := aggregate (citations_of_text text) in
          statements ← link_citations e item refs citations [];
          write_statements e item statements
      end
  end.

Fixpoint run_loop (e : env) (bs : list binding) : M unit :=
  match bs with
  | [] => mret tt
  | b :: rest => process_decision e b;; run_loop e rest
  end.

Definition run (e : env) : result unit * state :=
  run_loop e (discovery e) initial.

(** The pages one step of the aggregation adds for key [k]. *)
Definition new_pages (k : string) (c : citation) : gset string :=
  match c with
  | (k', Some p) =>
      if decide (k' = k ∧ p ≠ EmptyString) then {[p]} else ∅
  | (_, None) => ∅
  end.

(** ** What a pattern matches

    [mt r m c]: the pattern [r] matches exactly the characters [m], its
    groups capturing [c] (latest first). *)
Inductive mt : regex → list ascii → caps → Prop :=
  | mt_eps : mt Eps [] []
  | mt_chr p a : p a = true → mt (Chr p) [a] []
  | mt_seq r1 r2 m1 m2 c1 c2 :
      mt r1 m1 c1 → mt r2 m2 c2 → mt (Seq r1 r2) (m1 ++ m2) (c2 ++ c1)
  | mt_alt_l r1 r2 m c : mt r1 m c → mt (Alt r1 r2) m c
  | mt_alt_r r1 r2 m c : mt r2 m c → mt (Alt r1 r2) m c
  | mt_star_nil r : mt (Star r) [] []
  | mt_star_cons r m1 m2 c1 c2 :
      mt r m1 c1 → mt (Star r) m2 c2 → mt (Star r) (m1 ++ m2) (c2 ++ c1)
  | mt_group n r m c : mt r m c → mt (Group n r) m ((n, m) :: c).

(** The numbers of the groups of a pattern. *)
Fixpoint group_ids (r : regex) : list nat :=
  match r with
  | Eps | Chr _ => []
  | Seq r1 r2 | Alt r1 r2 => group_ids r1 ++ group_ids r2
  | Star r1 => group_ids r1
  | Group n r1 => n :: group_ids r1
  end.

(** The character tests of a pattern that matches character by
    character, [None] for any other pattern. *)
Fixpoint fixed (r : regex) : option (list (ascii → bool)) :=
  match r with
  | Eps => Some []
  | Chr p => Some [p]
  | Seq r1 r2 =>
      match fixed r1, fixed r2 with
      | Some p1, Some p2 => Some (p1 ++ p2)
      | _, _ => None
      end
  | Group _ r1 => fixed r1
  | Alt _ _ | Star _ => None
  end.

(** Character tests that the first characters of every match pass. *)
Fixpoint prefix_tests (r : regex) : list (ascii → bool) :=
  match r with
  | Chr p => [p]
  | Seq r1 r2 =>
      match fixed r1 with
      | Some p1 => p1 ++ prefix_tests r2
      | None => prefix_tests r1
      end
  | Group _ r1 => prefix_tests r1
  | Eps | Alt _ _ | Star _ => []
  end.

(** Whether some character test of the pattern accepts [a]. *)
Fixpoint accepts (r : regex) (a : ascii) : bool :=
  match r with
  | Eps => false
  | Chr p => p a
  | Seq r1 r2 | Alt r1 r2 => accepts r1 a || accepts r2 a
  | Star r1 | Group _ r1 => accepts r1 a
  end.

(** What the loop over the matches uses of a match found at a keyword:
    the pair it yields and the number of characters it passes over. *)
Definition yield_of (cite : re_match → citation) (m : option re_match)
  : option (citation * nat) :=
  (λ m, (cite m, length (group0 m))) <$> m.

(** Whether a text starts with a decimal digit. *)
Definition starts_with_digit (s : string) : bool :=
  match chars s with
  | a :: _ => is_digit a
  | [] => false
  end.

(** Whether a pattern matches the empty text. *)
Fixpoint nullable (r : regex) : bool :=
  match r with
  | Eps | Star _ => true
  | Chr _ => false
  | Seq r1 r2 => nullable r1 && nullable r2
  | Alt r1 r2 => nullable r1 || nullable r2
  | Group _ r1 => nullable r1
  end.

(** Whether no group of a pattern can capture the empty text. *)
Fixpoint groups_nonempty (r : regex) : bool :=
  match r with
  | Eps | Chr _ => true
  | Seq r1 r2 | Alt r1 r2 => groups_nonempty r1 && groups_nonempty r2
  | Star r1 => groups_nonempty r1
  | Group _ r1 => negb (nullable r1) && groups_nonempty r1
  end.

(** ** Reference notions for the properties *)

(** The answer of the knowledge base for a citation, as item ids:
    what [query_legal_citation] computes without its cache. *)
Definition resolve (e : env) (k : string) : option (list string) :=
  (λ rows : list string, item_id <$> rows)
    <$> execute_sparql_query e (citation_query k).

(** The statements one aggregated citation contributes. *)
Definition link_for (e : env) (refs : list (list wd_datum))
           (kp : string * gset string) : list WDItemID :=
  match resolve e kp.1 with
  | Some [target] => [cites_statement target refs kp.2]
  | _ => []
  end.

(** Every cached result is the answer of the knowledge base. *)
Definition cache_ok (e : env) (c : list (string * list string)) : Prop :=
  ∀ k v, cache_get k c = Some v → resolve e k = Some v.

(** ** Reference notions for the cache *)

(** The cached function for a cache of [n] entries. *)
Definition cached_query (n : nat) (e : env) : string → M (list string) :=
  lru_cache n (query_legal_citation_body e).

(** A sequence of calls, one key after the other. *)
Fixpoint calls (f : string → M (list string)) (ks : list string)
  : M (list (list string)) :=
  match ks with
  | [] => mret []
  | k :: ks' => v ← f k; vs ← calls f ks'; mret (v :: vs)
  end.

(** Using [k] makes it the most recent of the keys [l]. *)
Definition touch (k : string) (l : list string) : list string :=
  k :: filter (λ x, x ≠ k) l.

(** The distinct keys of a history of uses, the most recently used
    first. *)
Definition mru_from (l ks : list string) : list string :=
  foldl (λ l k, touch k l) l ks.
Definition mru (ks : list string) : list string := mru_from [] ks.

(** The keys of a cache are distinct and at most [n]. *)
Definition cache_wf (n : nat) (c : list (string * list string)) : Prop :=
  NoDup c.*1 ∧ length c ≤ n.

(** The keys other than [k] among [ks], as a set. *)
Definition other_keys (k : string) (ks : list string) : gset string :=
  list_to_set (filter (λ x, x ≠ k) ks).

(** Distinct keys to fill a cache with: "SOU 1:1", "SOU 1:11", ... *)
Definition filler (i : nat) : string :=
  str (chars "SOU 1:" ++ replicate (S i) "1"%char).
Definition fillers (n : nat) : list string := filler <$> seq 0 n.

(** ** Sample runs *)

Module Sample.
(** A run over the given rows in which every document is fetched, the
    text of a document is [texts] of its URL, the knowledge base
    answers [kb] and an edit succeeds when [edits] says so. *)
Definition scenario (rows : list binding) (texts : string → option string)
           (kb : string → option (list string))
           (edits : string → bool) : env :=
  MkEnv rows (λ url, Some url) texts kb (λ item _, edits item)
        "+2021-03-01T00:00:00Z".

Definition entity (id : string) : string :=
  "http://www.wikidata.org/entity/" +:+ id.

Definition titled : binding :=
  MkBinding (entity "Q10") "https://court.example/a.pdf"
            "2020-05-04T00:00:00Z" (Some "NJA 2020 s. 1").

Definition untitled : binding :=
  MkBinding (entity "Q11") "https://court.example/b.pdf"
            "2020-06-09T00:00:00Z" None.

Definition texts (url : string) : option string :=
  if decide (url = "https://court.example/a.pdf")
  then Some "Se NJA 2019 s. 45 och prop. 2005/06:55 s. 12 samt SOU 2001:5."
  else Some "Jfr NJA 2019 s. 45.".

(** One item carries the NJA citation, two carry the bill, none the
    report. *)
Definition kb (q : string) : option (list string) :=
  if decide (q = citation_query "NJA 2019 s. 45") then Some [entity "Q123"]
  else if decide (q = citation_query "Prop. 2005/06:55")
       then Some [entity "Q1"; entity "Q2"]
       else Some [].

(** The knowledge base cannot be reached for the bill. *)
Definition kb_down (q : string) : option (list string) :=
  if decide (q = citation_query "Prop. 2005/06:55") then None else kb q.

Definition always (b : bool) : string → bool := λ _, b.

(** Both rows, every edit accepted. *)
Definition env_ok : env := scenario [titled; untitled] texts kb (always true).
(** The row without a title comes first. *)
Definition env_untitled_first : env :=
  scenario [untitled; titled] texts kb (always true).
(** The knowledge base is down for one citation of the first row. *)
Definition env_kb_down : env :=
  scenario [titled; untitled] texts kb_down (always true).

(** The citations of the first document, aggregated. *)
Definition cites_a : citation_map :=
  aggregate (citations_of_text
    "Se NJA 2019 s. 45 och prop. 2005/06:55 s. 12 samt SOU 2001:5.").
End Sample.

(** ** Further reference notions *)

(** A statement of the kind the script writes: a "cites" statement whose
    target is the one item the knowledge base gives for some citation,
    qualified by pages only. *)
Definition linked (e : env) (s : WDItemID) : Prop :=
  prop_nr s = "P2860"
  ∧ (∃ k, resolve e k = Some [value s])
  ∧ Forall (λ q, q = WDString (datum_value q) "P304" is_qualifier)
           (qualifiers s).

(** The item ids of the rows, in the order of the discovery query. *)
Definition row_items (bs : list binding) : list string :=
  (λ b, item_id (b_item b)) <$> bs.

(** The line printed for one aggregated citation: none when it resolves
    to one item. *)
Definition notice_for (e : env) (item : string) (kp : string * gset string)
  : list string :=
  match resolve e kp.1 with
  | Some [] => [no_item_line item kp.1]
  | Some (_ :: _ :: _) => [multiple_items_line e item kp.1]
  | _ => []
  end.

Module Outage.
(** No document can be fetched. *)
Definition env_offline : env :=
  MkEnv [Sample.titled; Sample.untitled] (λ _, None) Sample.texts Sample.kb
        (λ _ _, true) "+2021-03-01T00:00:00Z".
(** Every document is fetched, none can be read. *)
Definition env_unreadable : env :=
  Sample.scenario [Sample.titled; Sample.untitled] (λ _, None) Sample.kb
                  (Sample.always true).
End Outage.

(** The distinct elements of a list, each at the place of its first
    occurrence. *)
Fixpoint first_occurrences (l : list string) : list string :=
  match l with
  | [] => []
  | k :: l' => k :: filter (λ x, x ≠ k) (first_occurrences l')
  end.

(** The sub-patterns that the groups numbered [n] of a pattern enclose. *)
Fixpoint group_bodies (n : nat) (r : regex) : list regex :=
  match r with
  | Eps | Chr _ => []
  | Seq r1 r2 | Alt r1 r2 => group_bodies n r1 ++ group_bodies n r2
  | Star r1 => group_bodies n r1
  | Group m r1 => (if Nat.eqb m n then [r1] else []) ++ group_bodies n r1
  end.

(** Every run of whitespace replaced by one space; [in_run] tells that
    the character before was whitespace. *)
Fixpoint squeeze (in_run : bool) (l : list ascii) : list ascii :=
  match l with
  | [] => []
  | a :: l' =>
      if is_space a
      then if in_run then squeeze true l' else " "%char :: squeeze true l'
      else a :: squeeze false l'
  end.

(** The length of the run of whitespace a text starts with. *)
Fixpoint run_length (l : list ascii) : nat :=
  match l with
  | a :: l' => if is_space a then S (run_length l') else 0
  | [] => 0
  end.

Definition starts_with_space (l : list ascii) : bool :=
  match l with
  | a :: _ => is_space a
  | [] => false
  end.

(** The only whitespace of a text is the plain space, never two in a
    row. *)
Fixpoint single_spaced (l : list ascii) : bool :=
  match l with
  | [] => true
  | a :: l' =>
      (if is_space a then Ascii.eqb a " " && negb (starts_with_space l')
       else true)
      && single_spaced l'
  end.

(** The prefixes the keys of the five families start with. *)
Definition family_prefixes : list string :=
  ["NJA "; "Prop. "; "SOU "; "bet. "; "Mot. "].

(** The citations of a row that are looked up: the keys aggregated from
    the text of its document, none when the document cannot be fetched
    or read. *)
Definition row_keys (e : env) (b : binding) : list string :=
  match requests_get e (b_url b) with
  | Some content =>
      match extract_text e content with
      | Some text => (aggregate (citations_of_text text)).*1
      | None => []
      end
  | None => []
  end.

(** A non-empty run of whitespace. *)
Definition blank (w : list ascii) : bool :=
  match w with
  | [] => false
  | _ :: _ => forallb is_space w
  end.

(** A non-empty run of decimal digits. *)
Definition number (l : list ascii) : bool :=
  match l with
  | [] => false
  | _ :: _ => forallb is_digit l
  end.

(** What may follow the page of an NJA citation for the citation to end
    there: no further digit, and after any whitespace neither "I" nor
    "V". *)
Definition ends_citation (post : list ascii) : bool :=
  match post with
  | a :: _ => negb (is_digit a)
  | [] => true
  end
  && match drop (run_length post) post with
     | a :: _ => negb (Ascii.eqb "I" a) && negb (Ascii.eqb "V" a)
     | [] => true
     end.

(** No digit comes next. *)
Definition no_digit_next (post : list ascii) : bool :=
  match post with
  | a :: _ => negb (is_digit a)
  | [] => true
  end.

(** * Properties *)

(** ** The aggregated map *)

Section Aggregation.
Implicit Types (d : citation_map) (k p : string).

Lemma dict_get_is_Some d k : is_Some (dict_get k d) ↔ k ∈ d.*1.
Proof.
  induction d as [|[k' s] d IH]; simpl.
  - split; [intros [? ?]; discriminate | intros H; inversion H].
  - case_decide as E; subst.
    + split; [intros _; left | intros _; eauto].
    + rewrite IH. split; [intros H; by right | intros H].
      inversion H; subst; [congruence | done].
Qed.

Lemma dict_get_touch d k k' :
  dict_get k (dict_touch k' d)
  = if decide (k' = k) then Some (default ∅ (dict_get k d))
    else dict_get k d.
Proof.
  induction d as [|[k0 s] d IH]; simpl.
  - repeat case_decide; congruence.
  - repeat (case_decide; simpl; subst); try congruence.
Qed.

Lemma dict_get_add d k k' p :
  dict_get k (dict_add k' p d)
  = if decide (k' = k) then Some ({[p]} ∪ default ∅ (dict_get k d))
    else dict_get k d.
Proof.
  induction d as [|[k0 s] d IH]; simpl.
  - repeat case_decide; try congruence. by rewrite (right_id_L ∅ (∪)).
  - repeat (case_decide; simpl; subst); try congruence.
Qed.

Lemma keys_touch d k :
  (dict_touch k d).*1 = if decide (k ∈ d.*1) then d.*1 else d.*1 ++ [k].
Proof.
  induction d as [|[k0 s] d IH]; [done|].
  cbn [dict_touch dict_add].
  destruct (decide (k0 = k)) as [->|E0]; rewrite !fmap_cons; cbn [fst].
  - rewrite decide_True; [done | left].
  - rewrite IH. destruct (decide (k ∈ d.*1)) as [i|n].
    + rewrite decide_True; [done | by right].
    + rewrite decide_False; [done |].
      intros H; inversion H; subst; congruence.
Qed.

Lemma keys_add d k p :
  (dict_add k p d).*1 = if decide (k ∈ d.*1) then d.*1 else d.*1 ++ [k].
Proof.
  induction d as [|[k0 s] d IH]; [done|].
  cbn [dict_touch dict_add].
  destruct (decide (k0 = k)) as [->|E0]; rewrite !fmap_cons; cbn [fst].
  - rewrite decide_True; [done | left].
  - rewrite IH. destruct (decide (k ∈ d.*1)) as [i|n].
    + rewrite decide_True; [done | by right].
    + rewrite decide_False; [done |].
      intros H; inversion H; subst; congruence.
Qed.

Lemma keys_step d (c : citation) :
  (aggregate_step d c).*1
  = if decide (c.1 ∈ d.*1) then d.*1 else d.*1 ++ [c.1].
Proof.
  destruct c as [k [p|]]; simpl; [case_match|];
    auto using keys_touch, keys_add.
Qed.

Lemma dict_get_step d (c : citation) k :
  dict_get k (aggregate_step d c)
  = if decide (c.1 = k)
    then Some (new_pages k c ∪ default ∅ (dict_get k d))
    else dict_get k d.
Proof.
  destruct c as [k' [p|]]; simpl.
  - destruct (decide (p = EmptyString)) as [->|Hp].
    + rewrite bool_decide_eq_true_2 by done. simpl.
      rewrite dict_get_touch. case_decide; [|done].
      rewrite decide_False by tauto. by rewrite (left_id_L ∅ (∪)).
    + rewrite bool_decide_eq_false_2 by done. simpl.
      rewrite dict_get_add. case_decide; [|done].
      by rewrite decide_True.
  - rewrite dict_get_touch. case_decide; [|done].
    by rewrite (left_id_L ∅ (∪)).
Qed.

Lemma fold_keys_NoDup pairs d :
  NoDup d.*1 → NoDup (fold_left aggregate_step pairs d).*1.
Proof.
  revert d. induction pairs as [|c pairs IH]; intros d Hd; simpl; [done|].
  apply IH. rewrite keys_step. case_decide as E; [done|].
  apply NoDup_app. split_and!; [done | | apply NoDup_singleton].
  intros x Hx Hx'. apply list_elem_of_singleton in Hx'. by subst.
Qed.

Lemma fold_keys pairs d k :
  k ∈ (fold_left aggregate_step pairs d).*1 ↔ k ∈ d.*1 ∨ k ∈ pairs.*1.
Proof.
  revert d. induction pairs as [|c pairs IH]; intros d; simpl.
  - split; [by left | intros [H|H]; [done | inversion H]].
  - rewrite IH, keys_step. case_decide as E.
    + rewrite elem_of_cons. split; [tauto|].
      intros [?|[->|?]]; tauto.
    + rewrite elem_of_app, list_elem_of_singleton, elem_of_cons.
      tauto.
Qed.

Lemma fold_pages pairs d k p :
  p ∈ default ∅ (dict_get k (fold_left aggregate_step pairs d))
  ↔ p ∈ default ∅ (dict_get k d)
    ∨ ((k, Some p) ∈ pairs ∧ p ≠ EmptyString).
Proof.
  revert d. induction pairs as [|c pairs IH]; intros d; simpl.
  - split; [by left | intros [H|[H _]]; [done | inversion H]].
  - rewrite IH, dict_get_step, elem_of_cons. case_decide as E; simpl.
    + rewrite elem_of_union. destruct c as [k' [q|]]; simpl in *; subst.
      * case_decide as E'.
        -- rewrite elem_of_singleton. split.
           ++ intros [[->|?]|?]; [right; split; [by left | tauto] | tauto..].
           ++ intros [?|[[H|?] ?]]; [tauto | | tauto].
              simplify_eq. tauto.
        -- split; [intros [[H|?]|?]; [by apply not_elem_of_empty in H | tauto..]|].
        intros [?|[[H|?] ?]]; [tauto | | tauto].
           simplify_eq. tauto.
      * split; [intros [[H|?]|?]; [by apply not_elem_of_empty in H | tauto..]|].
        intros [?|[[H|?] ?]]; [tauto | | tauto].
        discriminate.
    + split; [tauto|]. intros [?|[[H|?] ?]]; [tauto | | tauto].
      subst c. by simpl in E.
Qed.
End Aggregation.

(** ** The state monad *)

Lemma bind_ok {A B : Type} (m : M A) (f : A → M B) st a st' :
  m st = (Ok a, st') → (m ≫= f) st = f a st'.
Proof. unfold mbind, M_bind. by intros ->. Qed.

Lemma bind_raise {A B : Type} (m : M A) (f : A → M B) st x st' :
  m st = (Raise x, st') → (m ≫= f) st = (Raise x, st').
Proof. unfold mbind, M_bind. by intros ->. Qed.

(** An exception raised while a row is processed ends the loop: no
    later row is looked at. *)
Lemma run_loop_raise e b rest st x st' :
  process_decision e b st = (Raise x, st') →
  run_loop e (b :: rest) st = (Raise x, st').
Proof. intros H. simpl. by apply bind_raise. Qed.

Lemma run_loop_ok e b rest st st' :
  process_decision e b st = (Ok tt, st') →
  run_loop e (b :: rest) st = run_loop e rest st'.
Proof. intros H. simpl. by rewrite (bind_ok _ _ _ _ _ H). Qed.

(** ** The cache *)

Section Cache.
Implicit Types (c : list (string * list string)) (k : string).

Lemma cache_get_drop c k k' :
  cache_get k' (cache_drop k c)
  = if decide (k = k') then None else cache_get k' c.
Proof.
  unfold cache_drop. induction c as [|[k0 v] c IH]; simpl.
  - by case_decide.
  - rewrite filter_cons. simpl. destruct (decide (k0 ≠ k)) as [Hne|Heq].
    + simpl. rewrite IH. repeat case_decide; congruence.
    + apply dec_stable in Heq as ->. rewrite IH.
      repeat case_decide; congruence.
Qed.

Lemma cache_get_take c k n v :
  cache_get k (take n c) = Some v → cache_get k c = Some v.
Proof.
  revert n. induction c as [|[k0 v0] c IH]; intros [|n]; simpl; try done.
  case_decide; [done | apply IH].
Qed.

Lemma cache_ok_hit e c k v :
  cache_ok e c → cache_get k c = Some v →
  cache_ok e ((k, v) :: cache_drop k c).
Proof.
  intros Hc Hk k' v'. simpl. case_decide as E.
  - intros [= <-]. subst. by apply Hc.
  - rewrite cache_get_drop, decide_False by done. apply Hc.
Qed.

Lemma cache_ok_miss e c k v n :
  cache_ok e c → resolve e k = Some v →
  cache_ok e (take n ((k, v) :: c)).
Proof.
  intros Hc Hk k' v' H. apply cache_get_take in H. simpl in H.
  case_decide; [by simplify_eq | by apply Hc].
Qed.

(** A call of the cached function whose query the knowledge base
    answers returns that answer, cached or not, and prints nothing. *)
Lemma lru_cache_ok n e k v st :
  cache_ok e (cache st) → resolve e k = Some v →
  ∃ st', lru_cache n (query_legal_citation_body e) k st = (Ok v, st')
         ∧ cache_ok e (cache st')
         ∧ stdout st' = stdout st ∧ written st' = written st
         ∧ ref_date st' = ref_date st.
Proof.
  intros Hc Hk. unfold lru_cache.
  destruct (cache_get k (cache st)) as [v'|] eqn:Hget.
  - assert (v' = v) as -> by (apply Hc in Hget; congruence).
    eexists. split; [reflexivity|]. simpl. split_and!; try done.
    by apply cache_ok_hit.
  - unfold query_legal_citation_body. pose proof Hk as Hk'.
    unfold resolve in Hk'.
    destruct (execute_sparql_query e (citation_query k)) as [rows|];
      [|done]. simpl in Hk'. injection Hk' as <-.
    eexists. split; [reflexivity|]. simpl. split_and!; try done.
    by apply cache_ok_miss.
Qed.

Lemma query_legal_citation_ok e k v st :
  cache_ok e (cache st) → resolve e k = Some v →
  ∃ st', query_legal_citation e k st = (Ok v, st')
         ∧ cache_ok e (cache st')
         ∧ stdout st' = stdout st ∧ written st' = written st
         ∧ ref_date st' = ref_date st.
Proof. apply lru_cache_ok. Qed.
End Cache.

(** ** Resolving the aggregated citations *)

Lemma print_bind {B : Type} (line : string) (f : unit → M B) st :
  (print line ≫= f) st = f tt (add_line line st).
Proof. reflexivity. Qed.

Lemma link_citations_cons e item refs k pages rest stmts st targets st1 :
  query_legal_citation e k st = (Ok targets, st1) →
  link_citations e item refs ((k, pages) :: rest) stmts st
  = match targets with
    | [] => link_citations e item refs rest stmts
              (add_line (no_item_line item k) st1)
    | [target] => link_citations e item refs rest
                    (stmts ++ [cites_statement target refs pages]) st1
    | _ :: _ :: _ => link_citations e item refs rest stmts
                       (add_line (multiple_items_line e item k) st1)
    end.
Proof.
  intros H. cbn [link_citations]. rewrite (bind_ok _ _ _ _ _ H).
  by destruct targets as [|? [|? ?]].
Qed.

Lemma link_citations_fail e item refs k pages rest stmts st x st1 :
  query_legal_citation e k st = (Raise x, st1) →
  link_citations e item refs ((k, pages) :: rest) stmts st = (Raise x, st1).
Proof. intros H. cbn [link_citations]. by apply bind_raise. Qed.

Lemma link_citations_app e item refs cs1 cs2 stmts st stmts' st' :
  link_citations e item refs cs1 stmts st = (Ok stmts', st') →
  link_citations e item refs (cs1 ++ cs2) stmts st
  = link_citations e item refs cs2 stmts' st'.
Proof.
  revert stmts st. induction cs1 as [|[k pages] cs1 IH]; intros stmts st H.
  - by injection H as -> ->.
  - rewrite <- app_comm_cons.
    destruct (query_legal_citation e k st) as [[targets|x] st1] eqn:Hq.
    + rewrite (link_citations_cons _ _ _ _ _ _ _ _ _ _ Hq) in H.
      rewrite (link_citations_cons _ _ _ _ _ _ _ _ _ _ Hq).
      destruct targets as [|? [|? ?]]; by apply IH.
    + by rewrite (link_citations_fail _ _ _ _ _ _ _ _ _ _ Hq) in H.
Qed.

Lemma link_citations_ok e item refs cs stmts st :
  cache_ok e (cache st) →
  (∀ k, k ∈ cs.*1 → is_Some (resolve e k)) →
  ∃ st', link_citations e item refs cs stmts st
         = (Ok (stmts ++ (cs ≫= link_for e refs)), st')
         ∧ cache_ok e (cache st') ∧ written st' = written st.
Proof.
  revert stmts st. induction cs as [|[k pages] cs IH]; intros stmts st Hc Hk.
  - exists st. by rewrite app_nil_r.
  - destruct (Hk k) as [targets Ht]; [left|].
    destruct (query_legal_citation_ok e k targets st Hc Ht)
      as (st1 & Hq & Hc1 & _ & Hw1 & _).
    rewrite (link_citations_cons _ _ _ _ _ _ _ _ _ _ Hq).
    assert (Hk' : ∀ k', k' ∈ cs.*1 → is_Some (resolve e k'))
      by (intros ? ?; apply Hk; by right).
    rewrite bind_cons. unfold link_for at 1. cbn [fst snd]. rewrite Ht.
    destruct targets as [|t [|t' ts]].
    + destruct (IH stmts (add_line (no_item_line item k) st1))
        as (st' & -> & ? & ?); [done..|]. exists st'. by rewrite <- Hw1.
    + destruct (IH (stmts ++ [cites_statement t refs pages]) st1)
        as (st' & -> & ? & ?); [done..|].
      exists st'. rewrite <- (assoc_L (++)). by rewrite <- Hw1.
    + destruct (IH stmts (add_line (multiple_items_line e item k) st1))
        as (st' & -> & ? & ?); [done..|]. exists st'. by rewrite <- Hw1.
Qed.

Lemma cites_statement_pages target refs pages :
  value (cites_statement target refs pages) = target
  ∧ NoDup (datum_value <$> qualifiers (cites_statement target refs pages))
  ∧ list_to_set (datum_value <$> qualifiers (cites_statement target refs pages))
    = pages.
Proof.
  unfold cites_statement. cbn [value qualifiers].
  rewrite <- list_fmap_compose.
  assert (E : datum_value ∘ (λ page, WDString page (PROPS "page") is_qualifier)
              = id) by done.
  rewrite E, list_fmap_id.
  split_and!; [done | apply NoDup_elements | apply list_to_set_elements_L].
Qed.

(** C1. With every lookup answered, the statements built for a decision
    are, key after key of the aggregated map, none when the resolver
    gives no candidate or more than one, and exactly one when it gives
    exactly one: its target is that candidate and its page qualifiers are
    exactly the pages aggregated for the key. *)
Theorem link_citations_cardinality e item refs (citations : citation_map) st :
  cache_ok e (cache st) →
  (∀ k, k ∈ citations.*1 → is_Some (resolve e k)) →
  (∃ st', link_citations e item refs citations [] st
          = (Ok (citations ≫= link_for e refs), st'))
  ∧ (∀ k pages targets, resolve e k = Some targets →
       match targets with
       | [target] =>
           ∃ s, link_for e refs (k, pages) = [s]
                ∧ value s = target
                ∧ NoDup (datum_value <$> qualifiers s)
                ∧ list_to_set (datum_value <$> qualifiers s) = pages
       | _ => link_for e refs (k, pages) = []
       end).
Proof.
  intros Hc Hk. split.
  - destruct (link_citations_ok e item refs citations [] st Hc Hk)
      as (st' & H & _). by exists st'.
  - intros k pages targets Ht. unfold link_for. cbn [fst snd]. rewrite Ht.
    destruct targets as [|t [|t' ts]]; [done | | done].
    exists (cites_statement t refs pages).
    split; [done | apply cites_statement_pages].
Qed.

Lemma cache_ok_initial e : cache_ok e (cache initial).
Proof. intros k v H. discriminate H. Defined.

Lemma sample_kb_answers k : is_Some (resolve Sample.env_ok k).
Proof.
  unfold resolve. cbn. unfold Sample.kb.
  repeat case_decide; cbn; eauto.
Defined.

Lemma link_citations_cardinality_sample :
  (∃ st', link_citations Sample.env_ok "Q10" [] Sample.cites_a [] initial
          = (Ok (Sample.cites_a ≫= link_for Sample.env_ok []), st'))
  ∧ (∀ k pages targets, resolve Sample.env_ok k = Some targets →
       match targets with
       | [target] =>
           ∃ s, link_for Sample.env_ok [] (k, pages) = [s]
                ∧ value s = target
                ∧ NoDup (datum_value <$> qualifiers s)
                ∧ list_to_set (datum_value <$> qualifiers s) = pages
       | _ => link_for Sample.env_ok [] (k, pages) = []
       end).
Proof.
  apply (link_citations_cardinality Sample.env_ok "Q10" [] Sample.cites_a
           initial (cache_ok_initial _) (λ k _, sample_kb_answers k)).
Defined.

(** ** Failures *)


Lemma process_decision_link e b st refs st1 content text :
  build_refs e b st = (Ok refs, st1) →
  requests_get e (b_url b) = Some content →
  extract_text e content = Some text →
  process_decision e b st
  = (link_citations e (item_id (b_item b)) refs
       (aggregate (citations_of_text text)) []
     ≫= write_statements e (item_id (b_item b))) st1.
Proof.
  intros Hr Hg Hx. unfold process_decision.
  rewrite (bind_ok _ _ _ _ _ Hr). by rewrite Hg, Hx.
Qed.



(** C5, what the code does. The lookup of lines 129 and 130 stands in no
    try block, unlike the fetch, the parsing and the edit of the same
    loop: a lookup that fails is not caught. Nothing is printed for it,
    the remaining keys of the decision are not resolved, nothing is
    written for the decision, and the exception leaves the processing of
    the row and ends the loop. *)
Theorem lookup_failure_ends_run e b rest st refs st1 content text
        pre k pages post stmts st2 :
  build_refs e b st = (Ok refs, st1) →
  requests_get e (b_url b) = Some content →
  extract_text e content = Some text →
  aggregate (citations_of_text text) = pre ++ (k, pages) :: post →
  link_citations e (item_id (b_item b)) refs pre [] st1 = (Ok stmts, st2) →
  cache_get k (cache st2) = None →
  execute_sparql_query e (citation_query k) = None →
  run_loop e (b :: rest) st
  = (Raise (QueryError (citation_query k)),
     add_query (citation_query k) st2).
Proof.
  intros Hr Hg Hx Ha Hl Hc Hq. apply run_loop_raise.
  rewrite (process_decision_link _ _ _ _ _ _ _ Hr Hg Hx), Ha.
  apply bind_raise. rewrite (link_citations_app _ _ _ _ _ _ _ _ _ Hl).
  apply link_citations_fail.
  unfold query_legal_citation, lru_cache, query_legal_citation_body.
  by rewrite Hc, Hq.
Qed.

Lemma lookup_failure_ends_run_sample :
  ∃ st2,
    run_loop Sample.env_kb_down [Sample.titled; Sample.untitled] initial
    = (Raise (QueryError (citation_query "Prop. 2005/06:55")),
       add_query (citation_query "Prop. 2005/06:55") st2)
    ∧ (stdout st2 = []) ∧ (written st2 = []).
Proof.
  eexists. split.
  - eapply (lookup_failure_ends_run Sample.env_kb_down Sample.titled
             [Sample.untitled] initial _ _ _ _
             [("NJA 2019 s. 45", ∅)] "Prop. 2005/06:55" {["12"]}
             [("SOU 2001:5", ∅)]);
      [vm_compute; reflexivity | reflexivity | reflexivity
      | vm_compute; reflexivity | vm_compute; reflexivity
      | reflexivity | reflexivity].
  - split; reflexivity.
Defined.

(** C5, on the failing input: with the knowledge base down for one
    citation of the first row, the processing of that row raises, no
    line is printed, nothing is written and the second row is never
    reached, where the claim has the citation logged and skipped. *)
Lemma lookup_failure_escapes :
  process_decision Sample.env_kb_down Sample.titled initial
  = (Raise (QueryError (citation_query "Prop. 2005/06:55")),
     MkState (Some "2020-05-04T00:00:00Z")
             [("NJA 2019 s. 45", ["Q123"])]
             [citation_query "NJA 2019 s. 45";
              citation_query "Prop. 2005/06:55"]
             [] [])
  ∧ run Sample.env_kb_down
    = process_decision Sample.env_kb_down Sample.titled initial.
Proof. split; vm_compute; reflexivity. Qed.

(** ** The matcher against what a pattern matches *)

Section Matcher.
Context {A : Type}.
Implicit Types (r : regex) (s m : list ascii) (c : caps) (k : @cont A).

Lemma consumed_app m s : consumed (m ++ s) s = m.
Proof.
  unfold consumed. rewrite length_app.
  replace (length m + length s - length s) with (length m) by lia.
  by rewrite take_app_length.
Qed.

(** The iteration is sound as soon as its body is. *)
Lemma star_sound r (body : @matcher A) :
  (∀ s c k x, body s c k = Some x →
     ∃ m s' c', s = m ++ s' ∧ mt r m c' ∧ k s' (c' ++ c) = Some x) →
  ∀ fuel s c k x, star body fuel s c k = Some x →
    ∃ m s' c', s = m ++ s' ∧ mt (Star r) m c' ∧ k s' (c' ++ c) = Some x.
Proof.
  intros Hbody fuel.
  induction fuel as [|fuel IH]; intros s c k x H; simpl in H.
  - exists [], s, []. split_and!; [done | constructor | done].
  - destruct (body s c _) as [y|] eqn:Hb.
    + injection H as ->. apply Hbody in Hb as (m1 & s1 & c1 & -> & Hm1 & Hk).
      destruct (length s1 <? length (m1 ++ s1))%nat; [|done].
      apply IH in Hk as (m2 & s2 & c2 & -> & Hm2 & Hk).
      exists (m1 ++ m2), s2, (c2 ++ c1).
      rewrite <- !(assoc_L (++)). split_and!; [done | by constructor | done].
    + exists [], s, []. split_and!; [done | constructor | done].
Qed.

(** Whatever the matcher hands to the rest of the pattern is what is
    left after a match of [r], with the groups of that match added. *)
Lemma bt_sound r : ∀ s c k x,
  bt r s c k = Some x →
  ∃ m s' c', s = m ++ s' ∧ mt r m c' ∧ k s' (c' ++ c) = Some x.
Proof.
  induction r as [|p|r1 IH1 r2 IH2|r1 IH1 r2 IH2|r1 IH1|n r1 IH1];
    intros s c k x H; simpl in H.
  - exists [], s, []. split_and!; [done | constructor | done].
  - destruct s as [|a s]; [done|]. destruct (p a) eqn:Hp; [|done].
    exists [a], s, []. split_and!; [done | by constructor | done].
  - apply IH1 in H as (m1 & s1 & c1 & -> & Hm1 & H).
    apply IH2 in H as (m2 & s2 & c2 & -> & Hm2 & H).
    exists (m1 ++ m2), s2, (c2 ++ c1).
    rewrite <- !(assoc_L (++)). split_and!; [done | by constructor | done].
  - destruct (bt r1 s c k) as [y|] eqn:H1.
    + injection H as ->. apply IH1 in H1 as (m & s' & c' & -> & Hm & H).
      exists m, s', c'. split_and!; [done | by apply mt_alt_l | done].
    + apply IH2 in H as (m & s' & c' & -> & Hm & H).
      exists m, s', c'. split_and!; [done | by apply mt_alt_r | done].
  - by apply (star_sound r1 (bt r1) IH1) in H.
  - apply IH1 in H as (m & s' & c' & -> & Hm & H).
    rewrite consumed_app in H.
    exists m, s', ((n, m) :: c'). split_and!; [done | by constructor | done].
Qed.
End Matcher.

Lemma match_here_sound r s m :
  match_here r s = Some m →
  mt r (group0 m) (groups m) ∧ ∃ s', s = group0 m ++ s'.
Proof.
  unfold match_here. intros H.
  apply bt_sound in H as (m0 & s' & c' & -> & Hm & H).
  rewrite consumed_app, app_nil_r in H. injection H as <-. simpl. eauto.
Qed.

Lemma finditer_from_sound r m : ∀ skip s,
  m ∈ finditer_from r skip s → ∃ s', match_here r s' = Some m.
Proof.
  intros skip s. revert skip.
  induction s as [|a s IH]; intros skip H; simpl in H; [inversion H|].
  destruct skip as [|n]; [|by eapply IH].
  destruct (match_here r (a :: s)) as [m'|] eqn:Hm; [|by eapply IH].
  apply elem_of_cons in H as [->|H]; [eauto | by eapply IH].
Qed.

(** Every match [finditer] yields is a match of the pattern. *)
Lemma finditer_sound r s m :
  m ∈ finditer r s → mt r (group0 m) (groups m).
Proof.
  intros H. apply finditer_from_sound in H as [s' H].
  by apply match_here_sound in H as [? _].
Qed.

(** ** Shapes of matches *)

Lemma mt_group_ids r m c : mt r m c → Forall (λ g, g.1 ∈ group_ids r) c.
Proof.
  induction 1; simpl; try by constructor.
  - apply Forall_app. split; eapply Forall_impl; eauto; simpl;
      intros; apply elem_of_app; auto.
  - eapply Forall_impl; eauto; simpl; intros; apply elem_of_app; auto.
  - eapply Forall_impl; eauto; simpl; intros; apply elem_of_app; auto.
  - apply Forall_app. split; done.
  - constructor; [left|]. eapply Forall_impl; eauto. simpl. by right.
Qed.

Lemma group_skip n (c1 c2 : caps) :
  Forall (λ g, g.1 ≠ n) c1 → group n (c1 ++ c2) = group n c2.
Proof.
  induction 1 as [|[i g] c1 Hne _ IH]; simpl; [done|].
  simpl in Hne. by rewrite (proj2 (Nat.eqb_neq i n) Hne).
Qed.

Lemma mt_fixed r ps m c :
  fixed r = Some ps → mt r m c → Forall2 (λ p a, p a = true) ps m.
Proof.
  intros Hf Hm. revert ps Hf.
  induction Hm; intros ps Hf; simpl in Hf; simplify_eq; eauto.
  - destruct (fixed r1), (fixed r2); simplify_eq. apply Forall2_app; eauto.
Qed.

(** The first characters of a match pass the leading tests of the
    pattern. *)
Lemma mt_prefix r m c :
  mt r m c →
  ∃ m1 m2, m = m1 ++ m2 ∧ Forall2 (λ p a, p a = true) (prefix_tests r) m1.
Proof.
  induction 1 as [|p a Hp|r1 r2 m1 m2 c1 c2 H1 IH1 H2 IH2| | | | |];
    simpl; try by (eexists [], _; split; [reflexivity | constructor]).
  - exists [a], []. split; [done|]. by repeat constructor.
  - destruct (fixed r1) as [p1|] eqn:Hf.
    + destruct IH2 as (m21 & m22 & -> & Hp2).
      exists (m1 ++ m21), m22. split; [by rewrite (assoc_L (++))|].
      apply Forall2_app; [by eapply mt_fixed | done].
    + destruct IH1 as (m11 & m12 & -> & Hp1).
      exists m11, (m12 ++ m2). by rewrite (assoc_L (++)).
  - done.
Qed.

(** Every character of a match passes some test of the pattern. *)
Lemma mt_accepts r m c : mt r m c → Forall (λ a, accepts r a = true) m.
Proof.
  induction 1; simpl; try by constructor.
  - apply Forall_app. split; eapply Forall_impl; eauto; simpl;
      intros ? ->; by rewrite ?orb_true_r.
  - eapply Forall_impl; eauto; simpl; intros ? ->; by rewrite ?orb_true_r.
  - eapply Forall_impl; eauto; simpl; intros ? ->; by rewrite ?orb_true_r.
  - apply Forall_app. split; done.
  - done.
Qed.

Lemma mt_seq_inv r1 r2 m c :
  mt (Seq r1 r2) m c →
  ∃ m1 m2 c1 c2, m = m1 ++ m2 ∧ c = c2 ++ c1 ∧ mt r1 m1 c1 ∧ mt r2 m2 c2.
Proof. inversion 1; subst. eauto 10. Qed.

Lemma mt_group_inv n r m c :
  mt (Group n r) m c → ∃ c', c = (n, m) :: c' ∧ mt r m c'.
Proof. inversion 1; subst. eauto. Qed.

(** A pattern of the shape [(group 1)(page part)]: group 1 is what its
    sub-pattern matched. *)
Lemma mt_group1_then_page r m c :
  mt (Seq (Group 1 r) re_page) m c →
  ∃ g c', group 1 c = Some g ∧ mt r g c'.
Proof.
  intros H. apply mt_seq_inv in H as (m1 & m2 & c1 & c2 & -> & -> & H1 & H2).
  apply mt_group_inv in H1 as (c' & -> & H1).
  exists m1, c'. split; [|done].
  rewrite group_skip; [simpl; done|].
  apply mt_group_ids in H2. eapply Forall_impl; [exact H2|].
  intros g Hg. change (group_ids re_page) with [2] in Hg.
  apply list_elem_of_singleton in Hg. lia.
Qed.

Lemma str_chars (l : list ascii) : chars (str l) = l.
Proof. apply list_ascii_of_string_of_list_ascii. Qed.

(** [re.sub] of the whitespace pattern leaves a first character that is
    not whitespace where it is. *)
Lemma re_sub_ws_head (a : ascii) (l : list ascii) :
  is_space a = false →
  re_sub (Plus ws) " " (a :: l)
  = String a (str (sub_from (Plus ws) (chars " ") 0 l)).
Proof.
  intros Ha. unfold re_sub. cbn [sub_from].
  assert (match_here (Plus ws) (a :: l) = None) as ->; [|done].
  unfold match_here, Plus, ws. cbn [bt]. by rewrite Ha.
Qed.

Lemma eqb_true (a b : ascii) : Ascii.eqb a b = true → b = a.
Proof. intros H. by apply Ascii.eqb_eq in H. Qed.

(** The key of an NJA citation starts with a capital N. *)
Lemma nja_key_head text c :
  c ∈ nja_citations text → ∃ tail, c = (String "N" tail, None).
Proof.
  unfold nja_citations. intros H.
  apply list_elem_of_fmap in H as (m & -> & H).
  apply finditer_sound, mt_prefix in H as (m1 & m2 & Hm & Hp).
  change (prefix_tests re_NJA)
    with [Ascii.eqb "N"; Ascii.eqb "J"; Ascii.eqb "A"; is_space]%char in Hp.
  inversion Hp as [|p a ps l Ha _]; subst.
  apply eqb_true in Ha as ->. unfold nja_citation.
  rewrite Hm. cbn [app]. rewrite re_sub_ws_head by done. eauto.
Qed.



(** The pages aggregated for a key, in terms of the pairs. *)
Lemma aggregate_pages pairs k :
  k ∈ pairs.*1 →
  ∃ s, dict_get k (aggregate pairs) = Some s
       ∧ (∀ p, p ∈ s ↔ (k, Some p) ∈ pairs ∧ p ≠ EmptyString).
Proof.
  intros Hin. unfold aggregate.
  assert (is_Some (dict_get k (fold_left aggregate_step pairs []))) as [s Hs].
  { apply dict_get_is_Some, fold_keys. by right. }
  exists s. split; [done|]. intros p.
  pose proof (fold_pages pairs [] k p) as H. rewrite Hs in H. simpl in H.
  rewrite H. split; [intros [F|?]; [by apply not_elem_of_empty in F | done] | by right].
Qed.


(** ** Keywords and letter case *)

Section Natural.
Context {A B : Type} (g : A → B).

Lemma star_fmap (b1 : @matcher A) (b2 : @matcher B) :
  (∀ s c k1 k2, (∀ s' c', k2 s' c' = g <$> k1 s' c') →
     b2 s c k2 = g <$> b1 s c k1) →
  ∀ fuel s c k1 k2, (∀ s' c', k2 s' c' = g <$> k1 s' c') →
    star b2 fuel s c k2 = g <$> star b1 fuel s c k1.
Proof.
  intros Hb fuel. induction fuel as [|fuel IH]; intros s c k1 k2 Hk; simpl.
  - apply Hk.
  - rewrite (Hb s c (λ s' c', if (length s' <? length s)%nat
                              then star b1 fuel s' c' k1 else None)).
    + destruct (b1 s c _); simpl; [done | apply Hk].
    + intros s' c'. destruct (length s' <? length s)%nat; [|done].
      by apply IH.
Qed.

(** The matcher only looks at whether the rest of the pattern
    succeeds: a function applied to its result passes through. *)
Lemma bt_fmap r : ∀ s c (k1 : @cont A) (k2 : @cont B),
  (∀ s' c', k2 s' c' = g <$> k1 s' c') →
  bt r s c k2 = g <$> bt r s c k1.
Proof.
  induction r as [|p|r1 IH1 r2 IH2|r1 IH1 r2 IH2|r1 IH1|n r1 IH1];
    intros s c k1 k2 Hk; simpl.
  - apply Hk.
  - destruct s as [|a s]; [done|]. destruct (p a); [apply Hk | done].
  - apply IH1. intros s' c'. by apply IH2.
  - rewrite (IH1 s c k1 k2 Hk), (IH2 s c k1 k2 Hk).
    by destruct (bt r1 s c k1).
  - by apply star_fmap.
  - apply IH1. intros s' c'. apply Hk.
Qed.
End Natural.

(** A pattern that starts with a test both [a] and [b] pass yields the
    same groups and passes over as many characters at [a :: rest] as at
    [b :: rest]. *)
Lemma match_here_first_char (p : ascii → bool) r a b rest :
  p a = true → p b = true →
  (λ m, (groups m, length (group0 m))) <$> match_here (Seq (Chr p) r) (a :: rest)
  = (λ m, (groups m, length (group0 m))) <$> match_here (Seq (Chr p) r) (b :: rest).
Proof.
  intros Ha Hb. unfold match_here. cbn [bt]. rewrite Ha, Hb.
  set (k0 := λ (s' : list ascii) (c : caps), Some (s', c)).
  rewrite (bt_fmap (λ sc, MkMatch (consumed (a :: rest) sc.1) sc.2)
             r rest [] k0) by done.
  rewrite (bt_fmap (λ sc, MkMatch (consumed (b :: rest) sc.1) sc.2)
             r rest [] k0) by done.
  destruct (bt r rest [] k0) as [[s' c]|]; [|done]. simpl.
  unfold consumed. by rewrite !length_take.
Qed.

Lemma yield_of_groups cite m1 m2 :
  (∀ x y : re_match, groups x = groups y → cite x = cite y) →
  (λ m, (groups m, length (group0 m))) <$> m1
  = (λ m, (groups m, length (group0 m))) <$> m2 →
  yield_of cite m1 = yield_of cite m2.
Proof.
  intros Hc. unfold yield_of.
  destruct m1 as [x|], m2 as [y|]; simpl; try done.
  intros [= Hg Hl]. by rewrite (Hc x y Hg), Hl.
Qed.

Lemma match_here_prefix r s m :
  match_here r s = Some m →
  ∃ m1 rest, s = m1 ++ rest ∧ Forall2 (λ p a, p a = true) (prefix_tests r) m1.
Proof.
  intros H. apply match_here_sound in H as (Hm & s' & ->).
  apply mt_prefix in Hm as (m1 & m2 & -> & Hp).
  exists m1, (m2 ++ s'). by rewrite (assoc_L (++)).
Qed.

Lemma one_of_two (x y a : ascii) :
  existsb (Ascii.eqb a) [x; y] = true → a = x ∨ a = y.
Proof.
  simpl. rewrite orb_false_r. intros H. apply orb_true_iff in H as [H|H];
    apply Ascii.eqb_eq in H; auto.
Qed.

Ltac keyword_letters H :=
  repeat match type of H with
         | Forall2 _ (_ :: _) _ =>
             let Ha := fresh "Ha" in
             let H' := fresh "H" in
             inversion H as [|? ? ? ? Ha H']; subst; clear H; rename H' into H;
             first [apply eqb_true in Ha | apply one_of_two in Ha]
         end.

(** ** Provenance of a row without title *)

(** C4, what the code does. The handler of a row without title reads
    [ref_date], which the row has not assigned yet: on the first row of a
    run the variable is unbound and the run ends with a NameError; later
    the reference carries the date of the last row that had a title. *)
Theorem untitled_row_reads_ref_date e b rest st :
  b_title b = None →
  match ref_date st with
  | None => run_loop e (b :: rest) st = (Raise (NameError "ref_date"), st)
  | Some d =>
      build_refs e b st
      = (Ok [[WDUrl (b_url b) (PROPS "ref_url") is_reference;
              WDTime ("+" +:+ d) (PROPS "date") is_reference;
              WDTime (utcnow e) (PROPS "retrieved") is_reference]], st)
  end.
Proof.
  intros Ht. destruct (ref_date st) as [d|] eqn:Hd.
  - unfold build_refs. by rewrite Ht, Hd.
  - apply run_loop_raise. unfold process_decision. apply bind_raise.
    unfold build_refs. by rewrite Ht, Hd.
Qed.

Lemma untitled_row_first :
  run Sample.env_untitled_first = (Raise (NameError "ref_date"), initial).
Proof.
  exact (untitled_row_reads_ref_date Sample.env_untitled_first
           Sample.untitled [Sample.titled] initial eq_refl).
Defined.

(** ** The line printed for an ambiguous citation *)

(** C6, what the code does. The bill resolves to Q1 and Q2; the line
    printed for it lists Q10 and Q11, the decisions of the discovery
    query, and no statement is built for the bill. *)
Theorem ambiguity_line_lists_decisions :
  resolve Sample.env_ok "Prop. 2005/06:55" = Some ["Q1"; "Q2"]
  ∧ stdout (run Sample.env_ok).2
    = ["Item Q10: Found multiple items with legal citation Prop. 2005/06:55: Q10, Q11.";
       "Item Q10: Found no item with legal citation SOU 2001:5."]
  ∧ (λ edit : string * list WDItemID, (edit.1, value <$> edit.2))
      <$> written (run Sample.env_ok).2
    = [("Q10", ["Q123"]); ("Q11", ["Q123"])].
Proof. split_and!; vm_compute; reflexivity. Qed.

(** ** The cache as a list of recently used keys *)

Section Recency.
Implicit Types (l ks : list string) (k : string)
         (c : list (string * list string)).

Lemma touch_NoDup k l : NoDup l → NoDup (touch k l).
Proof.
  intros Hl. apply NoDup_cons. split; [|by apply NoDup_filter].
  rewrite list_elem_of_filter. tauto.
Qed.

Lemma filter_ne_id k l : k ∉ l → filter (λ x, x ≠ k) l = l.
Proof.
  induction l as [|x l IH]; [done|]. rewrite not_elem_of_cons.
  intros [Hx Hl]. rewrite filter_cons_True by congruence. by rewrite IH.
Qed.

(** Truncating before a use or after it leaves the same [n] most
    recent keys. *)
Lemma take_filter_take k n l :
  NoDup l →
  take n (filter (λ x, x ≠ k) (take (S n) l))
  = take n (filter (λ x, x ≠ k) l).
Proof.
  intros Hl. revert n. induction Hl as [|x l Hx Hl IH]; intros n; [done|].
  cbn [take]. destruct (decide (x = k)) as [->|Hne].
  - rewrite !filter_cons_False by tauto.
    rewrite !filter_ne_id; [by rewrite take_take, Nat.min_id | done |].
    intros H. by apply subseteq_take in H.
  - rewrite !filter_cons_True by done.
    destruct n as [|n]; [done|]. cbn [take]. by rewrite IH.
Qed.

Lemma take_touch_take k n l :
  NoDup l → take n (touch k (take n l)) = take n (touch k l).
Proof.
  intros Hl. destruct n as [|n]; [done|]. unfold touch. cbn [take].
  f_equal. destruct (decide (k ∈ take (S n) l)) as [Hin|Hout].
  - by apply take_filter_take.
  - rewrite (filter_ne_id k (take (S n) l)) by done.
    rewrite take_take, Nat.min_l by lia.
    revert n Hout. induction Hl as [|x l Hx Hl IH]; intros n Hout; [done|].
    cbn [take] in Hout. apply not_elem_of_cons in Hout as [Hne Hout].
    rewrite filter_cons_True by done. destruct n as [|n]; [done|].
    cbn [take]. f_equal. by apply IH.
Qed.

Lemma mru_from_NoDup ks : ∀ l, NoDup l → NoDup (mru_from l ks).
Proof.
  unfold mru_from. induction ks as [|k ks IH]; intros l Hl; [done|].
  simpl. by apply IH, touch_NoDup.
Qed.

(** A key used once stays among the [n] most recent ones as long as
    fewer than [n] other keys are used after it. *)
Lemma mru_from_keeps k n ks : ∀ pre post,
  NoDup (pre ++ k :: post) →
  size (list_to_set pre ∪ other_keys k ks : gset string) < n →
  k ∈ take n (mru_from (pre ++ k :: post) ks).
Proof.
  unfold mru_from.
  induction ks as [|x ks IH]; intros pre post Hnd Hsize; simpl.
  - rewrite take_app_ge.
    + apply elem_of_app. right.
      destruct (n - length pre) as [|i] eqn:E; [|left].
      assert (length pre ≤ size (list_to_set pre : gset string)).
      { rewrite size_list_to_set; [done|]. by apply NoDup_app in Hnd as [? _]. }
      assert (size (list_to_set pre : gset string)
              ≤ size (list_to_set pre ∪ other_keys k [] : gset string))
        by apply subseteq_size, union_subseteq_l.
      lia.
    + assert (length pre ≤ size (list_to_set pre : gset string)).
      { rewrite size_list_to_set; [done|]. by apply NoDup_app in Hnd as [? _]. }
      assert (size (list_to_set pre : gset string)
              ≤ size (list_to_set pre ∪ other_keys k [] : gset string))
        by apply subseteq_size, union_subseteq_l.
      lia.
  - destruct (decide (x = k)) as [->|Hne].
    + apply (IH [] (filter (λ y, y ≠ k) (pre ++ k :: post))).
      * by apply (touch_NoDup k (pre ++ k :: post)).
      * eapply Nat.le_lt_trans; [|exact Hsize]. apply subseteq_size.
        unfold other_keys. rewrite filter_cons_False by tauto.
        apply union_mono_r, empty_subseteq.
    + unfold touch. rewrite filter_app, filter_cons_True by done.
      apply (IH (x :: filter (λ y, y ≠ x) pre) (filter (λ y, y ≠ x) post)).
      * change (NoDup (x :: (filter (λ y, y ≠ x) pre
                             ++ k :: filter (λ y, y ≠ x) post))).
        rewrite <- (filter_cons_True (λ y, y ≠ x) k post) by done.
        rewrite <- filter_app. by apply (touch_NoDup x (pre ++ k :: post)).
      * eapply Nat.le_lt_trans; [|exact Hsize]. apply subseteq_size.
        unfold other_keys. rewrite filter_cons_True by done.
        intros y. rewrite !elem_of_union, !elem_of_list_to_set,
          !elem_of_cons, !list_elem_of_filter. tauto.
Qed.
End Recency.

Section CachedCalls.
Variable n : nat.
Variable e : env.
Local Abbreviation f := (cached_query n e).
Implicit Types (k : string) (c : list (string * list string)) (st : state).

Lemma cache_get_None c k : cache_get k c = None ↔ k ∉ c.*1.
Proof.
  induction c as [|[k' v] c IH]; simpl.
  - split; [intros _ H; inversion H | done].
  - rewrite not_elem_of_cons. case_decide; [|rewrite IH]; split;
      try done; try tauto. intros [? _]. congruence.
Qed.

Lemma keys_cache_drop c k :
  (cache_drop k c).*1 = filter (λ x, x ≠ k) c.*1.
Proof.
  unfold cache_drop. induction c as [|[k' v] c IH]; [done|].
  rewrite fmap_cons. cbn [fst].
  destruct (decide (k' = k)) as [->|Hne].
  - rewrite !filter_cons_False by (simpl; tauto). apply IH.
  - rewrite !filter_cons_True by done. rewrite fmap_cons. by f_equal.
Qed.

(** One call that returns: the keys cached afterwards, and whether a
    query was sent. *)
Lemma lru_cache_step k st v st' :
  cache_wf n (cache st) →
  f k st = (Ok v, st') →
  (cache st').*1 = take n (touch k (cache st).*1)
  ∧ cache_wf n (cache st')
  ∧ queries st'
    = if decide (k ∈ (cache st).*1) then queries st
      else queries st ++ [citation_query k].
Proof.
  intros [Hnd Hlen] H. unfold cached_query, lru_cache in H.
  assert (Hwf : ∀ c', c'.*1 = take n (touch k (cache st).*1) → cache_wf n c').
  { intros c' Hc'. split.
    - rewrite Hc'. eapply sublist_NoDup; [|apply sublist_take].
      by apply touch_NoDup.
    - rewrite <- (length_fmap fst), Hc', length_take. lia. }
  destruct (cache_get k (cache st)) as [v0|] eqn:Hget.
  - injection H as <- <-. cbn [cache queries set_cache].
    assert (Hin : k ∈ (cache st).*1).
    { destruct (decide (k ∈ (cache st).*1)) as [?|Hn]; [done|].
      apply cache_get_None in Hn. congruence. }
    rewrite decide_True by done.
    assert (((k, v0) :: cache_drop k (cache st)).*1
            = take n (touch k (cache st).*1)) as Hk.
    { rewrite fmap_cons, keys_cache_drop. cbn [fst]. symmetry.
      apply take_ge. unfold touch. cbn [length].
      assert (Hk : ¬ (k ≠ k)) by tauto.
      pose proof (length_filter_lt (λ x, x ≠ k) (cache st).*1 k Hin Hk) as Hl.
      rewrite (length_fmap fst (cache st)) in Hl. lia. }
    split_and!; [done | by apply Hwf | done].
  - unfold query_legal_citation_body in H.
    destruct (execute_sparql_query e (citation_query k)) as [rows|];
      [|done]. injection H as <- <-. cbn [cache queries set_cache add_query].
    apply cache_get_None in Hget. rewrite decide_False by done.
    assert ((take n ((k, item_id <$> rows) :: cache st)).*1
            = take n (touch k (cache st).*1)) as Hk.
    { rewrite fmap_take, fmap_cons. cbn [fst]. unfold touch.
      by rewrite filter_ne_id. }
    split_and!; [done | by apply Hwf | done].
Qed.

(** A call never changes what the knowledge base is known to answer,
    and it only adds to the queries sent. *)
Lemma lru_cache_invariant k st :
  cache_ok e (cache st) →
  cache_ok e (cache (f k st).2) ∧ queries st `prefix_of` queries (f k st).2.
Proof.
  intros Hok. unfold cached_query, lru_cache.
  destruct (cache_get k (cache st)) as [v0|] eqn:Hget.
  - split; [by apply cache_ok_hit | done].
  - unfold query_legal_citation_body.
    destruct (execute_sparql_query e (citation_query k)) as [rows|] eqn:Hq;
      cbn [snd cache queries set_cache add_query].
    + split; [|by apply prefix_app_r].
      apply cache_ok_miss; [done|]. unfold resolve. by rewrite Hq.
    + split; [done | by apply prefix_app_r].
Qed.

(** The memoized function returns what its body returns. *)
Lemma lru_cache_same_result k st :
  cache_ok e (cache st) → (f k st).1 = (query_legal_citation_body e k st).1.
Proof.
  intros Hok. unfold cached_query, lru_cache.
  destruct (cache_get k (cache st)) as [v0|] eqn:Hget.
  - apply Hok in Hget. unfold resolve in Hget.
    unfold query_legal_citation_body.
    destruct (execute_sparql_query e (citation_query k)) as [rows|];
      simpl in Hget; [|done]. by injection Hget as <-.
  - by destruct (query_legal_citation_body e k st) as [[v|x] st'].
Qed.

Lemma calls_cons k ks st rs st' :
  calls f (k :: ks) st = (Ok rs, st') →
  ∃ v vs st1, f k st = (Ok v, st1) ∧ calls f ks st1 = (Ok vs, st')
              ∧ rs = v :: vs.
Proof.
  cbn [calls]. unfold mbind, M_bind at 1.
  destruct (f k st) as [[v|x] st1]; [|done].
  unfold M_bind. destruct (calls f ks st1) as [[vs|x] st2] eqn:Hc; [|done].
  intros [= <- <-]. by exists v, vs, st1.
Qed.

(** After a sequence of calls that all return, the cache holds the [n]
    most recently used keys. *)
Lemma calls_keys ks : ∀ st rs st' l,
  cache_wf n (cache st) → cache_ok e (cache st) → NoDup l →
  (cache st).*1 = take n l →
  calls f ks st = (Ok rs, st') →
  (cache st').*1 = take n (mru_from l ks)
  ∧ cache_wf n (cache st') ∧ cache_ok e (cache st')
  ∧ queries st `prefix_of` queries st'.
Proof.
  induction ks as [|k ks IH]; intros st rs st' l Hwf Hok Hl Hk H.
  - injection H as <- <-. done.
  - apply calls_cons in H as (v & vs & st1 & Hf & H & ->).
    destruct (lru_cache_step _ _ _ _ Hwf Hf) as (Hk1 & Hwf1 & _).
    destruct (lru_cache_invariant k st Hok) as [Hok1 Hq1].
    rewrite Hf in Hok1, Hq1. cbn [snd] in Hok1, Hq1.
    rewrite Hk, take_touch_take in Hk1 by done.
    destruct (IH st1 vs st' (touch k l) Hwf1 Hok1 (touch_NoDup _ _ Hl) Hk1 H)
      as (? & ? & ? & ?).
    split_and!; try done. by etrans.
Qed.

Lemma calls_total ks : ∀ st,
  cache_ok e (cache st) → (∀ k, k ∈ ks → is_Some (resolve e k)) →
  ∃ rs st', calls f ks st = (Ok rs, st').
Proof.
  induction ks as [|k ks IH]; intros st Hok Hks; [by eexists _, _|].
  destruct (Hks k) as [v Hv]; [left|].
  destruct (lru_cache_ok n e k v st Hok Hv) as (st1 & Hf & Hok1 & _).
  destruct (IH st1 Hok1) as (vs & st' & H); [intros; apply Hks; by right|].
  exists (v :: vs), st'. cbn [calls].
  rewrite (bind_ok _ _ _ _ _ Hf), (bind_ok _ _ _ _ _ H). done.
Qed.

(** Two calls with the same key, fewer than [n] other keys in between:
    the second sends no query and returns what the first returned. *)
Lemma second_call_hits k mid st rs st1 :
  cache_wf n (cache st) → cache_ok e (cache st) →
  calls f (k :: mid) st = (Ok rs, st1) →
  size (other_keys k mid) < n →
  ∃ v st2, f k st1 = (Ok v, st2) ∧ queries st2 = queries st1
           ∧ rs !! 0 = Some v.
Proof.
  intros Hwf Hok H Hsize.
  apply calls_cons in H as (v & vs & sta & Hf & H & ->).
  destruct (lru_cache_step _ _ _ _ Hwf Hf) as (Hka & Hwfa & _).
  destruct (lru_cache_invariant k st Hok) as [Hoka _].
  rewrite Hf in Hoka. cbn [snd] in Hoka.
  assert (Hnd : NoDup (touch k (cache st).*1))
    by (apply touch_NoDup, Hwf).
  destruct (calls_keys mid sta vs st1 _ Hwfa Hoka Hnd Hka H)
    as (Hk1 & Hwf1 & Hok1 & _).
  assert (Hin : k ∈ (cache st1).*1).
  { rewrite Hk1. apply (mru_from_keeps k n mid []); [done|].
    eapply Nat.le_lt_trans; [|exact Hsize].
    apply subseteq_size, union_least; [apply empty_subseteq | done]. }
  destruct (cache_get k (cache st1)) as [v'|] eqn:Hget;
    [|by apply cache_get_None in Hget].
  assert (v' = v) as ->.
  { apply Hok1 in Hget. pose proof (lru_cache_same_result k st Hok) as Hs.
    rewrite Hf in Hs. cbn [fst] in Hs. unfold resolve in Hget.
    unfold query_legal_citation_body in Hs.
    destruct (execute_sparql_query e (citation_query k)) as [rows|];
      simpl in Hget, Hs; [|done]. congruence. }
  eexists v, _. unfold cached_query, lru_cache. rewrite Hget. done.
Qed.

(** Keys never used before pile up in front of the older ones. *)
Lemma mru_from_fresh ks : ∀ l,
  NoDup ks → (∀ x, x ∈ ks → x ∉ l) → mru_from l ks = reverse ks ++ l.
Proof.
  unfold mru_from. induction ks as [|k ks IH]; intros l Hnd Hl; [done|].
  apply NoDup_cons in Hnd as [Hk Hnd]. cbn [foldl]. rewrite reverse_cons.
  rewrite IH; [|done|].
  - unfold touch. rewrite filter_ne_id by (apply Hl; left).
    by rewrite <- (assoc_L (++)).
  - intros x Hx. unfold touch. rewrite not_elem_of_cons. split.
    + intros ->. done.
    + rewrite list_elem_of_filter. intros [_ ?].
      by apply (Hl x); [right|].
Qed.

(** Two calls with the same key, [n] or more other keys used for the
    first time in between: the second call sends its query again. *)
Lemma second_call_misses k mid rs st1 :
  NoDup mid → k ∉ mid → n ≤ length mid → is_Some (resolve e k) →
  calls f (k :: mid) initial = (Ok rs, st1) →
  ∃ v st2, f k st1 = (Ok v, st2)
           ∧ queries st2 = queries st1 ++ [citation_query k]
           ∧ head (queries st1) = Some (citation_query k).
Proof.
  intros Hnd Hk Hlen [v Hv] H.
  assert (Hwf0 : cache_wf n (cache initial)).
  { split; [apply NoDup_nil_2 | simpl; lia]. }
  pose proof (cache_ok_initial e) as Hok0.
  assert (Hl0 : (cache initial).*1 = take n []) by by destruct n.
  destruct (calls_keys (k :: mid) initial rs st1 [] Hwf0 Hok0
              (NoDup_nil_2) Hl0 H) as (Hk1 & Hwf1 & Hok1 & _).
  apply calls_cons in H as (v0 & vs & sta & Hf & H & ->).
  assert (Hqa : queries sta = [citation_query k]).
  { destruct (lru_cache_step _ _ _ _ Hwf0 Hf) as (_ & _ & Hq).
    rewrite decide_False in Hq by inversion 1. done. }
  assert (Hpre : queries sta `prefix_of` queries st1).
  { assert (Hnda : NoDup (touch k (cache initial).*1))
      by (apply touch_NoDup, NoDup_nil_2).
    destruct (lru_cache_step _ _ _ _ Hwf0 Hf) as (Hka & Hwfa & _).
    destruct (lru_cache_invariant k initial Hok0) as [Hoka _].
    rewrite Hf in Hoka. cbn [snd] in Hoka.
    by destruct (calls_keys mid sta vs st1 _ Hwfa Hoka Hnda Hka H)
      as (_ & _ & _ & ?). }
  assert (Hout : k ∉ (cache st1).*1).
  { rewrite Hk1. unfold mru_from. cbn [foldl]. fold (mru_from (touch k []) mid).
    rewrite mru_from_fresh; [|done|].
    - rewrite take_app_le by (rewrite length_reverse; lia).
      intros Hin. apply subseteq_take in Hin.
      apply (proj1 (elem_of_reverse _ _)) in Hin. by apply Hk.
    - intros x Hx. unfold touch. rewrite filter_nil.
      rewrite list_elem_of_singleton. by intros ->. }
  apply cache_get_None in Hout.
  unfold cached_query, lru_cache. rewrite Hout.
  unfold query_legal_citation_body. unfold resolve in Hv.
  destruct (execute_sparql_query e (citation_query k)) as [rows|];
    [|done]. simpl in Hv. injection Hv as <-.
  eexists _, _. split_and!; [done | done |].
  destruct Hpre as [more ->]. by rewrite Hqa.
Qed.
End CachedCalls.

(** ** The memoized resolver *)

Lemma cache_wf_initial n : cache_wf n (cache initial).
Proof. split; [apply NoDup_nil_2 | apply Nat.le_0_l]. Defined.

(** C3 (as amended). Two calls of the resolver with the same key, fewer
    than 2^15 other keys looked up in between: the second call sends no
    query and returns what the first returned. With the knowledge base
    unchanged, the resolver returns what its body without the cache
    returns. After any sequence of calls the cache holds the 2^15 most
    recently used keys: the key dropped from a full cache is the least
    recently used one. *)
Theorem resolver_memoized (e : env) :
  (∀ k mid st rs st1,
     cache_wf maxsize (cache st) → cache_ok e (cache st) →
     calls (query_legal_citation e) (k :: mid) st = (Ok rs, st1) →
     size (other_keys k mid) < maxsize →
     ∃ v st2, query_legal_citation e k st1 = (Ok v, st2)
              ∧ queries st2 = queries st1 ∧ rs !! 0 = Some v)
  ∧ (∀ k st,
       cache_ok e (cache st) →
       (query_legal_citation e k st).1 = (query_legal_citation_body e k st).1
       ∧ cache_ok e (cache (query_legal_citation e k st).2))
  ∧ (∀ ks rs st',
       calls (query_legal_citation e) ks initial = (Ok rs, st') →
       (cache st').*1 = take maxsize (mru ks)).
Proof.
  split_and!.
  - intros k mid st rs st1. apply (second_call_hits maxsize e).
  - intros k st Hok. split.
    + by apply (lru_cache_same_result maxsize e).
    + by apply (lru_cache_invariant maxsize e).
  - intros ks rs st' H.
    apply (calls_keys maxsize e ks initial rs st' []);
      [apply cache_wf_initial | apply cache_ok_initial | apply NoDup_nil_2
      | by rewrite take_nil | done].
Qed.

Lemma resolver_memoized_sample :
  ∃ v st1 st2,
    query_legal_citation Sample.env_ok "NJA 2019 s. 45" st1 = (Ok v, st2)
    ∧ queries st2 = queries st1
    ∧ v = ["Q123"].
Proof.
  destruct (resolver_memoized Sample.env_ok) as [Hhit _].
  destruct (Hhit "NJA 2019 s. 45" ["Prop. 2005/06:55"; "SOU 2001:5"] initial
              [["Q123"]; ["Q1"; "Q2"]; []]
              (MkState None
                 [("SOU 2001:5", []); ("Prop. 2005/06:55", ["Q1"; "Q2"]);
                  ("NJA 2019 s. 45", ["Q123"])]
                 [citation_query "NJA 2019 s. 45";
                  citation_query "Prop. 2005/06:55";
                  citation_query "SOU 2001:5"] [] []))
    as (v & st2 & H1 & H2 & H3).
  - apply cache_wf_initial.
  - apply cache_ok_initial.
  - vm_compute. reflexivity.
  - apply Nat.ltb_lt. vm_compute. reflexivity.
  - exists v. eexists _, st2. split_and!; [exact H1 | exact H2 |].
    by injection H3 as <-.
Defined.

Lemma filler_inj : Inj (=) (=) filler.
Proof.
  intros i j H. unfold filler in H.
  apply (f_equal chars) in H. rewrite !str_chars in H.
  apply app_inv_head in H. apply (f_equal length) in H.
  rewrite !length_replicate in H. lia.
Qed.

Lemma fillers_NoDup n : NoDup (fillers n).
Proof. apply (NoDup_fmap_2 (Inj0 := filler_inj) filler), NoDup_seq. Qed.

Lemma fillers_other n : "NJA 2019 s. 45" ∉ fillers n.
Proof.
  unfold fillers. rewrite list_elem_of_fmap. intros (i & H & _).
  apply (f_equal chars) in H. unfold filler in H. rewrite str_chars in H.
  discriminate H.
Qed.

(** C3, the claim as written, fails once the bound is reached: with
    2^15 other keys looked up between two calls for the same citation,
    the second call sends its query again. *)
Lemma repeated_lookup_after_eviction :
  ∃ rs st1 v st2,
    calls (query_legal_citation Sample.env_ok)
          ("NJA 2019 s. 45" :: fillers maxsize) initial = (Ok rs, st1)
    ∧ query_legal_citation Sample.env_ok "NJA 2019 s. 45" st1 = (Ok v, st2)
    ∧ head (queries st1) = Some (citation_query "NJA 2019 s. 45")
    ∧ queries st2 = queries st1 ++ [citation_query "NJA 2019 s. 45"].
Proof.
  destruct (calls_total maxsize Sample.env_ok
              ("NJA 2019 s. 45" :: fillers maxsize) initial
              (cache_ok_initial _) (λ k _, sample_kb_answers k))
    as (rs & st1 & H).
  destruct (second_call_misses maxsize Sample.env_ok "NJA 2019 s. 45"
              (fillers maxsize) rs st1) as (v & st2 & H1 & H2 & H3).
  - apply fillers_NoDup.
  - apply fillers_other.
  - unfold fillers. rewrite length_fmap, length_seq. apply Nat.le_refl.
  - apply sample_kb_answers.
  - exact H.
  - exists rs, st1, v, st2. split_and!; [exact H | exact H1 | exact H3 | exact H2].
Qed.

(** ** Running the matcher on a text with an unknown end *)

Section Run.
Context {A : Type}.
Implicit Types (k : @cont A) (R : option A).

Lemma run_eps s c k R : k s c = R → bt Eps s c k = R.
Proof. done. Qed.

Lemma run_seq r1 r2 s c k R :
  bt r1 s c (λ s' c', bt r2 s' c' k) = R → bt (Seq r1 r2) s c k = R.
Proof. done. Qed.

Lemma run_chr p a s c k R :
  p a = true → k s c = R → bt (Chr p) (a :: s) c k = R.
Proof. intros Hp <-. simpl. by rewrite Hp. Qed.

Lemma run_chr_fail p a s c k : p a = false → bt (Chr p) (a :: s) c k = None.
Proof. intros Hp. simpl. by rewrite Hp. Qed.

Lemma run_chr_nil p c k : bt (Chr p) [] c k = None.
Proof. done. Qed.

Lemma run_alt_l r1 r2 s c k x :
  bt r1 s c k = Some x → bt (Alt r1 r2) s c k = Some x.
Proof. intros H. simpl. by rewrite H. Qed.

Lemma run_alt_r r1 r2 s c k R :
  bt r1 s c k = None → bt r2 s c k = R → bt (Alt r1 r2) s c k = R.
Proof. intros H <-. simpl. by rewrite H. Qed.

Lemma run_group n r s c k R :
  bt r s c (λ s' c', k s' ((n, consumed s s') :: c')) = R →
  bt (Group n r) s c k = R.
Proof. done. Qed.

(** One round of a starred character test. *)
Lemma star_chr_cons p a s c k :
  bt (Star (Chr p)) (a :: s) c k
  = if p a
    then match bt (Star (Chr p)) s c k with
         | Some x => Some x
         | None => k (a :: s) c
         end
    else k (a :: s) c.
Proof.
  cbn [bt length star]. destruct (p a); [|done].
  by rewrite (proj2 (Nat.ltb_lt (length s) (S (length s))) (Nat.lt_succ_diag_r _)).
Qed.

Lemma run_star_more p a s c k x :
  p a = true → bt (Star (Chr p)) s c k = Some x →
  bt (Star (Chr p)) (a :: s) c k = Some x.
Proof. intros Hp H. by rewrite star_chr_cons, Hp, H. Qed.

Lemma run_star_back p a s c k R :
  p a = true → bt (Star (Chr p)) s c k = None → k (a :: s) c = R →
  bt (Star (Chr p)) (a :: s) c k = R.
Proof. intros Hp H <-. by rewrite star_chr_cons, Hp, H. Qed.

Lemma run_star_stop p a s c k R :
  p a = false → k (a :: s) c = R → bt (Star (Chr p)) (a :: s) c k = R.
Proof. intros Hp <-. by rewrite star_chr_cons, Hp. Qed.

Lemma run_star_nil p c k R : k [] c = R → bt (Star (Chr p)) [] c k = R.
Proof. done. Qed.
End Run.

(** A character test is decided by evaluation or is an assumption. *)
Ltac run_test := first [assumption | vm_compute; reflexivity].

(** The matcher fails. *)
Ltac run_none :=
  cbv beta;
  lazymatch goal with
  | |- bt (Seq _ _) _ _ _ = None => apply run_seq; run_none
  | |- bt (Chr _) [] _ _ = None => apply run_chr_nil
  | |- bt (Chr _) (_ :: _) _ _ = None =>
      first [apply run_chr_fail; run_test
            | apply run_chr; [run_test | run_none]]
  | |- bt (Alt _ _) _ _ _ = None => apply run_alt_r; run_none
  | |- bt (Group _ _) _ _ _ = None => apply run_group; run_none
  | |- bt Eps _ _ _ = None => apply run_eps; run_none
  | |- bt (Star (Chr _)) [] _ _ = None => apply run_star_nil; run_none
  | |- bt (Star (Chr _)) (_ :: _) _ _ = None =>
      first [apply run_star_stop; [run_test | run_none]
            | apply run_star_back; [run_test | run_none | run_none]]
  end.

(** The matcher succeeds: the steps of its search, in its order. *)
Ltac run_some :=
  cbv beta;
  lazymatch goal with
  | |- Some _ = _ => reflexivity
  | |- bt (Seq _ _) _ _ _ = _ => apply run_seq; run_some
  | |- bt (Chr _) (_ :: _) _ _ = _ => apply run_chr; [run_test | run_some]
  | |- bt (Alt _ _) _ _ _ = _ =>
      first [apply run_alt_l; run_some
            | apply run_alt_r; [run_none | run_some]]
  | |- bt (Group _ _) _ _ _ = _ => apply run_group; run_some
  | |- bt Eps _ _ _ = _ => apply run_eps; run_some
  | |- bt (Star (Chr _)) [] _ _ = _ => apply run_star_nil; run_some
  | |- bt (Star (Chr _)) (_ :: _) _ _ = _ =>
      first [apply run_star_more; [run_test | run_some]
            | apply run_star_stop; [run_test | run_some]
            | apply run_star_back; [run_test | run_none | run_some]]
  end.

Ltac strip_tail A B :=
  lazymatch A with
  | B => constr:(@nil ascii)
  | ?a :: ?A' => let m := strip_tail A' B in constr:(a :: m)
  end.

(** What was consumed between two points of the text. *)
Ltac consumed_parts :=
  repeat match goal with
         | |- context [consumed ?A ?B] =>
             let m := strip_tail A B in
             replace (consumed A B) with m
               by (symmetry; exact (consumed_app m B))
         end.

Lemma chars_app (a b : string) : chars (a +:+ b) = chars a ++ chars b.
Proof. induction a as [|x a IH]; [done|]. simpl. by f_equal. Qed.

(** The match of the bill pattern at "Prop. 2005/06:55 s. 12", whatever
    follows unless it is a digit. *)
Lemma bill_match_here (post : list ascii) :
  match post with a :: _ => is_digit a = false | [] => True end →
  ∃ m, match_here re_Prop (chars "Prop. 2005/06:55 s. 12" ++ post) = Some m
       ∧ prop_citation m = ("Prop. 2005/06:55", Some "12").
Proof.
  intros Hd. destruct post as [|a post]; eexists; (split; [
    unfold match_here;
    cbv [re_Prop re_session re_page Lit lit_chars chars list_ascii_of_string
         OneOf Opt Plus Rep ws digit word app];
    run_some
  | cbv [chars list_ascii_of_string app]; consumed_parts; reflexivity ]).
Qed.

(** The search passes over a stretch of text in which no match runs
    past the end of the stretch, and goes on behind it. *)
Lemma finditer_from_reaches r rest : ∀ pre skip,
  (∀ q1 q2 m, pre = q1 ++ q2 → q2 ≠ [] →
     match_here r (q2 ++ rest) = Some m → length (group0 m) ≤ length q2) →
  skip ≤ length pre →
  ∃ ms, finditer_from r skip (pre ++ rest) = ms ++ finditer_from r 0 rest.
Proof.
  induction pre as [|a pre IH]; intros skip Hq Hs.
  - exists []. simpl in Hs. by replace skip with 0 by lia.
  - assert (Hq' : ∀ q1 q2 m, pre = q1 ++ q2 → q2 ≠ [] →
       match_here r (q2 ++ rest) = Some m → length (group0 m) ≤ length q2).
    { intros q1 q2 m ->. apply (Hq (a :: q1)). done. }
    cbn [app finditer_from]. destruct skip as [|n].
    + destruct (match_here r (a :: pre ++ rest)) as [m|] eqn:Hm.
      * pose proof (Hq [] (a :: pre) m eq_refl ltac:(done) Hm) as Hl.
        simpl in Hl.
        destruct (IH (length (group0 m) - 1) Hq') as [ms ->]; [lia|].
        by exists (m :: ms).
      * apply IH; [done | lia].
    + apply IH; [done | simpl in Hs; lia].
Qed.

Lemma finditer_from_search r a s :
  finditer_from r 0 (a :: s)
  = match match_here r (a :: s) with
    | Some m => m :: finditer_from r (length (group0 m) - 1) s
    | None => finditer_from r 0 s
    end.
Proof. reflexivity. Qed.

(** A match of the bill pattern never runs over a capital P. *)
Lemma bill_match_stops_at_P q rest m :
  q ≠ [] →
  match_here re_Prop (q ++ "P"%char :: rest) = Some m →
  length (group0 m) ≤ length q.
Proof.
  intros Hq H. apply match_here_sound in H as (Hm & s' & Hs).
  destruct (decide (length (group0 m) ≤ length q)) as [|Hlong]; [done|].
  exfalso.
  assert (HP : group0 m !! length q = Some "P"%char).
  { rewrite <- (lookup_app_l _ s') by lia. rewrite <- Hs.
    by rewrite list_lookup_middle. }
  unfold re_Prop in Hm.
  apply mt_seq_inv in Hm as (m1 & m2 & c1 & c2 & Hg & _ & H1 & H2).
  inversion H1; subst. apply mt_accepts in H2.
  destruct q as [|b q]; [done|]. rewrite Hg in HP. simpl in HP.
  eapply Forall_lookup_1 in H2; [|exact HP]. vm_compute in H2. discriminate.
Qed.

(** The pair of a match that the search finds in the text is among the
    pairs of the bill family. *)
Lemma bill_found (pre post : list ascii) :
  match post with a :: _ => is_digit a = false | [] => True end →
  ("Prop. 2005/06:55", Some "12")
  ∈ prop_citations (pre ++ chars "Prop. 2005/06:55 s. 12" ++ post).
Proof.
  intros Hd. destruct (bill_match_here post Hd) as (m & Hm & Hc).
  assert (E : chars "Prop. 2005/06:55 s. 12" ++ post
              = "P"%char :: (chars "rop. 2005/06:55 s. 12" ++ post))
    by reflexivity.
  rewrite E in Hm. rewrite E. clear E.
  remember (chars "rop. 2005/06:55 s. 12" ++ post) as rest eqn:Hrest.
  clear Hrest.
  destruct (finditer_from_reaches re_Prop ("P"%char :: rest) pre 0)
    as [ms Hms].
  - intros q1 q2 m' _. exact (bill_match_stops_at_P q2 rest m').
  - lia.
  - unfold prop_citations, finditer.
    rewrite Hms, finditer_from_search, Hm, fmap_app, fmap_cons, Hc.
    rewrite elem_of_app, elem_of_cons. tauto.
Qed.

(** ** The pages the patterns yield *)

Lemma mt_nil_nullable r m c : mt r m c → m = [] → nullable r = true.
Proof.
  induction 1 as [|p a Hp|r1 r2 m1 m2 c1 c2 H1 IH1 H2 IH2
                 |r1 r2 m c H IH|r1 r2 m c H IH| |
                 |n r m c H IH]; intros Hm; simpl; try done.
  - apply app_eq_nil in Hm as [-> ->]. by rewrite IH1, IH2.
  - by rewrite IH.
  - rewrite IH by done. apply orb_true_r.
  - by apply IH.
Qed.

Lemma mt_groups_nonempty r m c :
  groups_nonempty r = true → mt r m c → Forall (λ g, g.2 ≠ []) c.
Proof.
  intros Hr Hm. revert Hr.
  induction Hm as [|p a Hp|r1 r2 m1 m2 c1 c2 H1 IH1 H2 IH2
                  |r1 r2 m c H IH|r1 r2 m c H IH| r
                  |r m1 m2 c1 c2 H1 IH1 H2 IH2
                  |n r m c H IH]; simpl; intros Hr; try by constructor.
  - apply andb_true_iff in Hr as [? ?]. apply Forall_app. auto.
  - apply andb_true_iff in Hr as [? ?]. auto.
  - apply andb_true_iff in Hr as [? ?]. auto.
  - apply Forall_app. auto.
  - apply andb_true_iff in Hr as [Hn ?]. constructor; [|auto].
    simpl. intros ->. apply mt_nil_nullable in H; [|done].
    by rewrite H in Hn.
Qed.

Lemma group_elem n (c : caps) g : group n c = Some g → (n, g) ∈ c.
Proof.
  induction c as [|[i x] c IH]; simpl; [done|].
  destruct (Nat.eqb_spec i n) as [->|_].
  - intros [= ->]. left.
  - intros H. right. by apply IH.
Qed.

(** No pattern of the script matches the empty text, so that a match
    always moves the search on. *)
Lemma match_here_consumes r s m :
  nullable r = false → match_here r s = Some m → group0 m ≠ [].
Proof.
  intros Hr H E. apply match_here_sound in H as [H _].
  apply mt_nil_nullable in H; [|done]. by rewrite H in Hr.
Qed.

Lemma patterns_consume :
  Forall (λ r, nullable r = false)
         [re_NJA; re_Prop; re_SOU; re_bet; re_Mot; Plus ws].
Proof. repeat constructor. Qed.

(** A page a match yields is never the empty string. *)
Lemma match_page_nonempty r s m p :
  groups_nonempty r = true → m ∈ finditer r s →
  m_group 2 m = Some p → p ≠ EmptyString.
Proof.
  intros Hr Hm Hp. apply finditer_sound in Hm.
  apply (mt_groups_nonempty _ _ _ Hr) in Hm.
  unfold m_group in Hp. destruct (group 2 (groups m)) as [g|] eqn:Hg; [|done].
  injection Hp as <-. apply group_elem in Hg.
  eapply Forall_forall in Hm; [|exact Hg]. simpl in Hm.
  intros E. apply Hm. rewrite <- (str_chars g). by rewrite E.
Qed.

Lemma extracted_page_nonempty text k p :
  (k, Some p) ∈ citations_of_text text → p ≠ EmptyString.
Proof.
  unfold citations_of_text. cbn zeta.
  rewrite !elem_of_app. intros [H|[H|[H|[H|H]]]].
  - by apply nja_key_head in H as [? ?].
  - apply list_elem_of_fmap in H as (m & [= _ Hp] & H).
    by apply (match_page_nonempty re_Prop (chars text) m).
  - apply list_elem_of_fmap in H as (m & [= _ Hp] & H).
    by apply (match_page_nonempty re_SOU (chars text) m).
  - apply list_elem_of_fmap in H as (m & [= _ Hp] & H).
    by apply (match_page_nonempty re_bet (chars text) m).
  - apply list_elem_of_fmap in H as (m & [= _ Hp] & H).
    by apply (match_page_nonempty re_Mot (chars text) m).
Qed.

(** ** The bill with a page *)

(** C9 (as amended). A text that contains "Prop. 2005/06:55 s. 12", not
    followed by a further digit, gives after extraction and aggregation
    the key "Prop. 2005/06:55" with the page "12" in its page set: the
    page is split off the key. The page set holds exactly the pages with
    which the text cites that bill; it is {"12"} when the text cites the
    bill with no other page, as when the text is the citation alone or
    the citation in a sentence. *)
Theorem bill_with_page :
  (∀ pre post : string,
     starts_with_digit post = false →
     ∃ pages : gset string,
       dict_get "Prop. 2005/06:55"
         (aggregate (citations_of_text
                       (pre +:+ "Prop. 2005/06:55 s. 12" +:+ post)))
       = Some pages
       ∧ "12" ∈ pages
       ∧ (∀ p, p ∈ pages
               ↔ ("Prop. 2005/06:55", Some p)
                 ∈ citations_of_text
                     (pre +:+ "Prop. 2005/06:55 s. 12" +:+ post))
       ∧ ((∀ p, ("Prop. 2005/06:55", Some p)
                ∈ citations_of_text
                    (pre +:+ "Prop. 2005/06:55 s. 12" +:+ post) →
                p = "12") →
          pages = {["12"]}))
  ∧ citations_of_text "Prop. 2005/06:55 s. 12"
    = [("Prop. 2005/06:55", Some "12")]
  ∧ aggregate (citations_of_text "Prop. 2005/06:55 s. 12")
    = [("Prop. 2005/06:55", {["12"]})]
  ∧ aggregate (citations_of_text
                 "Enligt Prop. 2005/06:55 s. 12 ska detta beaktas.")
    = [("Prop. 2005/06:55", {["12"]})].
Proof.
  split_and!; [|vm_compute; reflexivity..].
  intros pre post Hd.
  assert (Hin : ("Prop. 2005/06:55", Some "12")
                ∈ citations_of_text (pre +:+ "Prop. 2005/06:55 s. 12" +:+ post)).
  { unfold citations_of_text. cbn zeta. rewrite !chars_app.
    rewrite !elem_of_app. right. left. apply bill_found.
    unfold starts_with_digit in Hd. by destruct (chars post). }
  destruct (aggregate_pages _ "Prop. 2005/06:55"
              (list_elem_of_fmap_2 fst _ _ Hin)) as (pages & Hp & Hs).
  assert (Hall : ∀ p, p ∈ pages
                      ↔ ("Prop. 2005/06:55", Some p)
                        ∈ citations_of_text
                            (pre +:+ "Prop. 2005/06:55 s. 12" +:+ post)).
  { intros p. rewrite Hs. split; [tauto|]. intros H.
    split; [done | by eapply extracted_page_nonempty]. }
  exists pages. split_and!; [done | by apply Hall | done |].
  intros Honly. apply set_eq. intros p. rewrite elem_of_singleton. split.
  - intros H. by apply Honly, Hall.
  - intros ->. by apply Hall.
Qed.

Lemma bill_with_page_sample :
  starts_with_digit ", s. 14" = false
  ∧ ∃ pages : gset string,
      dict_get "Prop. 2005/06:55"
        (aggregate (citations_of_text
                      ("Se prop. 2005/06:55 s. 14 och "
                       +:+ "Prop. 2005/06:55 s. 12" +:+ ", s. 14")))
      = Some pages
      ∧ "12" ∈ pages.
Proof.
  split; [reflexivity|].
  destruct (proj1 bill_with_page "Se prop. 2005/06:55 s. 14 och " ", s. 14"
              eq_refl) as (pages & Hp & H12 & _).
  exists pages. split; [exact Hp | exact H12].
Defined.

(** C9, the claim as written, fails: a text that contains
    "Prop. 2005/06:55 s. 12" followed by a further digit gives the page
    "123" and not "12", and a text that cites the bill with another page
    as well gives both pages. *)
Lemma bill_page_set_differs :
  aggregate (citations_of_text "Prop. 2005/06:55 s. 123")
  = [("Prop. 2005/06:55", {["123"]})]
  ∧ ({["123"]} : gset string) ≠ {["12"]}
  ∧ aggregate (citations_of_text
                 "Se prop. 2005/06:55 s. 14 och Prop. 2005/06:55 s. 12.")
    = [("Prop. 2005/06:55", {["12"]} ∪ {["14"]})]
  ∧ ({["12"]} ∪ {["14"]} : gset string) ≠ {["12"]}.
Proof.
  split_and!.
  - vm_compute. reflexivity.
  - intros H.
    assert (F : "123" ∈ ({["12"]} : gset string))
      by (rewrite <- H; by apply elem_of_singleton).
    apply elem_of_singleton in F. discriminate F.
  - vm_compute. reflexivity.
  - intros H.
    assert (F : "14" ∈ ({["12"]} : gset string))
      by (rewrite <- H; apply elem_of_union; right;
          by apply elem_of_singleton).
    apply elem_of_singleton in F. discriminate F.
Qed.

(** C2. The pairs the loop receives are those the extraction yields:
    their page is absent or a non-empty string. For every such sequence
    of pairs, each distinct key of the input appears exactly once in the
    aggregated map; the set bound to a key is the set of all pages
    paired with that key in the input, duplicates collapsed; a key whose
    occurrences all have an absent page is present with the empty
    set. *)
Theorem aggregate_groups_pages :
  (∀ pairs : list citation,
     Forall (λ c, c.2 ≠ Some EmptyString) pairs →
     NoDup (aggregate pairs).*1
     ∧ (∀ k, k ∈ (aggregate pairs).*1 ↔ k ∈ pairs.*1)
     ∧ (∀ k, k ∈ pairs.*1 →
          ∃ s, dict_get k (aggregate pairs) = Some s
               ∧ (∀ p, p ∈ s ↔ (k, Some p) ∈ pairs))
     ∧ (∀ k, k ∈ pairs.*1 →
          (∀ p, (k, Some p) ∉ pairs) →
          dict_get k (aggregate pairs) = Some ∅))
  ∧ (∀ text : string,
       Forall (λ c, c.2 ≠ Some EmptyString) (citations_of_text text)).
Proof.
  split.
  - intros pairs Hpairs.
    assert (Hne : ∀ k p, (k, Some p) ∈ pairs → p ≠ EmptyString).
    { intros k p Hin ->.
      eapply Forall_forall in Hpairs; [|exact Hin]. by apply Hpairs. }
    split_and!.
    + apply fold_keys_NoDup, NoDup_nil_2.
    + intros k. unfold aggregate. rewrite fold_keys.
      split; [intros [H|H]; [inversion H | done] | by right].
    + intros k Hin. destruct (aggregate_pages _ _ Hin) as (s & -> & Hs).
      exists s. split; [done|]. intros p. rewrite Hs. split; [tauto|].
      intros H. split; [done | by eapply Hne].
    + intros k Hin Hnone.
      destruct (aggregate_pages _ _ Hin) as (s & -> & Hs).
      f_equal. apply set_eq. intros p. rewrite Hs. split.
      * intros [H _]. by apply Hnone in H.
      * intros F. by apply not_elem_of_empty in F.
  - intros text. apply Forall_forall. intros [k [p|]] Hin; [|done].
    cbn [snd]. intros [= ->]. by apply extracted_page_nonempty in Hin.
Qed.

Lemma aggregate_groups_pages_sample :
  let pairs : list citation :=
    [("Prop. 2005/06:55", Some "12"); ("SOU 2001:5", None);
     ("Prop. 2005/06:55", Some "14"); ("Prop. 2005/06:55", Some "12")] in
  NoDup (aggregate pairs).*1
  ∧ (∀ k, k ∈ (aggregate pairs).*1 ↔ k ∈ pairs.*1)
  ∧ (∀ k, k ∈ pairs.*1 →
       ∃ s, dict_get k (aggregate pairs) = Some s
            ∧ (∀ p, p ∈ s ↔ (k, Some p) ∈ pairs))
  ∧ (∀ k, k ∈ pairs.*1 →
       (∀ p, (k, Some p) ∉ pairs) →
       dict_get k (aggregate pairs) = Some ∅).
Proof.
  apply (proj1 aggregate_groups_pages
           [("Prop. 2005/06:55", Some "12"); ("SOU 2001:5", None);
            ("Prop. 2005/06:55", Some "14"); ("Prop. 2005/06:55", Some "12")]).
  apply (bool_decide_unpack _). vm_compute. exact I.
Defined.

(** ** The first letter of a keyword, anywhere in a text *)

Lemma consumed_blind (u u' v : list ascii) (a b : ascii) :
  consumed (u ++ a :: v) (u' ++ a :: v) = consumed (u ++ b :: v) (u' ++ b :: v).
Proof.
  unfold consumed. rewrite !length_app. cbn [length].
  replace (length u + S (length v) - (length u' + S (length v)))
    with (length u - length u') by lia.
  rewrite !take_app.
  replace (length u - length u' - length u) with 0 by lia. done.
Qed.

Section Blind.
Context {A : Type} (a b : ascii) (v : list ascii).

Lemma star_blind (body : @matcher A) :
  (∀ u c k1 k2,
     (∀ u' c', k1 (u' ++ a :: v) c' = k2 (u' ++ b :: v) c') →
     body (u ++ a :: v) c k1 = body (u ++ b :: v) c k2) →
  ∀ fuel u c k1 k2,
    (∀ u' c', k1 (u' ++ a :: v) c' = k2 (u' ++ b :: v) c') →
    star body fuel (u ++ a :: v) c k1 = star body fuel (u ++ b :: v) c k2.
Proof.
  intros Hbody fuel.
  induction fuel as [|fuel IH]; intros u c k1 k2 Hk; simpl; [apply Hk|].
  rewrite (Hbody u c _
             (λ s' c', if length s' <? length (u ++ b :: v)
                       then star body fuel s' c' k2 else None)).
  - destruct (body (u ++ b :: v) c _); [done | apply Hk].
  - intros u' c'. rewrite !length_app. cbn [length].
    destruct (length u' + S (length v) <? length u + S (length v)); [|done].
    by apply IH.
Qed.

(** A pattern none of whose tests accepts [a] or [b] runs alike on two
    texts that differ in that one character. *)
Lemma bt_blind r :
  accepts r a = false → accepts r b = false →
  ∀ u c (k1 k2 : @cont A),
    (∀ u' c', k1 (u' ++ a :: v) c' = k2 (u' ++ b :: v) c') →
    bt r (u ++ a :: v) c k1 = bt r (u ++ b :: v) c k2.
Proof.
  induction r as [|p|r1 IH1 r2 IH2|r1 IH1 r2 IH2|r1 IH1|n r1 IH1];
    simpl; intros Ha Hb u c k1 k2 Hk.
  - apply Hk.
  - destruct u as [|x u]; simpl.
    + by rewrite Ha, Hb.
    + destruct (p x); [apply Hk | done].
  - apply orb_false_iff in Ha as [? ?]. apply orb_false_iff in Hb as [? ?].
    apply IH1; [done..|]. intros u' c'. by apply IH2.
  - apply orb_false_iff in Ha as [? ?]. apply orb_false_iff in Hb as [? ?].
    rewrite (IH1 ltac:(done) ltac:(done) u c k1 k2 Hk).
    by rewrite (IH2 ltac:(done) ltac:(done) u c k1 k2 Hk).
  - rewrite !length_app. cbn [length]. apply star_blind; [|done].
    intros u0 c0 k3 k4 Hk0. by apply IH1.
  - apply IH1; [done..|]. intros u' c'. rewrite (consumed_blind u u' v a b).
    apply Hk.
Qed.
End Blind.

(** What the search uses of a match, computed by the matcher itself. *)
Lemma yield_of_bt cite r t :
  (∀ x y : re_match, groups x = groups y → cite x = cite y) →
  yield_of cite (match_here r t)
  = bt r t [] (λ s' c, Some (cite (MkMatch [] c), length t - length s')).
Proof.
  intros Hc. unfold yield_of, match_here. symmetry. apply bt_fmap.
  intros s' c'. simpl. f_equal. f_equal; [by apply Hc|].
  unfold consumed. rewrite length_take. lia.
Qed.

(** Texts that give the same yield at every place give the same pairs. *)
Lemma finditer_from_yields cite r (a b : ascii) v : ∀ pre skip,
  (∀ q1 q2, pre = q1 ++ q2 →
     yield_of cite (match_here r (q2 ++ a :: v))
     = yield_of cite (match_here r (q2 ++ b :: v))) →
  cite <$> finditer_from r skip (pre ++ a :: v)
  = cite <$> finditer_from r skip (pre ++ b :: v).
Proof.
  assert (Hstep : ∀ x y s1 s2,
    yield_of cite (match_here r (x :: s1)) = yield_of cite (match_here r (y :: s2)) →
    (∀ skip, cite <$> finditer_from r skip s1 = cite <$> finditer_from r skip s2) →
    cite <$> finditer_from r 0 (x :: s1) = cite <$> finditer_from r 0 (y :: s2)).
  { intros x y s1 s2 Hy Hrest. rewrite !finditer_from_search.
    unfold yield_of in Hy.
    destruct (match_here r (x :: s1)) as [m1|], (match_here r (y :: s2)) as [m2|];
      simpl in Hy; try discriminate Hy; [|apply Hrest].
    injection Hy as Hc Hl. rewrite !fmap_cons, Hc, Hl. f_equal. apply Hrest. }
  induction pre as [|x pre IH]; intros skip Hq.
  - destruct skip as [|n]; [|done]. apply Hstep; [apply (Hq [] [] eq_refl) | done].
  - assert (Hrest : ∀ skip, cite <$> finditer_from r skip (pre ++ a :: v)
                           = cite <$> finditer_from r skip (pre ++ b :: v)).
    { intros skip'. apply IH. intros q1 q2 ->. by apply (Hq (x :: q1)). }
    destruct skip as [|n]; [|apply Hrest].
    apply Hstep; [apply (Hq [] (x :: pre) eq_refl) | done].
Qed.

Section Peel.
Context {A : Type}.
Implicit Types (k : @cont A).

Lemma bt_seq_assoc r1 r2 r3 s c k :
  bt (Seq (Seq r1 r2) r3) s c k = bt (Seq r1 (Seq r2 r3)) s c k.
Proof. done. Qed.

(** The same first character on both sides is tested once for both. *)
Lemma bt_chr_both p r x s1 s2 c k1 k2 :
  bt r s1 c k1 = bt r s2 c k2 →
  bt (Seq (Chr p) r) (x :: s1) c k1 = bt (Seq (Chr p) r) (x :: s2) c k2.
Proof. intros H. simpl. by destruct (p x). Qed.
End Peel.

(** The matcher fails, with a case distinction on a test of an unknown
    character. *)
Ltac run_fail :=
  cbv beta;
  lazymatch goal with
  | |- bt (Seq _ _) _ _ _ = None => apply run_seq; run_fail
  | |- bt (Chr _) [] _ _ = None => apply run_chr_nil
  | |- bt (Chr ?p) (?a :: _) _ _ = None =>
      first [apply run_chr_fail; run_test
            | apply run_chr; [run_test | run_fail]
            | let H := fresh "Ht" in
              destruct (p a) eqn:H;
              [apply run_chr; [exact H | run_fail]
              | apply run_chr_fail; exact H]]
  | |- bt (Alt _ _) _ _ _ = None => apply run_alt_r; run_fail
  | |- bt (Group _ _) _ _ _ = None => apply run_group; run_fail
  | |- bt Eps _ _ _ = None => apply run_eps; run_fail
  | |- bt (Star (Chr _)) [] _ _ = None => apply run_star_nil; run_fail
  | |- bt (Star (Chr _)) (_ :: _) _ _ = None =>
      first [apply run_star_stop; [run_test | run_fail]
            | apply run_star_back; [run_test | run_fail | run_fail]]
  end.

Ltac unfold_pattern :=
  cbv [re_Prop re_Mot re_session re_page Lit lit_chars chars
       list_ascii_of_string OneOf Opt Plus Rep ws digit word].

Lemma prop_citation_groups (x y : re_match) :
  groups x = groups y → prop_citation x = prop_citation y.
Proof. intros H. unfold prop_citation, m_group1, m_group. by rewrite H. Qed.

Lemma mot_citation_groups (x y : re_match) :
  groups x = groups y → mot_citation x = mot_citation y.
Proof. intros H. unfold mot_citation, m_group1, m_group. by rewrite H. Qed.

(** Wherever the search stands before "prop" or "Prop", the case of the
    first letter does not show in what it finds there. *)
Lemma bill_yield_before (q rest : list ascii) :
  yield_of prop_citation
    (match_here re_Prop (q ++ "p"%char :: "r"%char :: rest))
  = yield_of prop_citation
      (match_here re_Prop (q ++ "P"%char :: "r"%char :: rest)).
Proof.
  destruct q as [|x [|y [|z [|w q]]]]; cbn [app].
  - apply yield_of_groups; [apply prop_citation_groups|].
    by apply match_here_first_char.
  - assert (match_here re_Prop (x :: "p"%char :: "r"%char :: rest) = None)
      as -> by (unfold match_here; unfold_pattern; run_fail).
    assert (match_here re_Prop (x :: "P"%char :: "r"%char :: rest) = None)
      as -> by (unfold match_here; unfold_pattern; run_fail).
    done.
  - assert (match_here re_Prop (x :: y :: "p"%char :: "r"%char :: rest)
            = None) as ->
      by (unfold match_here; unfold_pattern; run_fail).
    assert (match_here re_Prop (x :: y :: "P"%char :: "r"%char :: rest)
            = None) as ->
      by (unfold match_here; unfold_pattern; run_fail).
    done.
  - assert (match_here re_Prop (x :: y :: z :: "p"%char :: "r"%char :: rest)
            = None) as ->
      by (unfold match_here; unfold_pattern; run_fail).
    assert (match_here re_Prop (x :: y :: z :: "P"%char :: "r"%char :: rest)
            = None) as ->
      by (unfold match_here; unfold_pattern; run_fail).
    done.
  - rewrite !yield_of_bt by apply prop_citation_groups.
    unfold_pattern. apply bt_chr_both. rewrite !bt_seq_assoc.
    apply bt_chr_both. rewrite !bt_seq_assoc.
    apply bt_chr_both, bt_chr_both.
    apply bt_blind; [vm_compute; reflexivity..|].
    intros u' c'. cbn [length]. by rewrite !length_app.
Qed.

(** Nor does the case of an "m" show in what the search for motions
    finds, wherever it stands. *)
Lemma motion_yield_before (q rest : list ascii) :
  yield_of mot_citation (match_here re_Mot (q ++ "m"%char :: rest))
  = yield_of mot_citation (match_here re_Mot (q ++ "M"%char :: rest)).
Proof.
  destruct q as [|x [|y [|z q]]]; cbn [app].
  - apply yield_of_groups; [apply mot_citation_groups|].
    by apply match_here_first_char.
  - assert (match_here re_Mot (x :: "m"%char :: rest) = None) as ->
      by (unfold match_here; unfold_pattern; run_fail).
    assert (match_here re_Mot (x :: "M"%char :: rest) = None) as ->
      by (unfold match_here; unfold_pattern; run_fail).
    done.
  - assert (match_here re_Mot (x :: y :: "m"%char :: rest) = None) as ->
      by (unfold match_here; unfold_pattern; run_fail).
    assert (match_here re_Mot (x :: y :: "M"%char :: rest) = None) as ->
      by (unfold match_here; unfold_pattern; run_fail).
    done.
  - rewrite !yield_of_bt by apply mot_citation_groups.
    unfold_pattern. apply bt_chr_both. rewrite !bt_seq_assoc.
    apply bt_chr_both, bt_chr_both.
    apply bt_blind; [vm_compute; reflexivity..|].
    intros u' c'. cbn [length]. by rewrite !length_app.
Qed.

(** C7 (as amended). Only the first letter of the keywords of the bill,
    committee-report and motion families may be in either case: a match
    found at "p..." and the match found at "P..." yield the same pair
    and pass over as many characters, and so for "b"/"B" and "m"/"M";
    in every text, the case of the first letter of "prop" does not
    change the pairs of the bill family, nor the case of an "m" those of
    the motion family. The other letters of these keywords are matched
    in lower case only, and the keywords NJA and SOU in upper case
    only. *)
Theorem keyword_first_letter_only :
  (∀ rest, yield_of prop_citation (match_here re_Prop ("p"%char :: rest))
           = yield_of prop_citation (match_here re_Prop ("P"%char :: rest)))
  ∧ (∀ rest, yield_of bet_citation (match_here re_bet ("b"%char :: rest))
             = yield_of bet_citation (match_here re_bet ("B"%char :: rest)))
  ∧ (∀ rest, yield_of mot_citation (match_here re_Mot ("m"%char :: rest))
             = yield_of mot_citation (match_here re_Mot ("M"%char :: rest)))
  ∧ (∀ pre rest, prop_citations (pre ++ "p"%char :: "r"%char :: rest)
                 = prop_citations (pre ++ "P"%char :: "r"%char :: rest))
  ∧ (∀ pre rest, mot_citations (pre ++ "m"%char :: rest)
                 = mot_citations (pre ++ "M"%char :: rest))
  ∧ (∀ s m, match_here re_Prop s = Some m →
       ∃ a rest, s = a :: chars "rop" ++ rest ∧ (a = "p" ∨ a = "P")%char)
  ∧ (∀ s m, match_here re_bet s = Some m →
       ∃ a rest, s = a :: chars "et" ++ rest ∧ (a = "b" ∨ a = "B")%char)
  ∧ (∀ s m, match_here re_Mot s = Some m →
       ∃ a rest, s = a :: chars "ot" ++ rest ∧ (a = "m" ∨ a = "M")%char)
  ∧ (∀ s m, match_here re_NJA s = Some m → ∃ rest, s = chars "NJA" ++ rest)
  ∧ (∀ s m, match_here re_SOU s = Some m → ∃ rest, s = chars "SOU" ++ rest).
Proof.
  split_and!.
  - intros rest. apply yield_of_groups; [apply prop_citation_groups|].
    by apply match_here_first_char.
  - intros rest. apply yield_of_groups.
    + intros x y Hg. unfold bet_citation, m_group1, m_group. by rewrite Hg.
    + by apply match_here_first_char.
  - intros rest. apply yield_of_groups; [apply mot_citation_groups|].
    by apply match_here_first_char.
  - intros pre rest. unfold prop_citations, finditer.
    apply finditer_from_yields. intros q1 q2 _. apply bill_yield_before.
  - intros pre rest. unfold mot_citations, finditer.
    apply finditer_from_yields. intros q1 q2 _. apply motion_yield_before.
  - intros s m H. apply match_here_prefix in H as (m1 & rest & -> & Hp).
    change (prefix_tests re_Prop)
      with [(λ a, existsb (Ascii.eqb a) ["p"; "P"]);
            Ascii.eqb "r"; Ascii.eqb "o"; Ascii.eqb "p"]%char in Hp.
    keyword_letters Hp. inversion Hp; subst. eexists _, rest. eauto.
  - intros s m H. apply match_here_prefix in H as (m1 & rest & -> & Hp).
    change (prefix_tests re_bet)
      with [(λ a, existsb (Ascii.eqb a) ["b"; "B"]);
            Ascii.eqb "e"; Ascii.eqb "t"]%char in Hp.
    keyword_letters Hp. inversion Hp; subst. eexists _, rest. eauto.
  - intros s m H. apply match_here_prefix in H as (m1 & rest & -> & Hp).
    change (prefix_tests re_Mot)
      with [(λ a, existsb (Ascii.eqb a) ["m"; "M"]);
            Ascii.eqb "o"; Ascii.eqb "t"]%char in Hp.
    keyword_letters Hp. inversion Hp; subst. eexists _, rest. eauto.
  - intros s m H. apply match_here_prefix in H as (m1 & rest & -> & Hp).
    change (prefix_tests re_NJA)
      with [Ascii.eqb "N"; Ascii.eqb "J"; Ascii.eqb "A"; is_space]%char in Hp.
    keyword_letters Hp. inversion Hp as [|? w ? ? _ Hp']; subst.
    inversion Hp'; subst. by exists (w :: rest).
  - intros s m H. apply match_here_prefix in H as (m1 & rest & -> & Hp).
    change (prefix_tests re_SOU)
      with [Ascii.eqb "S"; Ascii.eqb "O"; Ascii.eqb "U"; is_space]%char in Hp.
    keyword_letters Hp. inversion Hp as [|? w ? ? _ Hp']; subst.
    inversion Hp'; subst. by exists (w :: rest).
Qed.

(** C7, the claim as written, fails: the NJA pattern finds nothing at a
    lower-case keyword, nor does the bill pattern at an upper-case one. *)
Lemma keyword_case_matters :
  citations_of_text "NJA 2019 s. 45" = [("NJA 2019 s. 45", None)]
  ∧ citations_of_text "nja 2019 s. 45" = []
  ∧ citations_of_text "prop. 2005/06:55" = [("Prop. 2005/06:55", None)]
  ∧ citations_of_text "PROP. 2005/06:55" = [].
Proof. split_and!; vm_compute; reflexivity. Qed.

(** * Further properties *)

(** ** What a row leaves behind *)

Lemma build_refs_frame e b st r st' :
  build_refs e b st = (r, st') →
  cache st' = cache st ∧ queries st' = queries st
  ∧ stdout st' = stdout st ∧ written st' = written st.
Proof.
  unfold build_refs. intros H.
  destruct (b_title b); [|destruct (ref_date st)]; by simplify_eq.
Qed.

Lemma build_refs_bound e b st r st' :
  build_refs e b st = (r, st') →
  match r with
  | Ok _ => is_Some (ref_date st')
  | Raise x => x = NameError "ref_date" ∧ b_title b = None
               ∧ ref_date st = None ∧ st' = st
  end.
Proof.
  unfold build_refs. intros H.
  destruct (b_title b); [|destruct (ref_date st) eqn:E]; simplify_eq;
    cbn; rewrite ?E; eauto.
Qed.

Section Resolver.
Variable n : nat.
Variable e : env.
Implicit Types (k : string) (st : state).

Lemma cached_query_frame k st :
  ref_date (cached_query n e k st).2 = ref_date st
  ∧ stdout (cached_query n e k st).2 = stdout st
  ∧ written (cached_query n e k st).2 = written st.
Proof.
  unfold cached_query, lru_cache, query_legal_citation_body.
  destruct (cache_get k (cache st)); [done|].
  by destruct (execute_sparql_query e (citation_query k)).
Qed.

Lemma cached_query_wf k st :
  cache_wf n (cache st) → cache_wf n (cache (cached_query n e k st).2).
Proof.
  intros Hwf. destruct (cached_query n e k st) as [[v|x] st'] eqn:H.
  - by destruct (lru_cache_step n e k st v st' Hwf H) as (_ & ? & _).
  - unfold cached_query, lru_cache, query_legal_citation_body in H.
    destruct (cache_get k (cache st)); [done|].
    destruct (execute_sparql_query e (citation_query k)); [done|].
    by simplify_eq.
Qed.

Lemma cached_query_answer k st v st' :
  cache_ok e (cache st) → cached_query n e k st = (Ok v, st') →
  resolve e k = Some v.
Proof.
  intros Hok H. pose proof (lru_cache_same_result n e k st Hok) as E.
  rewrite H in E. cbn in E. unfold query_legal_citation_body, resolve in *.
  destruct (execute_sparql_query e (citation_query k)); cbn in *;
    by simplify_eq.
Qed.

Lemma cached_query_raise k st x st' :
  cached_query n e k st = (Raise x, st') →
  x = QueryError (citation_query k)
  ∧ cache_get k (cache st) = None
  ∧ execute_sparql_query e (citation_query k) = None
  ∧ st' = add_query (citation_query k) st.
Proof.
  unfold cached_query, lru_cache, query_legal_citation_body.
  destruct (cache_get k (cache st)); [done|].
  destruct (execute_sparql_query e (citation_query k)); [done|].
  by intros [= <- <-].
Qed.
End Resolver.

Lemma cites_statement_linked e k target refs pages :
  resolve e k = Some [target] → linked e (cites_statement target refs pages).
Proof.
  intros H. split_and!; [done | by exists k |].
  unfold cites_statement. cbn [qualifiers]. by apply Forall_fmap, Forall_true.
Qed.

(** Resolving the citations of a row keeps the cache sound and bounded,
    writes nothing, leaves [ref_date] alone, and adds only statements for
    citations that resolve to one item. *)
Lemma link_citations_inv e item refs cs : ∀ stmts st r st',
  cache_ok e (cache st) → cache_wf maxsize (cache st) →
  link_citations e item refs cs stmts st = (r, st') →
  cache_ok e (cache st') ∧ cache_wf maxsize (cache st')
  ∧ written st' = written st ∧ ref_date st' = ref_date st
  ∧ match r with
    | Ok stmts' => ∃ new, stmts' = stmts ++ new ∧ Forall (linked e) new
    | Raise x => ∃ k, k ∈ cs.*1 ∧ x = QueryError (citation_query k)
    end.
Proof.
  induction cs as [|[k pages] cs IH]; intros stmts st r st' Hok Hwf H.
  - injection H as <- <-. split_and!; try done.
    exists []. by rewrite app_nil_r.
  - pose proof (lru_cache_invariant maxsize e k st Hok) as [Hok1 _].
    pose proof (cached_query_wf maxsize e k st Hwf) as Hwf1.
    pose proof (cached_query_frame maxsize e k st) as (Hd1 & _ & Hw1).
    change (cached_query maxsize e) with (query_legal_citation e) in *.
    destruct (query_legal_citation e k st) as [[targets|x] st1] eqn:Hq.
    + rewrite (link_citations_cons _ _ _ _ _ _ _ _ _ _ Hq) in H.
      cbn [snd] in *.
      assert (Ht : resolve e k = Some targets)
        by exact (cached_query_answer maxsize e k st targets st1 Hok Hq).
      destruct targets as [|t [|t' ts]];
        apply IH in H as (? & ? & Hw & Hd & Hr); try done;
        cbn [written ref_date add_line] in Hw, Hd.
      * split_and!; try done; try congruence.
        destruct r; [done|]. destruct Hr as (k' & ? & ?).
        exists k'. split; [by right | done].
      * split_and!; try done; try congruence.
        destruct r as [stmts'|x].
        -- destruct Hr as (new & -> & Hnew).
           exists (cites_statement t refs pages :: new).
           split; [by rewrite <- (assoc_L (++))|].
           constructor; [by eapply cites_statement_linked | done].
        -- destruct Hr as (k' & ? & ?). exists k'. split; [by right | done].
      * split_and!; try done; try congruence.
        destruct r; [done|]. destruct Hr as (k' & ? & ?).
        exists k'. split; [by right | done].
    + rewrite (link_citations_fail _ _ _ _ _ _ _ _ _ _ Hq) in H.
      injection H as <- <-. cbn [snd] in *.
      apply (cached_query_raise maxsize) in Hq as (-> & _).
      split_and!; try done. exists k. split; [left | done].
Qed.

Lemma write_statements_inv e item stmts st r st' :
  write_statements e item stmts st = (r, st') →
  cache st' = cache st ∧ ref_date st' = ref_date st
  ∧ match r with
    | Ok _ => written st'
              = written st ++ match stmts with
                              | [] => []
                              | _ :: _ => [(item, stmts)]
                              end
    | Raise x => x = WriteError item ∧ written st' = written st
    end.
Proof.
  unfold write_statements. destruct stmts as [|s stmts].
  - intros [= <- <-]. by rewrite app_nil_r.
  - destruct (write e item (s :: stmts)); by intros [= <- <-].
Qed.

(** One row: the cache stays sound and bounded, and the row adds at most
    one edit, of its own item, with at least one statement, all of them
    links to uniquely resolved citations. *)
Lemma process_decision_inv e b st r st' :
  cache_ok e (cache st) → cache_wf maxsize (cache st) →
  process_decision e b st = (r, st') →
  cache_ok e (cache st') ∧ cache_wf maxsize (cache st')
  ∧ (written st' = written st
     ∨ ∃ stmts, written st' = written st ++ [(item_id (b_item b), stmts)]
                ∧ stmts ≠ [] ∧ Forall (linked e) stmts)
  ∧ (∀ name, r = Raise (NameError name) →
       b_title b = None ∧ ref_date st = None)
  ∧ (r = Ok tt → is_Some (ref_date st')).
Proof.
  intros Hok Hwf H. unfold process_decision in H.
  destruct (build_refs e b st) as [[refs|x] st1] eqn:Hr.
  - rewrite (bind_ok _ _ _ _ _ Hr) in H.
    pose proof (build_refs_frame _ _ _ _ _ Hr) as (Hc & _ & _ & Hw).
    pose proof (build_refs_bound _ _ _ _ _ Hr) as Hb. cbn in Hb.
    rewrite <- Hc in Hok, Hwf. rewrite <- Hw. clear Hc Hw Hr.
    destruct (requests_get e (b_url b)) as [content|].
    2:{ injection H as <- <-. cbn [cache written ref_date add_line].
        split_and!; eauto. done. }
    destruct (extract_text e content) as [text|].
    2:{ injection H as <- <-. cbn [cache written ref_date add_line].
        split_and!; eauto. done. }
    destruct (link_citations e (item_id (b_item b)) refs
                (aggregate (citations_of_text text)) [] st1)
      as [[stmts|x] st2] eqn:Hl.
    + rewrite (bind_ok _ _ _ _ _ Hl) in H.
      apply link_citations_inv in Hl
        as (Hok2 & Hwf2 & Hw2 & Hd2 & new & -> & Hnew); try done.
      apply write_statements_inv in H as (Hc3 & Hd3 & H3).
      rewrite Hc3. rewrite <- Hw2. split_and!; try done.
      * destruct r as [[]|x].
        -- destruct new as [|s new]; [left; by rewrite H3, app_nil_r|].
           right. by exists (s :: new).
        -- left. by destruct H3.
      * intros name ->. by destruct H3.
      * intros _. by rewrite Hd3, Hd2.
    + rewrite (bind_raise _ _ _ _ _ Hl) in H. injection H as <- <-.
      apply link_citations_inv in Hl
        as (Hok2 & Hwf2 & Hw2 & Hd2 & k & _ & ->); try done.
      split_and!; try done. by left.
  - rewrite (bind_raise _ _ _ _ _ Hr) in H. injection H as <- <-.
    apply build_refs_bound in Hr as (-> & Ht & Hd & ->).
    split_and!; try done. by left.
Qed.

Lemma run_loop_inv e bs : ∀ st r st',
  cache_ok e (cache st) → cache_wf maxsize (cache st) →
  run_loop e bs st = (r, st') →
  cache_ok e (cache st') ∧ cache_wf maxsize (cache st')
  ∧ (∃ new, written st' = written st ++ new
            ∧ new.*1 `sublist_of` row_items bs
            ∧ Forall (λ edit, edit.2 ≠ [] ∧ Forall (linked e) edit.2) new)
  ∧ (∀ name, r = Raise (NameError name) →
       ∃ b rest, bs = b :: rest ∧ b_title b = None ∧ ref_date st = None).
Proof.
  induction bs as [|b bs IH]; intros st r st' Hok Hwf H.
  - injection H as <- <-. split_and!; try done.
    exists []. by rewrite app_nil_r.
  - destruct (process_decision e b st) as [[[]|x] st1] eqn:Hp.
    + rewrite (run_loop_ok _ _ _ _ _ Hp) in H.
      apply process_decision_inv in Hp as (Hok1 & Hwf1 & Hw1 & _ & Hd1);
        try done.
      apply IH in H as (? & ? & (new & Hw & Hs & Hf) & Hn); try done.
      split_and!; try done.
      * destruct Hw1 as [Hw1|(stmts & Hw1 & ? & ?)]; rewrite Hw1 in Hw.
        -- exists new. split_and!; try done. by apply sublist_cons.
        -- exists ((item_id (b_item b), stmts) :: new).
           split_and!; [by rewrite <- (assoc_L (++)) in Hw
                       | by apply sublist_skip | by constructor].
      * intros name ->. destruct (Hn name eq_refl) as (? & ? & _ & _ & Hd).
        destruct (Hd1 eq_refl) as [d Hd']. congruence.
    + rewrite (run_loop_raise _ _ _ _ _ _ Hp) in H. injection H as <- <-.
      apply process_decision_inv in Hp as (Hok1 & Hwf1 & Hw1 & Hn & _);
        try done.
      split_and!; try done.
      * destruct Hw1 as [Hw1|(stmts & Hw1 & ? & ?)]; rewrite Hw1.
        -- exists []. rewrite app_nil_r. split_and!; try done.
           apply sublist_nil_l.
        -- exists [(item_id (b_item b), stmts)]. split_and!; try done.
           ++ apply sublist_skip, sublist_nil_l.
           ++ by constructor.
      * intros name [= ->]. destruct (Hn name eq_refl). by exists b, bs.
Qed.

(** With every lookup answered: the statements built and the lines
    printed, key after key. *)
Lemma link_citations_trace e item refs cs : ∀ stmts st,
  cache_ok e (cache st) →
  (∀ k, k ∈ cs.*1 → is_Some (resolve e k)) →
  ∃ st', link_citations e item refs cs stmts st
         = (Ok (stmts ++ (cs ≫= link_for e refs)), st')
         ∧ cache_ok e (cache st') ∧ written st' = written st
         ∧ stdout st' = stdout st ++ (cs ≫= notice_for e item).
Proof.
  induction cs as [|[k pages] cs IH]; intros stmts st Hc Hk.
  - exists st. by rewrite !app_nil_r.
  - destruct (Hk k) as [targets Ht]; [left|].
    destruct (query_legal_citation_ok e k targets st Hc Ht)
      as (st1 & Hq & Hc1 & Ho1 & Hw1 & _).
    rewrite (link_citations_cons _ _ _ _ _ _ _ _ _ _ Hq).
    assert (Hk' : ∀ k', k' ∈ cs.*1 → is_Some (resolve e k'))
      by (intros ? ?; apply Hk; by right).
    rewrite !bind_cons. unfold link_for at 1, notice_for at 1.
    cbn [fst snd]. rewrite Ht.
    destruct targets as [|t [|t' ts]].
    + destruct (IH stmts (add_line (no_item_line item k) st1))
        as (st' & -> & ? & Hw & Ho); [done..|]. exists st'.
      cbn [written stdout add_line] in Hw, Ho.
      rewrite Ho, Ho1, Hw, Hw1, <- (assoc_L (++)). by split_and!.
    + destruct (IH (stmts ++ [cites_statement t refs pages]) st1)
        as (st' & -> & ? & Hw & Ho); [done..|]. exists st'.
      rewrite Ho, Ho1, Hw, Hw1, <- (assoc_L (++)). by split_and!.
    + destruct (IH stmts (add_line (multiple_items_line e item k) st1))
        as (st' & -> & ? & Hw & Ho); [done..|]. exists st'.
      cbn [written stdout add_line] in Hw, Ho.
      rewrite Ho, Ho1, Hw, Hw1, <- (assoc_L (++)). by split_and!.
Qed.

(** X1. A document that cannot be fetched: one line "Error when fetching
    file for item ..." is printed, no query is sent, nothing is cached or
    written for the row, and the loop goes on with the next row. *)
Theorem fetch_failure_skips_row e b rest st refs st1 :
  build_refs e b st = (Ok refs, st1) →
  requests_get e (b_url b) = None →
  run_loop e (b :: rest) st
  = run_loop e rest
      (add_line ("Error when fetching file for item " +:+ item_id (b_item b))
                st1)
  ∧ cache st1 = cache st ∧ queries st1 = queries st
  ∧ stdout st1 = stdout st ∧ written st1 = written st.
Proof.
  intros Hr Hg. split; [|by eapply build_refs_frame].
  apply run_loop_ok. unfold process_decision.
  rewrite (bind_ok _ _ _ _ _ Hr). by rewrite Hg.
Qed.

Lemma fetch_failure_skips_row_sample :
  run_loop Outage.env_offline [Sample.titled; Sample.untitled] initial
  = run_loop Outage.env_offline [Sample.untitled]
      (add_line "Error when fetching file for item Q10"
                (set_ref_date "2020-05-04T00:00:00Z" initial)).
Proof.
  eapply proj1.
  eapply (fetch_failure_skips_row Outage.env_offline Sample.titled
            [Sample.untitled] initial);
    [vm_compute; reflexivity | reflexivity].
Defined.

(** X2. A document that cannot be read: one line "Error when parsing file
    for item ..." is printed, no query is sent, nothing is cached or
    written for the row, and the loop goes on with the next row. *)
Theorem parse_failure_skips_row e b rest st refs st1 content :
  build_refs e b st = (Ok refs, st1) →
  requests_get e (b_url b) = Some content →
  extract_text e content = None →
  run_loop e (b :: rest) st
  = run_loop e rest
      (add_line ("Error when parsing file for item " +:+ item_id (b_item b))
                st1)
  ∧ cache st1 = cache st ∧ queries st1 = queries st
  ∧ stdout st1 = stdout st ∧ written st1 = written st.
Proof.
  intros Hr Hg Hx. split; [|by eapply build_refs_frame].
  apply run_loop_ok. unfold process_decision.
  rewrite (bind_ok _ _ _ _ _ Hr). by rewrite Hg, Hx.
Qed.

Lemma parse_failure_skips_row_sample :
  run_loop Outage.env_unreadable [Sample.titled; Sample.untitled] initial
  = run_loop Outage.env_unreadable [Sample.untitled]
      (add_line "Error when parsing file for item Q10"
                (set_ref_date "2020-05-04T00:00:00Z" initial)).
Proof.
  eapply proj1.
  eapply (parse_failure_skips_row Outage.env_unreadable Sample.titled
            [Sample.untitled] initial);
    [vm_compute; reflexivity | reflexivity | reflexivity].
Defined.

(** X3. A row whose document is read and whose lookups are all answered:
    one line is printed for each citation with no candidate or several,
    none for a citation with exactly one; the statements of the latter
    are written in one edit of the row's item, and no edit is made when
    there is none. The loop goes on with the next row. *)
Theorem resolved_row_is_written e b rest st refs st1 content text :
  build_refs e b st = (Ok refs, st1) →
  requests_get e (b_url b) = Some content →
  extract_text e content = Some text →
  cache_ok e (cache st) →
  (∀ k, k ∈ (aggregate (citations_of_text text)).*1 → is_Some (resolve e k)) →
  (aggregate (citations_of_text text) ≫= link_for e refs = []
   ∨ write e (item_id (b_item b))
       (aggregate (citations_of_text text) ≫= link_for e refs) = true) →
  ∃ st2,
    run_loop e (b :: rest) st = run_loop e rest st2
    ∧ stdout st2
      = stdout st ++ (aggregate (citations_of_text text)
                        ≫= notice_for e (item_id (b_item b)))
    ∧ written st2
      = written st ++
        match aggregate (citations_of_text text) ≫= link_for e refs with
        | [] => []
        | s :: stmts => [(item_id (b_item b), s :: stmts)]
        end.
Proof.
  intros Hr Hg Hx Hok Hk Hw.
  pose proof (build_refs_frame _ _ _ _ _ Hr) as (Hc1 & _ & Ho1 & Hw1).
  rewrite <- Hc1 in Hok. rewrite <- Ho1, <- Hw1.
  destruct (link_citations_trace e (item_id (b_item b)) refs
              (aggregate (citations_of_text text)) [] st1 Hok Hk)
    as (st2 & Hl & _ & Hw2 & Ho2).
  rewrite app_nil_l in Hl.
  destruct (aggregate (citations_of_text text) ≫= link_for e refs)
    as [|s stmts] eqn:E.
  - exists st2. rewrite app_nil_r. split_and!; [|done..].
    apply run_loop_ok.
    rewrite (process_decision_link _ _ _ _ _ _ _ Hr Hg Hx).
    by rewrite (bind_ok _ _ _ _ _ Hl).
  - destruct Hw as [?|Hw]; [done|].
    exists (add_edit (item_id (b_item b)) (s :: stmts) st2).
    cbn [stdout written add_edit]. rewrite Hw2. split_and!; [|done..].
    apply run_loop_ok.
    rewrite (process_decision_link _ _ _ _ _ _ _ Hr Hg Hx).
    rewrite (bind_ok _ _ _ _ _ Hl). unfold write_statements. by rewrite Hw.
Qed.

Lemma resolved_row_is_written_sample :
  ∃ st2,
    run_loop Sample.env_ok [Sample.titled; Sample.untitled] initial
    = run_loop Sample.env_ok [Sample.untitled] st2
    ∧ stdout st2
      = [multiple_items_line Sample.env_ok "Q10" "Prop. 2005/06:55";
         no_item_line "Q10" "SOU 2001:5"]
    ∧ (written st2).*1 = ["Q10"].
Proof.
  destruct (resolved_row_is_written Sample.env_ok Sample.titled
              [Sample.untitled] initial _ _ _ _
              ltac:(vm_compute; reflexivity) eq_refl eq_refl
              (cache_ok_initial _) (λ k _, sample_kb_answers k)
              ltac:(right; reflexivity))
    as (st2 & H & Ho & Hw).
  exists st2. split; [exact H|]. split.
  - rewrite Ho. vm_compute. reflexivity.
  - rewrite Hw. vm_compute. reflexivity.
Defined.

(** X4. The run ends with a NameError exactly when the first row of the
    discovery query has no title: once a row with a title has been seen,
    [ref_date] stays bound. *)
Theorem name_error_iff_first_row_untitled (e : env) :
  (∃ name st, run e = (Raise (NameError name), st))
  ↔ (∃ b rest, discovery e = b :: rest ∧ b_title b = None).
Proof.
  unfold run. split.
  - intros (name & st & H).
    apply run_loop_inv in H as (_ & _ & _ & Hn);
      [|apply cache_ok_initial | apply cache_wf_initial].
    destruct (Hn name eq_refl) as (b & rest & ? & ? & _). by exists b, rest.
  - intros (b & rest & -> & Ht).
    exists "ref_date", initial. apply run_loop_raise.
    unfold process_decision. apply bind_raise.
    unfold build_refs. by rewrite Ht.
Qed.

(** X5. Whatever happens during the run, over any rows: the edits made
    are edits of the rows' items, at most one per row and in the order of
    the rows; no edit is empty, and each of its statements is a "cites"
    (P2860) statement whose target is the only item the knowledge base
    gives for some citation, qualified by pages (P304) only. *)
Theorem edits_follow_rows (e : env) (bs : list binding) :
  (written (run_loop e bs initial).2).*1 `sublist_of` row_items bs
  ∧ Forall (λ edit, edit.2 ≠ [] ∧ Forall (linked e) edit.2)
           (written (run_loop e bs initial).2).
Proof.
  destruct (run_loop e bs initial) as [r st] eqn:H.
  apply run_loop_inv in H as (_ & _ & (new & Hw & ? & ?) & _);
    [|apply cache_ok_initial | apply cache_wf_initial].
  cbn [snd]. rewrite Hw. done.
Qed.

(** X6. Whatever happens during the run, over any rows: the cache of the
    resolver holds at most 2^15 entries, no citation twice, and each
    entry is the answer of the knowledge base for its citation. *)
Theorem cache_stays_sound_and_bounded (e : env) (bs : list binding) :
  cache_ok e (cache (run_loop e bs initial).2)
  ∧ NoDup (cache (run_loop e bs initial).2).*1
  ∧ length (cache (run_loop e bs initial).2) ≤ maxsize.
Proof.
  destruct (run_loop e bs initial) as [r st] eqn:H.
  apply run_loop_inv in H as (? & [? ?] & _);
    [|apply cache_ok_initial | apply cache_wf_initial].
  done.
Qed.

(** ** Order and repetitions in the aggregated map *)

Lemma filter_not_in_cons (k : string) (d l : list string) :
  k ∈ d →
  filter (λ x, x ∉ d) (filter (λ x, x ≠ k) l) = filter (λ x, x ∉ d) l.
Proof.
  intros Hk. induction l as [|x l IH]; [done|].
  destruct (decide (x = k)) as [->|Hne].
  - rewrite (filter_cons_False (λ x, x ≠ k)) by tauto.
    by rewrite (filter_cons_False (λ x, x ∉ d)) by tauto.
  - rewrite (filter_cons_True (λ x, x ≠ k)) by done.
    destruct (decide (x ∈ d)).
    + by rewrite !(filter_cons_False (λ x, x ∉ d)) by tauto.
    + rewrite !(filter_cons_True (λ x, x ∉ d)) by done. by f_equal.
Qed.

Lemma filter_not_in_snoc (k : string) (d l : list string) :
  filter (λ x, x ∉ d ++ [k]) l = filter (λ x, x ∉ d) (filter (λ x, x ≠ k) l).
Proof.
  induction l as [|x l IH]; [done|].
  destruct (decide (x = k)) as [->|Hne].
  - rewrite (filter_cons_False (λ x, x ≠ k)) by tauto.
    rewrite filter_cons_False; [done|].
    intros H. apply H, elem_of_app. right. left.
  - rewrite (filter_cons_True (λ x, x ≠ k)) by done.
    destruct (decide (x ∈ d)).
    + rewrite (filter_cons_False (λ x, x ∉ d)) by tauto.
      rewrite filter_cons_False; [done|].
      intros H. apply H, elem_of_app. by left.
    + rewrite (filter_cons_True (λ x, x ∉ d)) by done.
      rewrite filter_cons_True; [by f_equal|].
      rewrite elem_of_app, list_elem_of_singleton. tauto.
Qed.

Lemma fold_keys_order pairs : ∀ d : citation_map,
  (fold_left aggregate_step pairs d).*1
  = d.*1 ++ filter (λ x, x ∉ d.*1) (first_occurrences pairs.*1).
Proof.
  induction pairs as [|c pairs IH]; intros d.
  - by rewrite app_nil_r.
  - cbn [fold_left]. rewrite IH, keys_step, fmap_cons.
    cbn [first_occurrences]. destruct (decide (c.1 ∈ d.*1)) as [Hin|Hout].
    + rewrite filter_cons_False by tauto. by rewrite filter_not_in_cons.
    + rewrite filter_cons_True by done.
      rewrite <- (assoc_L (++)). cbn [app]. by rewrite filter_not_in_snoc.
Qed.

Lemma filter_all {A : Type} (P : A → Prop) `{∀ x, Decision (P x)}
      (l : list A) :
  (∀ x, P x) → filter P l = l.
Proof.
  intros HP. induction l as [|x l IH]; [done|].
  rewrite filter_cons_True by done. by f_equal.
Qed.

(** X7. The keys of the aggregated map are the distinct keys of the
    pairs in the order in which each is met first: the order in which
    the citations are looked up and their statements written. *)
Theorem aggregate_keys_in_first_occurrence_order (pairs : list citation) :
  (aggregate pairs).*1 = first_occurrences pairs.*1.
Proof.
  unfold aggregate. rewrite fold_keys_order. cbn [fmap list_fmap app].
  apply filter_all. intros x H. inversion H.
Qed.

Lemma dict_touch_present (d : citation_map) k :
  k ∈ d.*1 → dict_touch k d = d.
Proof.
  induction d as [|[k' s] d IH]; intros H; [inversion H|].
  cbn [dict_touch]. case_decide as E; [done|].
  f_equal. apply IH. rewrite fmap_cons in H.
  apply elem_of_cons in H as [H|H]; [by symmetry in H | done].
Qed.

Lemma dict_add_present (d : citation_map) k p :
  p ∈ default ∅ (dict_get k d) → dict_add k p d = d.
Proof.
  induction d as [|[k' s] d IH]; cbn [dict_get dict_add default].
  - intros H. by apply not_elem_of_empty in H.
  - case_decide as E; cbn [default].
    + intros H. do 2 f_equal. apply subseteq_union_1_L.
      by apply singleton_subseteq_l.
    + intros H. f_equal. by apply IH.
Qed.

Lemma aggregate_step_absorbs pairs c :
  c ∈ pairs → aggregate_step (aggregate pairs) c = aggregate pairs.
Proof.
  intros Hc.
  assert (Hk : c.1 ∈ (aggregate pairs).*1).
  { unfold aggregate. apply fold_keys. right.
    apply list_elem_of_fmap. by exists c. }
  destruct c as [k [p|]]; cbn [aggregate_step truthy];
    [|by apply dict_touch_present].
  destruct (decide (p = EmptyString)) as [->|Hp].
  - rewrite bool_decide_eq_true_2 by done. by apply dict_touch_present.
  - rewrite bool_decide_eq_false_2 by done. cbn [negb].
    apply dict_add_present. unfold aggregate. apply fold_pages. by right.
Qed.

(** X8. Pairs that were met before change nothing: aggregating a
    sequence of pairs followed by pairs that all occur in it gives the
    map of the sequence alone, keys, order and page sets. *)
Theorem aggregate_absorbs_repeats (pairs extra : list citation) :
  extra ⊆ pairs → aggregate (pairs ++ extra) = aggregate pairs.
Proof.
  intros Hsub. unfold aggregate. rewrite fold_left_app.
  fold (aggregate pairs).
  induction extra as [|c extra IH]; [done|]. cbn [fold_left].
  rewrite aggregate_step_absorbs; [|apply Hsub; left].
  apply IH. intros x Hx. apply Hsub. by right.
Qed.

Lemma aggregate_absorbs_repeats_sample :
  aggregate ([("Prop. 2005/06:55", Some "12"); ("SOU 2001:5", None)]
             ++ [("SOU 2001:5", None); ("Prop. 2005/06:55", Some "12")])
  = aggregate [("Prop. 2005/06:55", Some "12"); ("SOU 2001:5", None)].
Proof.
  apply (aggregate_absorbs_repeats
           [("Prop. 2005/06:55", Some "12"); ("SOU 2001:5", None)]
           [("SOU 2001:5", None); ("Prop. 2005/06:55", Some "12")]).
  apply (bool_decide_unpack _). vm_compute. exact I.
Defined.

(** ** Item ids *)

Lemma existsb_slash_false (l : list ascii) :
  existsb (Ascii.eqb "/") l = false ↔ "/"%char ∉ l.
Proof.
  induction l as [|a l IH]; cbn [existsb].
  - split; [intros _ H; inversion H | done].
  - rewrite orb_false_iff, IH, not_elem_of_cons.
    split; intros [H ?]; (split; [|done]).
    + intros <-. by rewrite Ascii.eqb_refl in H.
    + apply Ascii.eqb_neq. congruence.
Qed.

Lemma after_last_slash_spec (l : list ascii) :
  ("/"%char ∉ after_last_slash l)
  ∧ ((("/"%char ∉ l) ∧ after_last_slash l = l)
     ∨ ∃ pre, l = pre ++ "/"%char :: after_last_slash l).
Proof.
  induction l as [|a l [IH1 IH2]]; cbn [after_last_slash].
  - split; [intros H; inversion H | left; split; [intros H; inversion H|done]].
  - destruct (existsb (Ascii.eqb "/") l) eqn:E.
    + split; [done|]. right. destruct IH2 as [[Hn _]|[pre Hpre]].
      * apply existsb_slash_false in Hn. congruence.
      * exists (a :: pre). cbn [app]. by f_equal.
    + apply existsb_slash_false in E.
      destruct (Ascii.eqb a "/") eqn:Ea.
      * apply Ascii.eqb_eq in Ea as ->. split; [done|]. right. by exists [].
      * apply Ascii.eqb_neq in Ea. split.
        -- rewrite not_elem_of_cons. split; [congruence | done].
        -- left. split; [|done]. rewrite not_elem_of_cons.
           split; [congruence | done].
Qed.

Lemma after_last_slash_app (pre id : list ascii) :
  "/"%char ∉ id → after_last_slash (pre ++ "/"%char :: id) = id.
Proof.
  intros Hid. induction pre as [|a pre IH]; cbn [app after_last_slash].
  - apply existsb_slash_false in Hid. rewrite Hid. by rewrite Ascii.eqb_refl.
  - assert (existsb (Ascii.eqb "/") (pre ++ "/"%char :: id) = true) as ->;
      [|done].
    apply existsb_exists. exists "/"%char. split; [|apply Ascii.eqb_refl].
    apply in_or_app. right. by left.
Qed.

Lemma str_app (a b : list ascii) : str (a ++ b) = str a +:+ str b.
Proof.
  induction a as [|x a IH]; [done|].
  cbn [app str string_of_list_ascii]. unfold str in IH. by rewrite IH.
Qed.

Lemma chars_str (s : string) : str (chars s) = s.
Proof. apply string_of_list_ascii_of_string. Qed.


(** X9. The item id of a URI is what follows its last slash: it has no
    slash, it is the whole URI when that has none, and the id put after
    a base and a slash is read back. *)
Theorem item_id_after_last_slash :
  (∀ uri, ("/"%char ∉ chars (item_id uri))
          ∧ ((("/"%char ∉ chars uri) ∧ item_id uri = uri)
             ∨ ∃ base, uri = base +:+ "/" +:+ item_id uri))
  ∧ (∀ base id, "/"%char ∉ chars id → item_id (base +:+ "/" +:+ id) = id).
Proof.
  split.
  - intros uri. unfold item_id. rewrite str_chars.
    destruct (after_last_slash_spec (chars uri)) as [H1 H2].
    split; [done|]. destruct H2 as [[Hn E]|[pre E]].
    + left. split; [done|]. by rewrite E, chars_str.
    + right. exists (str pre).
      remember (after_last_slash (chars uri)) as tail.
      rewrite <- (chars_str uri), E. by rewrite str_app.
  - intros base id Hid. unfold item_id.
    rewrite !chars_app. cbn [chars list_ascii_of_string app].
    rewrite after_last_slash_app by done. apply chars_str.
Qed.

(** X10. A lookup raises exactly when the citation is not in the cache
    and its query fails. The failed call stores nothing: the state only
    records the query, so the next lookup of the citation sends it
    again. *)
Theorem lookup_raises_iff_uncached_query_fails (e : env) (k : string)
        (st : state) :
  ((∃ x st', query_legal_citation e k st = (Raise x, st'))
   ↔ cache_get k (cache st) = None
     ∧ execute_sparql_query e (citation_query k) = None)
  ∧ (∀ x st', query_legal_citation e k st = (Raise x, st') →
       x = QueryError (citation_query k)
       ∧ st' = add_query (citation_query k) st
       ∧ query_legal_citation e k st'
         = (Raise x, add_query (citation_query k) st')).
Proof.
  assert (Hr : ∀ st0, cache_get k (cache st0) = None →
                 execute_sparql_query e (citation_query k) = None →
                 query_legal_citation e k st0
                 = (Raise (QueryError (citation_query k)),
                    add_query (citation_query k) st0)).
  { intros st0 Hc Hq.
    unfold query_legal_citation, lru_cache, query_legal_citation_body.
    by rewrite Hc, Hq. }
  assert (Hi : ∀ x st', query_legal_citation e k st = (Raise x, st') →
                 x = QueryError (citation_query k)
                 ∧ cache_get k (cache st) = None
                 ∧ execute_sparql_query e (citation_query k) = None
                 ∧ st' = add_query (citation_query k) st).
  { intros x st'.
    unfold query_legal_citation, lru_cache, query_legal_citation_body.
    destruct (cache_get k (cache st)); [done|].
    destruct (execute_sparql_query e (citation_query k)); [done|].
    by intros [= <- <-]. }
  split; [split|].
  - intros (x & st' & H). by apply Hi in H as (_ & ? & ? & _).
  - intros [Hc Hq]. eexists _, _. by apply Hr.
  - intros x st' H. apply Hi in H as (-> & Hc & Hq & ->).
    split_and!; [done..|]. by apply Hr.
Qed.

(** ** Where a citation can start *)

Lemma finditer_from_no_start r p ps s :
  prefix_tests r = p :: ps →
  Forall (λ a, p a = false) s →
  ∀ skip, finditer_from r skip s = [].
Proof.
  intros Hr. induction 1 as [|a s Ha Hs IH]; intros skip; [done|].
  cbn [finditer_from]. destruct skip as [|n]; [|apply IH].
  destruct (match_here r (a :: s)) as [m|] eqn:Hm; [|apply IH].
  apply match_here_prefix in Hm as (m1 & rest & E & Hp).
  rewrite Hr in Hp. inversion Hp as [|? b ? ? Hb _]; subst.
  injection E as <- _. congruence.
Qed.

Lemma not_one_of (x y a : ascii) :
  a ≠ x → a ≠ y → existsb (Ascii.eqb a) [x; y] = false.
Proof.
  intros Hx Hy. cbn [existsb].
  by rewrite (proj2 (Ascii.eqb_neq a x) Hx), (proj2 (Ascii.eqb_neq a y) Hy).
Qed.

(** X11. A citation can only start at the first letter of its keyword:
    a text without a capital N has no NJA citation, one without "p" and
    "P" no bill, one without a capital S no report, one without "b" and
    "B" no committee report, one without "m" and "M" no motion. *)
Theorem no_keyword_initial_no_citation (text : list ascii) :
  (Forall (λ a, a ≠ "N"%char) text → nja_citations text = [])
  ∧ (Forall (λ a, a ≠ "p"%char ∧ a ≠ "P"%char) text →
     prop_citations text = [])
  ∧ (Forall (λ a, a ≠ "S"%char) text → sou_citations text = [])
  ∧ (Forall (λ a, a ≠ "b"%char ∧ a ≠ "B"%char) text →
     bet_citations text = [])
  ∧ (Forall (λ a, a ≠ "m"%char ∧ a ≠ "M"%char) text →
     mot_citations text = []).
Proof.
  split_and!; intros H.
  - unfold nja_citations, finditer.
    rewrite (finditer_from_no_start re_NJA (Ascii.eqb "N") _ text eq_refl);
      [done|].
    eapply Forall_impl; [exact H|]. intros a Ha. apply Ascii.eqb_neq.
    congruence.
  - unfold prop_citations, finditer.
    rewrite (finditer_from_no_start re_Prop _ _ text eq_refl); [done|].
    eapply Forall_impl; [exact H|]. intros a [? ?]. by apply not_one_of.
  - unfold sou_citations, finditer.
    rewrite (finditer_from_no_start re_SOU (Ascii.eqb "S") _ text eq_refl);
      [done|].
    eapply Forall_impl; [exact H|]. intros a Ha. apply Ascii.eqb_neq.
    congruence.
  - unfold bet_citations, finditer.
    rewrite (finditer_from_no_start re_bet _ _ text eq_refl); [done|].
    eapply Forall_impl; [exact H|]. intros a [? ?]. by apply not_one_of.
  - unfold mot_citations, finditer.
    rewrite (finditer_from_no_start re_Mot _ _ text eq_refl); [done|].
    eapply Forall_impl; [exact H|]. intros a [? ?]. by apply not_one_of.
Qed.

Lemma no_keyword_initial_no_citation_sample :
  nja_citations (chars "nja 2019 s. 45, SOU 2001:5") = []
  ∧ sou_citations (chars "NJA 2019 s. 45, sou 2001:5") = [].
Proof.
  split.
  - apply (no_keyword_initial_no_citation
             (chars "nja 2019 s. 45, SOU 2001:5")).
    apply (bool_decide_unpack _). vm_compute. exact I.
  - apply (no_keyword_initial_no_citation
             (chars "NJA 2019 s. 45, sou 2001:5")).
    apply (bool_decide_unpack _). vm_compute. exact I.
Defined.

(** ** What a group captures *)

Lemma mt_group_body r m c :
  mt r m c → ∀ n g, (n, g) ∈ c →
  ∃ r' c', r' ∈ group_bodies n r ∧ mt r' g c'.
Proof.
  induction 1 as [|p a Hp|r1 r2 m1 m2 c1 c2 H1 IH1 H2 IH2
                 |r1 r2 m c H IH|r1 r2 m c H IH| r
                 |r m1 m2 c1 c2 H1 IH1 H2 IH2
                 |i r m c H IH]; intros n g Hg; cbn [group_bodies].
  - inversion Hg.
  - inversion Hg.
  - apply elem_of_app in Hg as [Hg|Hg].
    + destruct (IH2 _ _ Hg) as (r' & c' & ? & ?). exists r', c'.
      split; [apply elem_of_app; by right | done].
    + destruct (IH1 _ _ Hg) as (r' & c' & ? & ?). exists r', c'.
      split; [apply elem_of_app; by left | done].
  - destruct (IH _ _ Hg) as (r' & c' & ? & ?). exists r', c'.
    split; [apply elem_of_app; by left | done].
  - destruct (IH _ _ Hg) as (r' & c' & ? & ?). exists r', c'.
    split; [apply elem_of_app; by right | done].
  - inversion Hg.
  - apply elem_of_app in Hg as [Hg|Hg]; [by apply IH2 | by apply IH1].
  - apply elem_of_cons in Hg as [[= -> ->]|Hg].
    + exists r, c. rewrite Nat.eqb_refl. split; [left | done].
    + destruct (IH _ _ Hg) as (r' & c' & ? & ?). exists r', c'.
      split; [apply elem_of_app; by right | done].
Qed.

(** What group [n] of a match found in a text holds is matched by a
    sub-pattern the group encloses. *)
Lemma finditer_group_body r s m n g :
  m ∈ finditer r s → group n (groups m) = Some g →
  ∃ r' c', r' ∈ group_bodies n r ∧ mt r' g c'.
Proof.
  intros Hm Hg. apply finditer_sound in Hm. apply group_elem in Hg.
  by eapply mt_group_body.
Qed.

Lemma digits_only g c : mt (Plus digit) g c → Forall (λ a, is_digit a = true) g.
Proof.
  intros H. apply mt_accepts in H. eapply Forall_impl; [exact H|].
  intros a Ha. cbn [accepts Plus digit] in Ha.
  by apply orb_true_iff in Ha as [?|?].
Qed.

Lemma match_page_digits r s m p :
  group_bodies 2 r = [Plus digit] → m ∈ finditer r s →
  m_group 2 m = Some p → Forall (λ a, is_digit a = true) (chars p).
Proof.
  intros Hr Hm Hp. unfold m_group in Hp.
  destruct (group 2 (groups m)) as [g|] eqn:Hg; [|done].
  injection Hp as <-. rewrite str_chars.
  destruct (finditer_group_body _ _ _ _ _ Hm Hg) as (r' & c' & Hr' & H).
  rewrite Hr in Hr'. apply list_elem_of_singleton in Hr' as ->.
  by eapply digits_only.
Qed.

(** X12. A page that is extracted is a non-empty string of decimal
    digits. *)
Theorem extracted_page_is_a_number (text k p : string) :
  (k, Some p) ∈ citations_of_text text →
  p ≠ EmptyString ∧ Forall (λ a, is_digit a = true) (chars p).
Proof.
  intros H. split; [by eapply extracted_page_nonempty|].
  unfold citations_of_text in H. cbn zeta in H.
  rewrite !elem_of_app in H. destruct H as [H|[H|[H|[H|H]]]].
  - by apply nja_key_head in H as [? ?].
  - apply list_elem_of_fmap in H as (m & [= _ Hp] & H).
    by apply (match_page_digits re_Prop (chars text) m).
  - apply list_elem_of_fmap in H as (m & [= _ Hp] & H).
    by apply (match_page_digits re_SOU (chars text) m).
  - apply list_elem_of_fmap in H as (m & [= _ Hp] & H).
    by apply (match_page_digits re_bet (chars text) m).
  - apply list_elem_of_fmap in H as (m & [= _ Hp] & H).
    by apply (match_page_digits re_Mot (chars text) m).
Qed.

Lemma extracted_page_is_a_number_sample :
  "12" ≠ EmptyString ∧ Forall (λ a, is_digit a = true) (chars "12").
Proof.
  apply (extracted_page_is_a_number "Se prop. 2005/06:55 s. 12."
           "Prop. 2005/06:55" "12").
  apply (bool_decide_unpack _). vm_compute. exact I.
Defined.

(** ** Whitespace in keys *)

Lemma run_length_le l : run_length l ≤ length l.
Proof.
  induction l as [|a l IH]; cbn [run_length length]; [done|].
  destruct (is_space a); lia.
Qed.

Section Greedy.
Context {A : Type}.

(** The starred whitespace test takes the whole run when the rest of the
    pattern accepts whatever follows. *)
Lemma star_ws_total (k : @cont A) :
  (∀ s c, is_Some (k s c)) →
  ∀ l c, bt (Star ws) l c k = k (drop (run_length l) l) c.
Proof.
  intros Hk. induction l as [|a l IH]; intros c; [done|].
  unfold ws in *. rewrite star_chr_cons. cbn [run_length].
  destruct (is_space a); [|done].
  rewrite IH. cbn [drop]. by destruct (Hk (drop (run_length l) l) c) as [x ->].
Qed.

Lemma bt_plus_ws (a : ascii) l c (k : @cont A) :
  bt (Plus ws) (a :: l) c k
  = if is_space a then bt (Star ws) l c k else None.
Proof. reflexivity. Qed.
End Greedy.

Lemma match_here_ws a l :
  is_space a = true →
  ∃ g, match_here (Plus ws) (a :: l) = Some (MkMatch (a :: g) [])
       ∧ length g = run_length l.
Proof.
  intros Ha. exists (take (run_length l) l). split.
  - unfold match_here. rewrite bt_plus_ws, Ha.
    rewrite star_ws_total by eauto. f_equal. f_equal.
    unfold consumed. pose proof (run_length_le l) as Hle.
    rewrite length_drop. cbn [length].
    by replace (S (length l) - (length l - run_length l))
      with (S (run_length l)) by lia.
  - rewrite length_take. pose proof (run_length_le l). lia.
Qed.

Lemma match_here_ws_none a l :
  is_space a = false → match_here (Plus ws) (a :: l) = None.
Proof. intros Ha. unfold match_here. by rewrite bt_plus_ws, Ha. Qed.

Lemma sub_from_ws l :
  sub_from (Plus ws) [" "%char] 0 l = squeeze false l
  ∧ sub_from (Plus ws) [" "%char] (run_length l) l = squeeze true l.
Proof.
  induction l as [|a l [IH0 IH1]]; [done|].
  cbn [sub_from run_length squeeze]. destruct (is_space a) eqn:Ha.
  - destruct (match_here_ws a l Ha) as (g & -> & Hg).
    cbn [group0 app]. rewrite Hg, IH1. done.
  - rewrite match_here_ws_none by done. by rewrite IH0.
Qed.

Lemma re_sub_ws l : re_sub (Plus ws) " " l = str (squeeze false l).
Proof. unfold re_sub. f_equal. apply sub_from_ws. Qed.

Lemma squeeze_true_head l : starts_with_space (squeeze true l) = false.
Proof.
  induction l as [|a l IH]; [done|]. cbn [squeeze].
  destruct (is_space a) eqn:Ha; [done|]. apply Ha.
Qed.

Lemma squeeze_single_spaced l : ∀ b, single_spaced (squeeze b l) = true.
Proof.
  induction l as [|a l IH]; intros b; [done|]. cbn [squeeze].
  destruct (is_space a) eqn:Ha.
  - destruct b; [apply IH|]. cbn [single_spaced].
    rewrite squeeze_true_head, IH. reflexivity.
  - cbn [single_spaced]. by rewrite Ha, IH.
Qed.

Lemma squeeze_no_run l :
  starts_with_space l = false → squeeze true l = squeeze false l.
Proof. destruct l as [|a l]; [done|]. cbn. by intros ->. Qed.

Lemma single_spaced_fixed l : single_spaced l = true → squeeze false l = l.
Proof.
  induction l as [|a l IH]; [done|]. cbn [single_spaced squeeze].
  intros H. apply andb_true_iff in H as [Ha Hl].
  destruct (is_space a).
  - apply andb_true_iff in Ha as [Ha Hs]. apply Ascii.eqb_eq in Ha as ->.
    apply negb_true_iff in Hs. rewrite squeeze_no_run by done.
    by rewrite IH.
  - by rewrite IH.
Qed.

(** X13. Replacing the whitespace pattern by a space puts one plain
    space in the place of every run of whitespace. The result has no
    other whitespace and no two spaces in a row, and a text of that form
    is left as it is: normalising twice is normalising once. *)
Theorem whitespace_is_normalised (l : list ascii) :
  re_sub (Plus ws) " " l = str (squeeze false l)
  ∧ single_spaced (chars (re_sub (Plus ws) " " l)) = true
  ∧ re_sub (Plus ws) " " (chars (re_sub (Plus ws) " " l))
    = re_sub (Plus ws) " " l
  ∧ (single_spaced l = true → re_sub (Plus ws) " " l = str l).
Proof.
  rewrite !re_sub_ws, !str_chars. split_and!; [done| | |].
  - apply squeeze_single_spaced.
  - by rewrite single_spaced_fixed by apply squeeze_single_spaced.
  - intros H. by rewrite single_spaced_fixed.
Qed.

Lemma whitespace_is_normalised_sample :
  re_sub (Plus ws) " " (chars "NJA 2019 s. 45") = "NJA 2019 s. 45".
Proof.
  apply (whitespace_is_normalised (chars "NJA 2019 s. 45")). reflexivity.
Defined.

(** ** The form of the keys *)

Lemma no_space_single_spaced g :
  Forall (λ a, is_space a = false) g →
  single_spaced g = true ∧ starts_with_space g = false.
Proof.
  induction 1 as [|a g Ha _ [IH _]]; [done|].
  cbn [single_spaced starts_with_space]. by rewrite Ha, IH.
Qed.

Lemma single_spaced_app pre g :
  single_spaced pre = true → Forall (λ a, is_space a = false) g →
  single_spaced (pre ++ g) = true.
Proof.
  intros Hpre Hg. destruct (no_space_single_spaced g Hg) as [Hs Hh].
  induction pre as [|a pre IH]; [done|].
  cbn [single_spaced app] in *. apply andb_true_iff in Hpre as [Ha Hp].
  rewrite IH by done. rewrite andb_true_r.
  destruct (is_space a); [|done].
  apply andb_true_iff in Ha as [-> Hn]. cbn [andb].
  destruct pre as [|b pre]; [cbn [app]; by rewrite Hh | done].
Qed.

(** No character of an identifier of the bill, committee-report and
    motion families is whitespace. *)
Lemma bill_id_no_space a :
  accepts (re_session +> Plus digit) a = true → is_space a = false.
Proof.
  destruct a as [[] [] [] [] [] [] [] []]; vm_compute; congruence.
Qed.

Lemma report_id_no_space a :
  accepts (re_session +> Plus word +> Plus digit) a = true →
  is_space a = false.
Proof.
  destruct a as [[] [] [] [] [] [] [] []]; vm_compute; congruence.
Qed.

Lemma motion_id_no_space a :
  accepts (re_session +> Rep 2 digit) a = true → is_space a = false.
Proof.
  destruct a as [[] [] [] [] [] [] [] []]; vm_compute; congruence.
Qed.

(** The key built from a prefix and group 1 of a match whose group 1
    has no whitespace. *)
Lemma prefixed_key_single_spaced r body s m (prefix : string) :
  group_bodies 1 r = [body] →
  (∀ a, accepts body a = true → is_space a = false) →
  single_spaced (chars prefix) = true →
  m ∈ finditer r s →
  single_spaced (chars (prefix +:+ m_group1 m)) = true.
Proof.
  intros Hr Hb Hp Hm. rewrite chars_app. apply single_spaced_app; [done|].
  unfold m_group1, m_group.
  destruct (group 1 (groups m)) as [g|] eqn:Hg; [|by constructor].
  change (chars (default EmptyString (str <$> Some g))) with (chars (str g)).
  rewrite str_chars.
  destruct (finditer_group_body _ _ _ _ _ Hm Hg) as (r' & c' & Hr' & H).
  rewrite Hr in Hr'. apply list_elem_of_singleton in Hr' as ->.
  apply mt_accepts in H. eapply Forall_impl; [exact H|]. apply Hb.
Qed.

Lemma squeeze_keyword (x y z w : ascii) rest :
  is_space x = false → is_space y = false → is_space z = false →
  is_space w = true →
  squeeze false (x :: y :: z :: w :: rest)
  = x :: y :: z :: " "%char :: squeeze true rest.
Proof. intros Hx Hy Hz Hw. cbn [squeeze]. by rewrite Hx, Hy, Hz, Hw. Qed.

Lemma nja_key_form text c :
  c ∈ nja_citations text →
  single_spaced (chars c.1) = true ∧ ∃ tail, c.1 = "NJA " +:+ tail.
Proof.
  unfold nja_citations. intros H.
  apply list_elem_of_fmap in H as (m & -> & H).
  unfold nja_citation. cbn [fst]. rewrite re_sub_ws, str_chars.
  split; [apply squeeze_single_spaced|].
  apply finditer_sound, mt_prefix in H as (m1 & m2 & -> & Hp).
  change (prefix_tests re_NJA)
    with [Ascii.eqb "N"; Ascii.eqb "J"; Ascii.eqb "A"; is_space]%char in Hp.
  keyword_letters Hp. inversion Hp as [|? w ? ? Hw Hp']; subst.
  inversion Hp'; subst. cbn [app].
  rewrite squeeze_keyword by done. eexists. reflexivity.
Qed.

Lemma sou_key_form text c :
  c ∈ sou_citations text →
  single_spaced (chars c.1) = true ∧ ∃ tail, c.1 = "SOU " +:+ tail.
Proof.
  unfold sou_citations. intros H.
  apply list_elem_of_fmap in H as (m & -> & H).
  unfold sou_citation. cbn [fst]. rewrite re_sub_ws, str_chars.
  split; [apply squeeze_single_spaced|].
  apply finditer_sound in H. unfold re_SOU in H.
  apply mt_group1_then_page in H as (g & c' & Hg & H).
  apply mt_prefix in H as (m1 & m2 & -> & Hp).
  match type of Hp with
  | Forall2 _ ?ts _ =>
      change ts
        with [Ascii.eqb "S"; Ascii.eqb "O"; Ascii.eqb "U"; is_space]%char in Hp
  end.
  keyword_letters Hp. inversion Hp as [|? w ? ? Hw Hp']; subst.
  inversion Hp'; subst. unfold m_group1, m_group. rewrite Hg.
  change (default EmptyString (str <$> Some ?x)) with (str x).
  rewrite str_chars. cbn [app].
  rewrite squeeze_keyword by done. eexists. reflexivity.
Qed.

(** X14. Every key that is extracted starts with the prefix of its
    family, "NJA ", "Prop. ", "SOU ", "bet. " or "Mot. ", and is
    normalised: its only whitespace is the plain space, never two in a
    row. *)
Theorem extracted_key_is_normalised (text : string) (c : citation) :
  c ∈ citations_of_text text →
  single_spaced (chars c.1) = true
  ∧ ∃ prefix tail, prefix ∈ family_prefixes ∧ c.1 = prefix +:+ tail.
Proof.
  unfold citations_of_text. cbn zeta.
  rewrite !elem_of_app. intros [H|[H|[H|[H|H]]]].
  - apply nja_key_form in H as [? [tail ?]]. split; [done|].
    exists "NJA ", tail. split; [|done]. unfold family_prefixes. set_solver.
  - apply list_elem_of_fmap in H as (m & -> & H). split.
    + by apply (prefixed_key_single_spaced re_Prop _ (chars text) m "Prop. "
                  eq_refl bill_id_no_space).
    + exists "Prop. ", (m_group1 m). split; [|done].
      unfold family_prefixes. set_solver.
  - apply sou_key_form in H as [? [tail ?]]. split; [done|].
    exists "SOU ", tail. split; [|done]. unfold family_prefixes. set_solver.
  - apply list_elem_of_fmap in H as (m & -> & H). split.
    + by apply (prefixed_key_single_spaced re_bet _ (chars text) m "bet. "
                  eq_refl report_id_no_space).
    + exists "bet. ", (m_group1 m). split; [|done].
      unfold family_prefixes. set_solver.
  - apply list_elem_of_fmap in H as (m & -> & H). split.
    + by apply (prefixed_key_single_spaced re_Mot _ (chars text) m "Mot. "
                  eq_refl motion_id_no_space).
    + exists "Mot. ", (m_group1 m). split; [|done].
      unfold family_prefixes. set_solver.
Qed.

Lemma extracted_key_is_normalised_sample :
  single_spaced (chars "NJA 2019 s. 45") = true
  ∧ ∃ prefix tail, prefix ∈ family_prefixes
                   ∧ "NJA 2019 s. 45" = prefix +:+ tail.
Proof.
  apply (extracted_key_is_normalised "Se NJA  2019 s.  45."
           ("NJA 2019 s. 45", None)).
  apply (bool_decide_unpack _). vm_compute. exact I.
Defined.

(** ** The spellings of a keyword *)

Section Spellings.
Context {A : Type}.
Implicit Types (k : @cont A) (s : list ascii) (c : caps).

Lemma lit_chars_fail (x a : ascii) long s c k :
  Ascii.eqb x a = false → bt (lit_chars (x :: long)) (a :: s) c k = None.
Proof. intros H. destruct long; cbn [lit_chars bt]; by rewrite H. Qed.

Lemma lit_chars_match l : ∀ s c k, l ≠ [] → bt (lit_chars l) (l ++ s) c k = k s c.
Proof.
  induction l as [|x l IH]; intros s c k Hl; [done|].
  destruct l as [|y l].
  - cbn [lit_chars bt app]. by rewrite Ascii.eqb_refl.
  - change (lit_chars (x :: y :: l))
      with (Seq (Chr (Ascii.eqb x)) (lit_chars (y :: l))).
    cbn [bt app]. rewrite Ascii.eqb_refl. by apply IH.
Qed.

Lemma ws_then_fail (a : ascii) R s c k :
  is_space a = false → bt (Plus ws +> R) (a :: s) c k = None.
Proof. intros H. cbn [bt]. by rewrite bt_plus_ws, H. Qed.

Lemma opt_seq r R s c k :
  bt (Opt r +> R) s c k
  = match bt r s c (λ s' c', bt R s' c' k) with
    | Some v => Some v
    | None => bt R s c k
    end.
Proof. reflexivity. Qed.

Lemma alt_lit_dot (x : ascii) long s c k :
  bt (Alt (lit_chars (x :: long)) (Lit ".")) s c k
  = match bt (lit_chars (x :: long)) s c k with
    | Some v => Some v
    | None => match s with
              | a :: s' => if Ascii.eqb "." a then k s' c else None
              | [] => None
              end
    end.
Proof. reflexivity. Qed.

(** After the keyword, nothing of its optional ending. *)
Lemma ending_none (x w : ascii) long R s c k :
  Ascii.eqb x w = false → Ascii.eqb "." w = false →
  bt (Opt (Alt (lit_chars (x :: long)) (Lit ".")) +> Plus ws +> R)
     (w :: s) c k
  = bt (Plus ws +> R) (w :: s) c k.
Proof.
  intros Hx Hd. rewrite opt_seq, alt_lit_dot.
  by rewrite lit_chars_fail, Hd by done.
Qed.

(** After the keyword, the full stop. *)
Lemma ending_dot (x : ascii) long R s c k :
  Ascii.eqb x "." = false →
  bt (Opt (Alt (lit_chars (x :: long)) (Lit ".")) +> Plus ws +> R)
     ("."%char :: s) c k
  = bt (Plus ws +> R) s c k.
Proof.
  intros Hx. rewrite opt_seq, alt_lit_dot.
  rewrite lit_chars_fail by done. rewrite Ascii.eqb_refl.
  rewrite (ws_then_fail "." R s c k) by reflexivity.
  by destruct (bt (Plus ws +> R) s c k).
Qed.

(** After the keyword, the rest of the full word. *)
Lemma ending_long (x : ascii) long R s c k :
  is_space x = false → Ascii.eqb "." x = false →
  bt (Opt (Alt (lit_chars (x :: long)) (Lit ".")) +> Plus ws +> R)
     (x :: long ++ s) c k
  = bt (Plus ws +> R) s c k.
Proof.
  intros Hx Hd. rewrite opt_seq, alt_lit_dot.
  rewrite (lit_chars_match (x :: long) s) by done.
  rewrite Hd, (ws_then_fail x R) by done.
  by destruct (bt (Plus ws +> R) s c k).
Qed.
End Spellings.

(** The pair of the match at the head of a text, computed by the
    matcher itself when the pair is read from the groups. *)
Lemma cite_here (cite : re_match → citation) r s :
  (∀ g0 c, cite (MkMatch g0 c) = cite (MkMatch [] c)) →
  cite <$> match_here r s = bt r s [] (λ _ c, Some (cite (MkMatch [] c))).
Proof.
  intros Hc. unfold match_here. symmetry. apply bt_fmap.
  intros s' c'. cbn. f_equal. symmetry. apply Hc.
Qed.

Lemma space_is_no_letter (x w : ascii) :
  is_space w = true → is_space x = false → Ascii.eqb x w = false.
Proof. intros Hw Hx. apply Ascii.eqb_neq. congruence. Qed.

(** X15. A keyword followed by whitespace yields the same pair in its
    three spellings: "prop", "prop." and "proposition"; "bet", "bet." and
    the full word as the source spells it; "mot", "mot." and "motion". *)
Theorem keyword_spellings_same_pair (w : ascii) (rest : list ascii) :
  is_space w = true →
  (prop_citation <$> match_here re_Prop (chars "prop." ++ w :: rest)
   = prop_citation <$> match_here re_Prop (chars "prop" ++ w :: rest)
   ∧ prop_citation <$> match_here re_Prop (chars "proposition" ++ w :: rest)
     = prop_citation <$> match_here re_Prop (chars "prop" ++ w :: rest))
  ∧ (bet_citation <$> match_here re_bet (chars "bet." ++ w :: rest)
     = bet_citation <$> match_here re_bet (chars "bet" ++ w :: rest)
     ∧ bet_citation
         <$> match_here re_bet
               (chars "bet" ++ a_umlaut_as_read ++ chars "nkande" ++ w :: rest)
       = bet_citation <$> match_here re_bet (chars "bet" ++ w :: rest))
  ∧ (mot_citation <$> match_here re_Mot (chars "mot." ++ w :: rest)
     = mot_citation <$> match_here re_Mot (chars "mot" ++ w :: rest)
     ∧ mot_citation <$> match_here re_Mot (chars "motion" ++ w :: rest)
       = mot_citation <$> match_here re_Mot (chars "mot" ++ w :: rest)).
Proof.
  intros Hw.
  assert (Hd : Ascii.eqb "." w = false) by (by apply space_is_no_letter).
  split_and!; rewrite !cite_here by done.
  - unfold re_Prop.
    change (bt ?r (chars "prop." ++ w :: rest) [] ?k)
      with (bt (Opt (Alt (lit_chars (chars "osition")) (Lit ".")) +> Plus ws
                +> Group 1 (re_session +> Plus digit) +> re_page)
               ("."%char :: w :: rest) [] k).
    change (bt ?r (chars "prop" ++ w :: rest) [] ?k)
      with (bt (Opt (Alt (lit_chars (chars "osition")) (Lit ".")) +> Plus ws
                +> Group 1 (re_session +> Plus digit) +> re_page)
               (w :: rest) [] k).
    change (chars "osition") with ("o"%char :: chars "sition").
    rewrite ending_dot by done.
    rewrite ending_none; [done | by apply space_is_no_letter | done].
  - unfold re_Prop.
    change (bt ?r (chars "proposition" ++ w :: rest) [] ?k)
      with (bt (Opt (Alt (lit_chars (chars "osition")) (Lit ".")) +> Plus ws
                +> Group 1 (re_session +> Plus digit) +> re_page)
               ("o"%char :: chars "sition" ++ w :: rest) [] k).
    change (bt ?r (chars "prop" ++ w :: rest) [] ?k)
      with (bt (Opt (Alt (lit_chars (chars "osition")) (Lit ".")) +> Plus ws
                +> Group 1 (re_session +> Plus digit) +> re_page)
               (w :: rest) [] k).
    change (chars "osition") with ("o"%char :: chars "sition").
    rewrite ending_long by done.
    rewrite ending_none; [done | by apply space_is_no_letter | done].
  - unfold re_bet.
    change (bt ?r (chars "bet." ++ w :: rest) [] ?k)
      with (bt (Opt (Alt (lit_chars (a_umlaut_as_read ++ chars "nkande"))
                         (Lit ".")) +> Plus ws
                +> Group 1 (re_session +> Plus word +> Plus digit) +> re_page)
               ("."%char :: w :: rest) [] k).
    change (bt ?r (chars "bet" ++ w :: rest) [] ?k)
      with (bt (Opt (Alt (lit_chars (a_umlaut_as_read ++ chars "nkande"))
                         (Lit ".")) +> Plus ws
                +> Group 1 (re_session +> Plus word +> Plus digit) +> re_page)
               (w :: rest) [] k).
    change (a_umlaut_as_read ++ chars "nkande")
      with (ascii_of_nat 195 :: ascii_of_nat 164 :: chars "nkande").
    rewrite ending_dot by done.
    rewrite ending_none; [done | by apply space_is_no_letter | done].
  - unfold re_bet.
    change (bt ?r (chars "bet" ++ a_umlaut_as_read ++ chars "nkande"
                   ++ w :: rest) [] ?k)
      with (bt (Opt (Alt (lit_chars (a_umlaut_as_read ++ chars "nkande"))
                         (Lit ".")) +> Plus ws
                +> Group 1 (re_session +> Plus word +> Plus digit) +> re_page)
               (ascii_of_nat 195
                :: (ascii_of_nat 164 :: chars "nkande") ++ w :: rest) [] k).
    change (bt ?r (chars "bet" ++ w :: rest) [] ?k)
      with (bt (Opt (Alt (lit_chars (a_umlaut_as_read ++ chars "nkande"))
                         (Lit ".")) +> Plus ws
                +> Group 1 (re_session +> Plus word +> Plus digit) +> re_page)
               (w :: rest) [] k).
    change (a_umlaut_as_read ++ chars "nkande")
      with (ascii_of_nat 195 :: ascii_of_nat 164 :: chars "nkande").
    rewrite ending_long by done.
    rewrite ending_none; [done | by apply space_is_no_letter | done].
  - unfold re_Mot.
    change (bt ?r (chars "mot." ++ w :: rest) [] ?k)
      with (bt (Opt (Alt (lit_chars (chars "ion")) (Lit ".")) +> Plus ws
                +> Group 1 (re_session +> Rep 2 digit) +> re_page)
               ("."%char :: w :: rest) [] k).
    change (bt ?r (chars "mot" ++ w :: rest) [] ?k)
      with (bt (Opt (Alt (lit_chars (chars "ion")) (Lit ".")) +> Plus ws
                +> Group 1 (re_session +> Rep 2 digit) +> re_page)
               (w :: rest) [] k).
    change (chars "ion") with ("i"%char :: chars "on").
    rewrite ending_dot by done.
    rewrite ending_none; [done | by apply space_is_no_letter | done].
  - unfold re_Mot.
    change (bt ?r (chars "motion" ++ w :: rest) [] ?k)
      with (bt (Opt (Alt (lit_chars (chars "ion")) (Lit ".")) +> Plus ws
                +> Group 1 (re_session +> Rep 2 digit) +> re_page)
               ("i"%char :: chars "on" ++ w :: rest) [] k).
    change (bt ?r (chars "mot" ++ w :: rest) [] ?k)
      with (bt (Opt (Alt (lit_chars (chars "ion")) (Lit ".")) +> Plus ws
                +> Group 1 (re_session +> Rep 2 digit) +> re_page)
               (w :: rest) [] k).
    change (chars "ion") with ("i"%char :: chars "on").
    rewrite ending_long by done.
    rewrite ending_none; [done | by apply space_is_no_letter | done].
Qed.

Lemma keyword_spellings_same_pair_sample :
  prop_citation
    <$> match_here re_Prop (chars "proposition" ++ " "%char :: chars "2005/06:55")
  = prop_citation
      <$> match_here re_Prop (chars "prop" ++ " "%char :: chars "2005/06:55").
Proof.
  apply (keyword_spellings_same_pair " " (chars "2005/06:55")). reflexivity.
Defined.

(** X16. The full word of the committee-report family is recognised
    only as the source file spells it, with the code points 195 and 164
    in the place of the letter a-umlaut: where the text has that letter
    itself (code point 228) after "bet" or "Bet", there is no match,
    whatever follows. *)
Theorem full_word_with_umlaut_is_no_keyword (rest : list ascii) :
  match_here re_bet (chars "bet" ++ ascii_of_nat 228 :: rest) = None
  ∧ match_here re_bet (chars "Bet" ++ ascii_of_nat 228 :: rest) = None.
Proof.
  unfold match_here, re_bet. split.
  - change (bt ?r (chars "bet" ++ ascii_of_nat 228 :: rest) [] ?k)
      with (bt (Opt (Alt (lit_chars (a_umlaut_as_read ++ chars "nkande"))
                         (Lit ".")) +> Plus ws
                +> Group 1 (re_session +> Plus word +> Plus digit) +> re_page)
               (ascii_of_nat 228 :: rest) [] k).
    change (a_umlaut_as_read ++ chars "nkande")
      with (ascii_of_nat 195 :: ascii_of_nat 164 :: chars "nkande").
    rewrite ending_none by reflexivity. by apply ws_then_fail.
  - change (bt ?r (chars "Bet" ++ ascii_of_nat 228 :: rest) [] ?k)
      with (bt (Opt (Alt (lit_chars (a_umlaut_as_read ++ chars "nkande"))
                         (Lit ".")) +> Plus ws
                +> Group 1 (re_session +> Plus word +> Plus digit) +> re_page)
               (ascii_of_nat 228 :: rest) [] k).
    change (a_umlaut_as_read ++ chars "nkande")
      with (ascii_of_nat 195 :: ascii_of_nat 164 :: chars "nkande").
    rewrite ending_none by reflexivity. by apply ws_then_fail.
Qed.

(** ** The queries of a run *)

Lemma cached_query_queries n e k st :
  queries (cached_query n e k st).2 = queries st
  ∨ queries (cached_query n e k st).2 = queries st ++ [citation_query k].
Proof.
  unfold cached_query, lru_cache, query_legal_citation_body.
  destruct (cache_get k (cache st)); [by left|].
  destruct (execute_sparql_query e (citation_query k)); by right.
Qed.

Lemma link_citations_queries e item refs cs : ∀ stmts st r st',
  link_citations e item refs cs stmts st = (r, st') →
  ∃ new, queries st' = queries st ++ new
         ∧ new `sublist_of` (citation_query <$> cs.*1).
Proof.
  induction cs as [|[k pages] cs IH]; intros stmts st r st' H.
  - injection H as <- <-. exists []. by rewrite app_nil_r.
  - pose proof (cached_query_queries maxsize e k st) as Hq1.
    change (cached_query maxsize e) with (query_legal_citation e) in Hq1.
    rewrite !fmap_cons. cbn [fst].
    assert (Hstep : ∀ st1 new,
      queries st1 = queries st ∨ queries st1 = queries st ++ [citation_query k] →
      queries st' = queries st1 ++ new →
      new `sublist_of` (citation_query <$> cs.*1) →
      ∃ new', queries st' = queries st ++ new'
              ∧ new' `sublist_of` citation_query k :: (citation_query <$> cs.*1)).
    { intros st1 new [E|E] Hn Hs; rewrite E in Hn.
      - exists new. split; [done | by apply sublist_cons].
      - exists (citation_query k :: new).
        split; [by rewrite <- (assoc_L (++)) in Hn | by apply sublist_skip]. }
    destruct (query_legal_citation e k st) as [[targets|x] st1] eqn:Hq.
    + rewrite (link_citations_cons _ _ _ _ _ _ _ _ _ _ Hq) in H.
      cbn [snd] in Hq1.
      destruct targets as [|t [|t' ts]];
        apply IH in H as (new & Hn & Hs); by apply (Hstep st1 new).
    + rewrite (link_citations_fail _ _ _ _ _ _ _ _ _ _ Hq) in H.
      injection H as <- <-. cbn [snd] in Hq1.
      apply (Hstep st1 []); [done | by rewrite app_nil_r | apply sublist_nil_l].
Qed.

Lemma write_statements_queries e item stmts st r st' :
  write_statements e item stmts st = (r, st') → queries st' = queries st.
Proof.
  unfold write_statements. destruct stmts as [|s stmts].
  - by intros [= <- <-].
  - destruct (write e item (s :: stmts)); by intros [= <- <-].
Qed.

Lemma process_decision_queries e b st r st' :
  process_decision e b st = (r, st') →
  ∃ new, queries st' = queries st ++ new
         ∧ new `sublist_of` (citation_query <$> row_keys e b).
Proof.
  intros H. unfold process_decision in H. unfold row_keys.
  destruct (build_refs e b st) as [[refs|x] st1] eqn:Hr.
  - rewrite (bind_ok _ _ _ _ _ Hr) in H.
    apply build_refs_frame in Hr as (_ & <- & _).
    destruct (requests_get e (b_url b)) as [content|].
    2:{ injection H as <- <-. exists []. by rewrite app_nil_r. }
    destruct (extract_text e content) as [text|].
    2:{ injection H as <- <-. exists []. by rewrite app_nil_r. }
    destruct (link_citations e (item_id (b_item b)) refs
                (aggregate (citations_of_text text)) [] st1)
      as [[stmts|x] st2] eqn:Hl.
    + rewrite (bind_ok _ _ _ _ _ Hl) in H.
      apply write_statements_queries in H. rewrite H.
      by eapply link_citations_queries.
    + rewrite (bind_raise _ _ _ _ _ Hl) in H. injection H as <- <-.
      by eapply link_citations_queries.
  - rewrite (bind_raise _ _ _ _ _ Hr) in H. injection H as <- <-.
    apply build_refs_frame in Hr as (_ & -> & _).
    exists []. rewrite app_nil_r. split; [done | apply sublist_nil_l].
Qed.

Lemma run_loop_queries e bs : ∀ st r st',
  run_loop e bs st = (r, st') →
  ∃ new, queries st' = queries st ++ new
         ∧ new `sublist_of` (citation_query <$> (bs ≫= row_keys e)).
Proof.
  induction bs as [|b bs IH]; intros st r st' H.
  - injection H as <- <-. exists []. by rewrite app_nil_r.
  - rewrite bind_cons, fmap_app.
    destruct (process_decision e b st) as [[[]|x] st1] eqn:Hp.
    + rewrite (run_loop_ok _ _ _ _ _ Hp) in H.
      apply process_decision_queries in Hp as (new1 & E1 & Hs1).
      apply IH in H as (new & E & Hs). exists (new1 ++ new).
      split; [by rewrite E, E1, (assoc_L (++)) | by apply sublist_app].
    + rewrite (run_loop_raise _ _ _ _ _ _ Hp) in H. injection H as <- <-.
      apply process_decision_queries in Hp as (new1 & E1 & Hs1).
      exists new1. split; [done|]. by apply sublist_inserts_r.
Qed.

(** X17. Whatever happens during the run, over any rows: the queries
    sent to the knowledge base are queries for citations found in the
    rows' documents, in the order of the rows and of the citations, at
    most one for each distinct citation of a row; no query is sent for a
    row whose document cannot be fetched or read. *)
Theorem queries_follow_citations (e : env) (bs : list binding) :
  queries (run_loop e bs initial).2
  `sublist_of` (citation_query <$> (bs ≫= row_keys e)).
Proof.
  destruct (run_loop e bs initial) as [r st] eqn:H.
  apply run_loop_queries in H as (new & E & Hs). cbn [snd]. by rewrite E.
Qed.

(** ** An NJA citation spread over lines *)

Section Runs.
Context {A : Type}.
Implicit Types (k : @cont A).

(** A starred test takes a whole run of characters that pass it when
    the rest of the pattern accepts what follows the run. *)
Lemma run_star_run p run rest c k x :
  Forall (λ a, p a = true) run →
  match rest with a :: _ => p a = false | [] => True end →
  k rest c = Some x →
  bt (Star (Chr p)) (run ++ rest) c k = Some x.
Proof.
  intros Hrun Hrest Hk. induction Hrun as [|a run Ha _ IH]; cbn [app].
  - destruct rest as [|b rest]; [done|]. by apply run_star_stop.
  - by apply run_star_more.
Qed.

Lemma numeral_fails (a : ascii) s c k :
  Ascii.eqb "I" a = false → Ascii.eqb "V" a = false →
  bt (Star (Lit "I") +> Lit "V") (a :: s) c k = None.
Proof.
  intros HI HV. apply run_seq.
  change (Lit "I") with (Chr (Ascii.eqb "I")).
  apply run_star_stop; [done|]. by apply run_chr_fail.
Qed.

(** Whitespace that no numeral follows is no numeral suffix, however
    much of it is taken. *)
Lemma star_ws_numeral_fails gap tail c k :
  Forall (λ a, is_space a = true) gap →
  match tail with
  | a :: _ => is_space a = false
              ∧ Ascii.eqb "I" a = false ∧ Ascii.eqb "V" a = false
  | [] => True
  end →
  bt (Star ws) (gap ++ tail) c
     (λ s' c', bt (Star (Lit "I") +> Lit "V") s' c' k) = None.
Proof.
  intros Hgap Htail. unfold ws.
  induction Hgap as [|g gap Hg _ IH]; cbn [app].
  - destruct tail as [|a tail]; [reflexivity|].
    destruct Htail as (Ha & HI & HV). rewrite star_chr_cons, Ha.
    by apply numeral_fails.
  - rewrite star_chr_cons, Hg, IH. apply numeral_fails.
    + apply Ascii.eqb_neq. intros <-. discriminate Hg.
    + apply Ascii.eqb_neq. intros <-. discriminate Hg.
Qed.
End Runs.

Lemma run_length_take l : Forall (λ a, is_space a = true) (take (run_length l) l).
Proof.
  induction l as [|a l IH]; cbn [run_length]; [constructor|].
  destruct (is_space a) eqn:Ha; cbn [take]; by constructor.
Qed.

(** The matcher on a text in which runs of unknown length occur. *)
Ltac run_text :=
  cbv beta;
  lazymatch goal with
  | |- Some _ = _ => reflexivity
  | |- bt (Seq _ _) _ _ _ = _ => apply run_seq; run_text
  | |- bt (Chr _) (_ :: _) _ _ = _ => apply run_chr; [run_test | run_text]
  | |- bt (Alt _ _) _ _ _ = _ => apply run_alt_l; run_text
  | |- bt (Opt (Chr _)) _ _ _ = _ => apply run_alt_l; run_text
  | |- bt (Star (Chr _)) (_ ++ _) _ _ = _ =>
      apply run_star_run; [assumption | assumption | run_text]
  | |- _ => idtac
  end.

Lemma digit_no_space a : is_digit a = true → is_space a = false.
Proof. destruct a as [[] [] [] [] [] [] [] []]; vm_compute; congruence. Qed.

Lemma squeeze_run run : ∀ rest,
  Forall (λ a, is_space a = true) run →
  squeeze true (run ++ rest) = squeeze true rest.
Proof.
  intros rest. induction 1 as [|a run Ha _ IH]; [done|].
  cbn [app squeeze]. by rewrite Ha.
Qed.

Lemma squeeze_blank (a : ascii) run (b : ascii) rest :
  is_space a = true → Forall (λ a, is_space a = true) run →
  is_space b = false →
  squeeze false (a :: run ++ b :: rest) = " "%char :: b :: squeeze false rest.
Proof.
  intros Ha Hrun Hb. cbn [squeeze]. rewrite Ha, squeeze_run by done.
  cbn [squeeze]. by rewrite Hb.
Qed.

Lemma squeeze_char (a : ascii) rest :
  is_space a = false → squeeze false (a :: rest) = a :: squeeze false rest.
Proof. intros Ha. cbn [squeeze]. by rewrite Ha. Qed.

Lemma squeeze_word g : ∀ rest,
  Forall (λ a, is_space a = false) g →
  squeeze false (g ++ rest) = g ++ squeeze false rest.
Proof.
  intros rest. induction 1 as [|a g Ha _ IH]; [done|].
  cbn [app squeeze]. by rewrite Ha, IH.
Qed.

Lemma forallb_Forall (p : ascii → bool) l :
  forallb p l = true → Forall (λ a, p a = true) l.
Proof.
  induction l as [|a l IH]; cbn [forallb]; [constructor|].
  intros H. apply andb_true_iff in H as [? ?]. constructor; auto.
Qed.

Lemma blank_inv w :
  blank w = true →
  ∃ a w', w = a :: w' ∧ is_space a = true
          ∧ Forall (λ a, is_space a = true) w'.
Proof.
  destruct w as [|a w']; [done|]. intros H. apply forallb_Forall in H.
  inversion H; subst. eauto.
Qed.

Lemma number_inv l :
  number l = true →
  ∃ a l', l = a :: l' ∧ is_digit a = true
          ∧ Forall (λ a, is_digit a = true) l'.
Proof.
  destruct l as [|a l']; [done|]. intros H. apply forallb_Forall in H.
  inversion H; subst. eauto.
Qed.

Lemma run_length_drop l :
  match drop (run_length l) l with
  | a :: _ => is_space a = false
  | [] => True
  end.
Proof.
  induction l as [|a l IH]; cbn [run_length]; [done|].
  destruct (is_space a) eqn:Ha; cbn [drop]; done.
Qed.

(** After the page, no numeral suffix. *)
Lemma no_numeral_suffix {A : Type} post c (k : @cont A) :
  ends_citation post = true →
  bt (Opt (Group 1 (Plus ws +> Star (Lit "I") +> Lit "V"))) post c k
  = k post c.
Proof.
  intros H. apply andb_true_iff in H as [_ H].
  apply run_alt_r; [|done]. apply run_group, run_seq.
  destruct post as [|a post]; [done|]. rewrite bt_plus_ws.
  destruct (is_space a) eqn:Ha; [|done].
  cbn [run_length] in H. rewrite Ha in H. cbn [drop] in H.
  rewrite <- (take_drop (run_length post) post).
  apply star_ws_numeral_fails; [apply run_length_take|].
  pose proof (run_length_drop post) as Hb.
  destruct (drop (run_length post) post) as [|b tail]; [done|].
  apply andb_true_iff in H as [HI HV].
  by apply negb_true_iff in HI, HV.
Qed.

(** The match of the NJA pattern at "NJA", a year, "s." and a page,
    with any whitespace between them. *)
Lemma nja_match_here (w1 year w2 w3 page post : list ascii) :
  blank w1 = true → blank w2 = true → blank w3 = true →
  length year = 4 → number year = true → number page = true →
  ends_citation post = true →
  ∃ m, match_here re_NJA
         (chars "NJA" ++ w1 ++ year ++ w2 ++ chars "s." ++ w3 ++ page ++ post)
       = Some m
       ∧ nja_citation m
         = (str (chars "NJA " ++ year ++ chars " s. " ++ page), None).
Proof.
  intros H1 H2 H3 Hy4 Hy Hp Hpost.
  apply blank_inv in H1 as (a1 & w1' & -> & Ha1 & Hw1).
  apply blank_inv in H2 as (a2 & w2' & -> & Ha2 & Hw2).
  apply blank_inv in H3 as (a3 & w3' & -> & Ha3 & Hw3).
  apply number_inv in Hy as (y1 & year' & -> & Hy1 & Hy).
  destruct year' as [|y2 [|y3 [|y4 [|? ?]]]]; try discriminate Hy4.
  inversion Hy as [|? ? Hy2 Hy']; subst.
  inversion Hy' as [|? ? Hy3 Hy'']; subst.
  inversion Hy'' as [|? ? Hy4' _]; subst.
  apply number_inv in Hp as (p1 & page' & -> & Hp1 & Hp).
  pose proof (digit_no_space _ Hy1) as Hs1.
  pose proof (digit_no_space _ Hp1) as Hsp.
  assert (Hd : match post with a :: _ => is_digit a = false | [] => True end).
  { apply andb_true_iff in Hpost as [Hd _]. destruct post; [done|].
    by apply negb_true_iff in Hd. }
  assert (Hs : is_space "s" = false) by reflexivity.
  set (M := chars "NJA" ++ (a1 :: w1') ++ [y1; y2; y3; y4] ++ (a2 :: w2')
            ++ chars "s." ++ (a3 :: w3') ++ (p1 :: page')).
  assert (E : chars "NJA" ++ (a1 :: w1') ++ [y1; y2; y3; y4] ++ (a2 :: w2')
              ++ chars "s." ++ (a3 :: w3') ++ (p1 :: page') ++ post
              = M ++ post).
  { unfold M. by rewrite <- !(assoc_L (++)). }
  exists (MkMatch M []). split.
  - unfold match_here. rewrite <- (consumed_app M post), <- E.
    cbv [re_NJA Lit lit_chars chars list_ascii_of_string Plus Rep ws digit].
    cbn [app].
    run_text.
    by rewrite no_numeral_suffix.
  - unfold nja_citation. cbn [group0]. rewrite re_sub_ws. f_equal. f_equal.
    unfold M. cbn [chars list_ascii_of_string app].
    pose proof (digit_no_space _ Hy2). pose proof (digit_no_space _ Hy3).
    pose proof (digit_no_space _ Hy4').
    rewrite !squeeze_char by reflexivity.
    rewrite squeeze_blank by done.
    rewrite !squeeze_char by assumption.
    rewrite squeeze_blank by done.
    rewrite squeeze_char by reflexivity.
    rewrite squeeze_blank by done.
    rewrite <- (app_nil_r page') at 1. rewrite squeeze_word; [by rewrite app_nil_r|].
    eapply Forall_impl; [exact Hp|]. apply digit_no_space.
Qed.

(** A match of the NJA pattern never runs over a capital N. *)
Lemma nja_match_stops_at_N q rest m :
  q ≠ [] →
  match_here re_NJA (q ++ "N"%char :: rest) = Some m →
  length (group0 m) ≤ length q.
Proof.
  intros Hq H. apply match_here_sound in H as (Hm & s' & Hs).
  destruct (decide (length (group0 m) ≤ length q)) as [|Hlong]; [done|].
  exfalso.
  assert (HN : group0 m !! length q = Some "N"%char).
  { rewrite <- (lookup_app_l _ s') by lia. rewrite <- Hs.
    by rewrite list_lookup_middle. }
  unfold re_NJA in Hm.
  apply mt_seq_inv in Hm as (m1 & m2 & c1 & c2 & Hg & _ & H1 & H2).
  change (Lit "NJA")
    with (Chr (Ascii.eqb "N") +> Chr (Ascii.eqb "J") +> Chr (Ascii.eqb "A"))%re
    in H1.
  apply mt_seq_inv in H1 as (m11 & m12 & c11 & c12 & Hg1 & _ & H11 & H12).
  inversion H11; subst. apply mt_accepts in H12, H2.
  destruct q as [|b q]; [done|]. rewrite Hg in HN.
  rewrite <- (assoc_L (++)) in HN.
  change (([?x] ++ ?l) !! S ?i) with (l !! i) in HN.
  assert (Hall : Forall (λ a, a ≠ "N"%char) (m12 ++ m2)).
  { apply Forall_app. split.
    - eapply Forall_impl; [exact H12|]. intros x Hx ->. vm_compute in Hx.
      discriminate.
    - eapply Forall_impl; [exact H2|]. intros x Hx ->. vm_compute in Hx.
      discriminate. }
  eapply Forall_lookup_1 in Hall; [|exact HN]. done.
Qed.

(** The pair of an NJA citation that the search finds in the text is
    among the pairs of the family. *)
Lemma nja_found (pre w1 year w2 w3 page post : list ascii) :
  blank w1 = true → blank w2 = true → blank w3 = true →
  length year = 4 → number year = true → number page = true →
  ends_citation post = true →
  (str (chars "NJA " ++ year ++ chars " s. " ++ page), None)
  ∈ nja_citations
      (pre ++ chars "NJA" ++ w1 ++ year ++ w2 ++ chars "s." ++ w3 ++ page
       ++ post).
Proof.
  intros H1 H2 H3 Hy4 Hy Hp Hpost.
  destruct (nja_match_here w1 year w2 w3 page post H1 H2 H3 Hy4 Hy Hp Hpost)
    as (m & Hm & Hc).
  change (chars "NJA" ++ ?t) with ("N"%char :: (chars "JA" ++ t)) in *.
  remember (chars "JA" ++ w1 ++ year ++ w2 ++ chars "s." ++ w3 ++ page
            ++ post) as rest eqn:Hrest.
  clear Hrest.
  destruct (finditer_from_reaches re_NJA ("N"%char :: rest) pre 0)
    as [ms Hms].
  - intros q1 q2 m' _. exact (nja_match_stops_at_N q2 rest m').
  - lia.
  - unfold nja_citations, finditer.
    rewrite Hms, finditer_from_search, Hm, fmap_app, fmap_cons, Hc.
    rewrite elem_of_app, elem_of_cons. tauto.
Qed.

(** X18. An NJA citation is found wherever it stands in a text and
    whatever whitespace, line breaks included, separates "NJA", the
    year, "s." and the page: its key is the citation with single
    spaces, and its page is absent. (After the page there is no further
    digit and no numeral "I...V" behind whitespace.) *)
Theorem nja_found_across_whitespace
        (pre w1 year w2 w3 page post : list ascii) :
  blank w1 = true → blank w2 = true → blank w3 = true →
  length year = 4 → number year = true → number page = true →
  ends_citation post = true →
  (str (chars "NJA " ++ year ++ chars " s. " ++ page), None)
  ∈ citations_of_text
      (str (pre ++ chars "NJA" ++ w1 ++ year ++ w2 ++ chars "s." ++ w3
            ++ page ++ post)).
Proof.
  intros H1 H2 H3 Hy4 Hy Hp Hpost. unfold citations_of_text. cbn zeta.
  rewrite str_chars, elem_of_app. left. by apply nja_found.
Qed.

Lemma nja_found_across_whitespace_sample :
  ("NJA 2019 s. 45", None)
  ∈ citations_of_text
      (str (chars "Se " ++ chars "NJA" ++ [ascii_of_nat 10] ++ chars "2019"
            ++ chars "  " ++ chars "s." ++ [ascii_of_nat 9] ++ chars "45"
            ++ chars " och SOU 2001:5.")).
Proof.
  apply (nja_found_across_whitespace (chars "Se ") [ascii_of_nat 10]
           (chars "2019") (chars "  ") [ascii_of_nat 9] (chars "45")
           (chars " och SOU 2001:5."));
    reflexivity.
Defined.

(** ** A report with a page, spread over lines *)

(** The matcher on a text in which runs of unknown length occur, groups
    included. *)
Ltac run_groups :=
  cbv beta;
  lazymatch goal with
  | |- Some _ = _ => reflexivity
  | |- bt (Seq _ _) _ _ _ = _ => apply run_seq; run_groups
  | |- bt (Chr _) (_ :: _) _ _ = _ => apply run_chr; [run_test | run_groups]
  | |- bt (Alt _ _) _ _ _ = _ => apply run_alt_l; run_groups
  | |- bt (Group _ _) _ _ _ = _ => apply run_group; run_groups
  | |- bt (Star (Chr _)) (_ ++ _) _ _ = _ =>
      apply run_star_run; [assumption | assumption | run_groups]
  | |- _ => idtac
  end.

(** What was consumed up to a point of the text is the stretch [M]. *)
Ltac consumed_is M :=
  match goal with
  | |- context [consumed ?T ?R] =>
      replace (consumed T R) with M
        by (transitivity (consumed (M ++ R) R);
            [symmetry; apply consumed_app
            | f_equal; cbn [app]; rewrite <- ?(assoc_L (++)); reflexivity])
  end.

Lemma space_no_digit a : is_space a = true → is_digit a = false.
Proof. destruct a as [[] [] [] [] [] [] [] []]; vm_compute; congruence. Qed.

(** The match of the report pattern at "SOU", a year, a serial number,
    "s." and a page, with any whitespace between them. *)
Lemma sou_match_here (w1 year serial w2 w3 page post : list ascii) :
  blank w1 = true → length year = 4 → number year = true →
  number serial = true → blank w2 = true → blank w3 = true →
  number page = true → no_digit_next post = true →
  ∃ m, match_here re_SOU
         (chars "SOU" ++ w1 ++ year ++ chars ":" ++ serial ++ w2
          ++ chars "s." ++ w3 ++ page ++ post)
       = Some m
       ∧ sou_citation m
         = (str (chars "SOU " ++ year ++ chars ":" ++ serial),
            Some (str page)).
Proof.
  intros H1 Hy4 Hy Hn H2 H3 Hp Hpost.
  apply blank_inv in H1 as (a1 & w1' & -> & Ha1 & Hw1).
  apply blank_inv in H2 as (a2 & w2' & -> & Ha2 & Hw2).
  apply blank_inv in H3 as (a3 & w3' & -> & Ha3 & Hw3).
  apply number_inv in Hy as (y1 & year' & -> & Hy1 & Hy).
  destruct year' as [|y2 [|y3 [|y4 [|? ?]]]]; try discriminate Hy4.
  inversion Hy as [|? ? Hy2 Hy']; subst.
  inversion Hy' as [|? ? Hy3 Hy'']; subst.
  inversion Hy'' as [|? ? Hy4' _]; subst.
  apply number_inv in Hn as (n1 & serial' & -> & Hn1 & Hn).
  apply number_inv in Hp as (p1 & page' & -> & Hp1 & Hp).
  pose proof (digit_no_space _ Hy1) as Hs1.
  pose proof (digit_no_space _ Hp1) as Hsp.
  pose proof (space_no_digit _ Ha2) as Hd2.
  assert (Hd : match post with a :: _ => is_digit a = false | [] => True end).
  { destruct post; [done|]. by apply negb_true_iff in Hpost. }
  assert (Hs : is_space "s" = false) by reflexivity.
  eexists. split.
  - unfold match_here.
    cbv [re_SOU re_page Lit lit_chars chars list_ascii_of_string Opt Plus Rep
         ws digit].
    cbn [app].
    run_groups.
  - unfold sou_citation, m_group1, m_group. cbn [groups group Nat.eqb].
    change (str <$> Some ?x) with (Some (str x)). cbn [default]. unfold id.
    consumed_is (p1 :: page').
    consumed_is ("S"%char :: "O"%char :: "U"%char :: a1
                 :: w1' ++ y1 :: y2 :: y3 :: y4 :: ":"%char :: n1 :: serial').
    f_equal. rewrite str_chars, re_sub_ws. f_equal.
    cbn [chars list_ascii_of_string app].
    pose proof (digit_no_space _ Hy2). pose proof (digit_no_space _ Hy3).
    pose proof (digit_no_space _ Hy4'). pose proof (digit_no_space _ Hn1).
    rewrite !squeeze_char by reflexivity.
    rewrite squeeze_blank by done.
    rewrite !squeeze_char by first [assumption | reflexivity].
    rewrite <- (app_nil_r serial') at 1.
    rewrite squeeze_word; [by rewrite app_nil_r|].
    eapply Forall_impl; [exact Hn|]. apply digit_no_space.
Qed.

(** A match of the report pattern never runs over a capital S. *)
Lemma sou_match_stops_at_S q rest m :
  q ≠ [] →
  match_here re_SOU (q ++ "S"%char :: rest) = Some m →
  length (group0 m) ≤ length q.
Proof.
  intros Hq H. apply match_here_sound in H as (Hm & s' & Hs).
  destruct (decide (length (group0 m) ≤ length q)) as [|Hlong]; [done|].
  exfalso.
  assert (HS : group0 m !! length q = Some "S"%char).
  { rewrite <- (lookup_app_l _ s') by lia. rewrite <- Hs.
    by rewrite list_lookup_middle. }
  unfold re_SOU in Hm.
  apply mt_seq_inv in Hm as (g & m2 & c1 & c2 & Hg & _ & H1 & H2).
  apply mt_group_inv in H1 as (c1' & _ & H1).
  apply mt_seq_inv in H1 as (m11 & m12 & c11 & c12 & -> & _ & H11 & H12).
  change (Lit "SOU")
    with (Chr (Ascii.eqb "S") +> Chr (Ascii.eqb "O") +> Chr (Ascii.eqb "U"))%re
    in H11.
  apply mt_seq_inv in H11 as (m111 & m112 & ? & ? & -> & _ & H111 & H112).
  inversion H111; subst. apply mt_accepts in H112, H12, H2.
  destruct q as [|b q]; [done|]. rewrite Hg in HS.
  rewrite <- !(assoc_L (++)) in HS.
  change (([?x] ++ ?l) !! S ?i) with (l !! i) in HS.
  assert (Hall : Forall (λ a, a ≠ "S"%char) (m112 ++ m12 ++ m2)).
  { rewrite !Forall_app. split_and!.
    - eapply Forall_impl; [exact H112|]. intros x Hx ->. vm_compute in Hx.
      discriminate.
    - eapply Forall_impl; [exact H12|]. intros x Hx ->. vm_compute in Hx.
      discriminate.
    - eapply Forall_impl; [exact H2|]. intros x Hx ->. vm_compute in Hx.
      discriminate. }
  eapply Forall_lookup_1 in Hall; [|exact HS]. done.
Qed.

(** X19. A report cited with a page is found wherever it stands in a
    text and whatever whitespace, line breaks included, separates "SOU",
    the year and serial number, "s." and the page: its key is
    "SOU <year>:<serial>" with a single space, and the page number is
    split off as its page. (No further digit follows the page.) *)
Theorem sou_found_across_whitespace
        (pre w1 year serial w2 w3 page post : list ascii) :
  blank w1 = true → length year = 4 → number year = true →
  number serial = true → blank w2 = true → blank w3 = true →
  number page = true → no_digit_next post = true →
  (str (chars "SOU " ++ year ++ chars ":" ++ serial), Some (str page))
  ∈ citations_of_text
      (str (pre ++ chars "SOU" ++ w1 ++ year ++ chars ":" ++ serial ++ w2
            ++ chars "s." ++ w3 ++ page ++ post)).
Proof.
  intros H1 Hy4 Hy Hn H2 H3 Hp Hpost.
  destruct (sou_match_here w1 year serial w2 w3 page post
              H1 Hy4 Hy Hn H2 H3 Hp Hpost) as (m & Hm & Hc).
  unfold citations_of_text. cbn zeta. rewrite str_chars, !elem_of_app.
  right. right. left.
  change (chars "SOU" ++ ?t) with ("S"%char :: (chars "OU" ++ t)) in *.
  remember (chars "OU" ++ w1 ++ year ++ chars ":" ++ serial ++ w2
            ++ chars "s." ++ w3 ++ page ++ post) as rest eqn:Hrest.
  clear Hrest.
  destruct (finditer_from_reaches re_SOU ("S"%char :: rest) pre 0)
    as [ms Hms].
  - intros q1 q2 m' _. exact (sou_match_stops_at_S q2 rest m').
  - lia.
  - unfold sou_citations, finditer.
    rewrite Hms, finditer_from_search, Hm, fmap_app, fmap_cons, Hc.
    rewrite elem_of_app, elem_of_cons. tauto.
Qed.

Lemma sou_found_across_whitespace_sample :
  ("SOU 2001:5", Some "12")
  ∈ citations_of_text
      (str (chars "Se " ++ chars "SOU" ++ [ascii_of_nat 10] ++ chars "2001"
            ++ chars ":" ++ chars "5" ++ chars " " ++ chars "s."
            ++ [ascii_of_nat 10] ++ chars "12" ++ chars ".")).
Proof.
  apply (sou_found_across_whitespace (chars "Se ") [ascii_of_nat 10]
           (chars "2001") (chars "5") (chars " ") [ascii_of_nat 10]
           (chars "12") (chars "."));
    reflexivity.
Defined.
